(** * Finite-difference Poisson engine of THE.py: model and verification

    The module THE.py discretises the Poisson equation with Dirichlet
    data on an [n x n] or [n x n x n] grid, assembles the linear system,
    factorises it and solves it by forward and backward substitution.

    Python integers are modelled by [Z]; positions inside numpy arrays by
    [nat]; numpy arrays by lists.  The sparse matrix (scipy [lil_matrix],
    later [csr_matrix]) is a finite map from index pairs to its stored
    entries.  The only values the assembler ever stores in the matrix are
    the integer literals 0, 1, 4, 6 and -1, which a float64 holds exactly,
    so the entries are kept in [Z] and converted with [of_Z] at the places
    where the program multiplies them with floating-point data.  All other
    numbers live in an abstract number type [F] with the operations the
    program applies to them; the theorems that speak of exact arithmetic
    instantiate [F] with the real numbers. *)

From Stdlib Require Import ZArith List Lia Reals Lra Psatz QArith.
From stdpp Require Import gmap list list_numbers strings.

Local Open Scope Z_scope.

(** ** Numbers *)

(** The operations THE.py applies to floating-point values. *)
Class Num (F : Type) := {
  of_Z : Z -> F;          (* an integer used as a float: literals, [i + 1] *)
  fadd : F -> F -> F;
  fsub : F -> F -> F;
  fmul : F -> F -> F;
  fdiv : F -> F -> F;
  fpow : F -> Z -> F;     (* [x ** k] *)
  fsin : F -> F;          (* [math.sin] *)
  fsqrt : F -> F;         (* square root, used by the factorisation *)
  is_zero : F -> bool;    (* [x == 0] *)
  is_pos : F -> bool      (* [x > 0] *)
}.

(** ** Grid indexer *)

(** [get_neighbors_2d(p, n_elements)].  Python's [//] and [%] are floor
    division and its remainder, which is what [Z.div] and [Z.modulo]
    compute for a positive divisor.  (For [n_elements = 0] Python raises
    ZeroDivisionError; the assembler calls the function only from inside
    its [range(n_elements)] loops, where [n_elements >= 1].) *)
Definition get_neighbors_2d (p n_elements : Z) : list Z :=
  let i := p / n_elements in
  let j := p mod n_elements in
  (if 0 <? j then [p - 1] else []) ++
  (if j <? n_elements - 1 then [p + 1] else []) ++
  (if 0 <? i then [p - n_elements] else []) ++
  (if i <? n_elements - 1 then [p + n_elements] else []).

(** [get_neighbors_3d(p, n_elements)]. *)
Definition get_neighbors_3d (p n_elements : Z) : list Z :=
  let n2 := n_elements * n_elements in
  let i := p / n2 in
  let j := (p mod n2) / n_elements in
  let k := p mod n_elements in
  (if 0 <? k then [p - 1] else []) ++
  (if k <? n_elements - 1 then [p + 1] else []) ++
  (if 0 <? j then [p - n_elements] else []) ++
  (if j <? n_elements - 1 then [p + n_elements] else []) ++
  (if 0 <? i then [p - n2] else []) ++
  (if i <? n_elements - 1 then [p + n2] else []).

(** ** Sparse matrices *)

(** A scipy sparse matrix: its shape and its stored entries.  Storing a
    zero through item or slice assignment removes the entry (scipy's
    [lil_insert] deletes on zero), so no zero is ever stored and [nnz] is
    the number of stored entries.  Indices out of range (IndexError in
    scipy) do not occur in the program and are read as absent entries. *)
Record sparse := Sparse {
  nrows : Z;
  ncols : Z;
  entries : gmap (Z * Z) Z
}.

(** [lil_matrix((r, c))] *)
Definition lil_matrix (r c : Z) : sparse := Sparse r c ∅.

(** [A[p, q]] read *)
Definition sp_get (A : sparse) (p q : Z) : Z := default 0 (entries A !! (p, q)).

(** [A[p, q] = v] *)
Definition sp_set (A : sparse) (p q v : Z) : sparse :=
  Sparse (nrows A) (ncols A)
    (if v =? 0 then delete (p, q) (entries A) else <[(p, q) := v]> (entries A)).

(** [A[p, :] = 0] *)
Definition sp_zero_row (A : sparse) (p : Z) : sparse :=
  Sparse (nrows A) (ncols A) (filter (fun kv => kv.1.1 <> p) (entries A)).

(** [A[:, p] = 0] *)
Definition sp_zero_col (A : sparse) (p : Z) : sparse :=
  Sparse (nrows A) (ncols A) (filter (fun kv => kv.1.2 <> p) (entries A)).

(** [A.nnz] *)
Definition nnz (A : sparse) : nat := size (entries A).

(** [A[order, :]]: row [a] of the result is row [order[a]] of [A]. *)
Definition sp_take_rows (A : sparse) (order : list Z) : sparse :=
  let r := Z.of_nat (length order) in
  Sparse r (ncols A)
    (list_to_map
       (omap (fun ab : Z * Z =>
                o ← order !! Z.to_nat ab.1;
                v ← entries A !! (o, ab.2);
                Some (ab, v))
             (a ← seqZ 0 r; b ← seqZ 0 (ncols A); [(a, b)]))).

(** [A[:, order]]: column [b] of the result is column [order[b]] of [A]. *)
Definition sp_take_cols (A : sparse) (order : list Z) : sparse :=
  let c := Z.of_nat (length order) in
  Sparse (nrows A) c
    (list_to_map
       (omap (fun ab : Z * Z =>
                o ← order !! Z.to_nat ab.2;
                v ← entries A !! (ab.1, o);
                Some (ab, v))
             (a ← seqZ 0 (nrows A); b ← seqZ 0 c; [(a, b)]))).

(** ** numpy vectors *)

Section Vectors.
Context {F : Type} `{Num F}.

(** [np.zeros(m)] *)
Definition np_zeros (m : nat) : list F := replicate m (of_Z 0).

(** [v[p]] for a Python integer [p] (in range everywhere in the program) *)
Definition vget (v : list F) (p : Z) : F := nth (Z.to_nat p) v (of_Z 0).

(** [v[p] = x] *)
Definition vset (v : list F) (p : Z) (x : F) : list F := <[Z.to_nat p := x]> v.

(** [np.dot(u, v)] of two one-dimensional arrays of the same length; the
    products are accumulated from the left, starting from zero. *)
Definition dot (u v : list F) : F :=
  foldl (fun s ab => fadd s (fmul ab.1 ab.2)) (of_Z 0) (zip u v).

(** Row [i] and entry [(i, j)] of a dense two-dimensional array, and the
    assignment [M[i, j] = x]. *)
Definition mrow (M : list (list F)) (i : nat) : list F := nth i M [].
Definition mget (M : list (list F)) (i j : nat) : F := nth j (mrow M i) (of_Z 0).
Definition mset (M : list (list F)) (i j : nat) (x : F) : list (list F) :=
  alter (fun r => <[j := x]> r) i M.

(** [M.T]: row [j] of the result is column [j] of [M]. *)
Definition transpose (M : list (list F)) : list (list F) :=
  (fun j => (fun r => nth j r (of_Z 0)) <$> M) <$> seq 0 (length (mrow M 0)).

(** [np.count_nonzero(M)] *)
Definition count_nonzero (M : list (list F)) : nat :=
  sum_list ((fun r => length (filter (fun x => is_zero x = false) r)) <$> M).

(** [A.toarray()] *)
Definition toarray (A : sparse) : list (list F) :=
  (fun a => (fun b => of_Z (sp_get A a b)) <$> seqZ 0 (ncols A)) <$> seqZ 0 (nrows A).

End Vectors.

(** ** System assembler *)

Section Assembler.
Context {F : Type} `{Num F}.

(** The three values the assembly loops carry. *)
Record asm_state := AsmState {
  asm_A : sparse;
  asm_f : list F;
  asm_boundary : list Z
}.

(** The source term [f(x, y)] of the two-dimensional problem. *)
Definition f_2d (x y : F) : F :=
  fmul (fadd (fpow x 2) (fpow y 2)) (fsin (fmul x y)).

(** The source term [f(x, y, z)] of the three-dimensional problem. *)
Definition f_3d (x y z : F) : F :=
  fmul (fadd (fadd (fmul (fpow x 2) (fpow y 2)) (fmul (fpow z 2) (fpow y 2)))
             (fmul (fpow x 2) (fpow z 2)))
       (fsin (fmul (fmul x y) z)).

(** [spacing = 1.0 / (n_elements + 1)] *)
Definition grid_spacing (n_elements : Z) : F := fdiv (of_Z 1) (of_Z (n_elements + 1)).

(** Body of the two nested assembly loops, two dimensions. *)
Definition assemble_point_2d (n_elements : Z) (spacing : F)
    (st : asm_state) (i j : Z) : asm_state :=
  let p := i * n_elements + j in
  let x := fmul (of_Z (i + 1)) spacing in
  let y := fmul (of_Z (j + 1)) spacing in
  if (i =? 0) || (i =? n_elements - 1) || (j =? 0) || (j =? n_elements - 1) then
    let u_0 := fsin (fmul x y) in
    AsmState (sp_set (asm_A st) p p 1)
             (vset (asm_f st) p u_0)
             (asm_boundary st ++ [p])
  else
    let A1 := sp_set (asm_A st) p p 4 in
    let neighbors := get_neighbors_2d p n_elements in
    let A2 := foldl (fun A neighbor_p => sp_set A p neighbor_p (-1)) A1 neighbors in
    AsmState A2
             (vset (asm_f st) p (fmul (f_2d x y) (fpow spacing 2)))
             (asm_boundary st).

(** Body of the three nested assembly loops, three dimensions. *)
Definition assemble_point_3d (n_elements : Z) (spacing : F)
    (st : asm_state) (i j k : Z) : asm_state :=
  let p := i * n_elements * n_elements + j * n_elements + k in
  let x := fmul (of_Z (i + 1)) spacing in
  let y := fmul (of_Z (j + 1)) spacing in
  let z := fmul (of_Z (k + 1)) spacing in
  if (i =? 0) || (i =? n_elements - 1) ||
     (j =? 0) || (j =? n_elements - 1) ||
     (k =? 0) || (k =? n_elements - 1) then
    let u_0 := fsin (fmul (fmul x y) z) in
    AsmState (sp_set (asm_A st) p p 1)
             (vset (asm_f st) p u_0)
             (asm_boundary st ++ [p])
  else
    let A1 := sp_set (asm_A st) p p 6 in
    let neighbors := get_neighbors_3d p n_elements in
    let A2 := foldl (fun A neighbor_p => sp_set A p neighbor_p (-1)) A1 neighbors in
    AsmState A2
             (vset (asm_f st) p (fmul (f_3d x y z) (fpow spacing 2)))
             (asm_boundary st).

(** "Adjust RHS for interior nodes to account for boundary conditions":
    for every recorded boundary node [p] and every neighbour [q] of [p]
    with [A[q, p] != 0], [f_vector[q] -= A[q, p] * u_0]. *)
Definition eliminate_boundary (get_neighbors : Z -> list Z) (A : sparse)
    (f_vector : list F) (boundary_nodes : list Z) : list F :=
  foldl (fun fv p =>
           let u_0 := vget fv p in
           foldl (fun fv q =>
                    if sp_get A q p =? 0 then fv
                    else vset fv q (fsub (vget fv q) (fmul (of_Z (sp_get A q p)) u_0)))
                 fv (get_neighbors p))
        f_vector boundary_nodes.

(** "Zero out columns and rows for boundary nodes to maintain symmetry":
    [A[p, :] = 0; A[:, p] = 0; A[p, p] = 1] for every boundary node. *)
Definition zero_boundary (A : sparse) (boundary_nodes : list Z) : sparse :=
  foldl (fun A p => sp_set (sp_zero_col (sp_zero_row A p) p) p p 1) A boundary_nodes.

(** [Problem.build_matrix_and_rhs]: what is printed, and the returned pair
    (which is [(None, None)] for an unsupported dimension). *)
Definition build_matrix_and_rhs (n_elements dimension : Z)
    : list string * (option sparse * option (list F)) :=
  let spacing := grid_spacing n_elements in
  if dimension =? 2 then
    let num_points := n_elements * n_elements in
    let st0 := AsmState (lil_matrix num_points num_points)
                        (np_zeros (Z.to_nat num_points)) [] in
    let st1 :=
      foldl (fun st i =>
               foldl (fun st j => assemble_point_2d n_elements spacing st i j)
                     st (seqZ 0 n_elements))
            st0 (seqZ 0 n_elements) in
    let f_vector :=
      eliminate_boundary (fun p => get_neighbors_2d p n_elements)
                         (asm_A st1) (asm_f st1) (asm_boundary st1) in
    let A := zero_boundary (asm_A st1) (asm_boundary st1) in
    ([], (Some A, Some f_vector))
  else if dimension =? 3 then
    let num_points := n_elements * n_elements * n_elements in
    let st0 := AsmState (lil_matrix num_points num_points)
                        (np_zeros (Z.to_nat num_points)) [] in
    let st1 :=
      foldl (fun st i =>
               foldl (fun st j =>
                        foldl (fun st k => assemble_point_3d n_elements spacing st i j k)
                              st (seqZ 0 n_elements))
                     st (seqZ 0 n_elements))
            st0 (seqZ 0 n_elements) in
    let f_vector :=
      eliminate_boundary (fun p => get_neighbors_3d p n_elements)
                         (asm_A st1) (asm_f st1) (asm_boundary st1) in
    let A := zero_boundary (asm_A st1) (asm_boundary st1) in
    ([], (Some A, Some f_vector))
  else
    (["Invalid dimension"%string], (None, None)).

(** [Problem.exact_solution(n_elements)]; it reads [self.dimension] only. *)
Definition exact_solution (dimension n_elements : Z) : list string * option (list F) :=
  let spacing := grid_spacing n_elements in
  if dimension =? 2 then
    let u_exact := np_zeros (Z.to_nat (n_elements * n_elements)) in
    ([], Some
      (foldl (fun u i =>
                foldl (fun u j =>
                         let x := fmul (of_Z (i + 1)) spacing in
                         let y := fmul (of_Z (j + 1)) spacing in
                         let p := i * n_elements + j in
                         vset u p (fsin (fmul x y)))
                      u (seqZ 0 n_elements))
             u_exact (seqZ 0 n_elements)))
  else if dimension =? 3 then
    let u_exact := np_zeros (Z.to_nat (n_elements * n_elements * n_elements)) in
    ([], Some
      (foldl (fun u i =>
                foldl (fun u j =>
                         foldl (fun u k =>
                                  let x := fmul (of_Z (i + 1)) spacing in
                                  let y := fmul (of_Z (j + 1)) spacing in
                                  let z := fmul (of_Z (k + 1)) spacing in
                                  let p := i * n_elements * n_elements + j * n_elements + k in
                                  vset u p (fsin (fmul (fmul x y) z)))
                               u (seqZ 0 n_elements))
                      u (seqZ 0 n_elements))
             u_exact (seqZ 0 n_elements)))
  else
    (["Invalid dimension"%string], None).

End Assembler.

(** ** Factorisation, triangular solves, the problem object *)

(** The exceptions that can end the construction of a problem. *)
Inductive exn := TypeError | LinAlgError.

Section Solver.
Context {F : Type} `{Num F}.

(** Modelled from the spec: [np.linalg.cholesky] is numpy's, not the
    repository's.  Column by column, for each column [j],
    [L[j,j] = sqrt(A[j,j] - sum_{k<j} L[j,k]^2)] and, for [i > j],
    [L[i,j] = (A[i,j] - sum_{k<j} L[i,k] L[j,k]) / L[j,j]]; the
    factorisation fails ("matrix not positive definite") when a term under
    the square root is not positive.  [None] stands for that failure. *)
Definition cholesky_column (A : list (list F)) (m : nat)
    (L : list (list F)) (j : nat) : option (list (list F)) :=
  let s := fsub (mget A j j) (dot (take j (mrow L j)) (take j (mrow L j))) in
  if is_pos s then
    let d := fsqrt s in
    Some (foldl (fun L i =>
                   mset L i j
                     (fdiv (fsub (mget A i j)
                                 (dot (take j (mrow L i)) (take j (mrow L j)))) d))
                (mset L j j d) (seq (S j) (m - S j)))
  else None.

Definition np_linalg_cholesky (A : list (list F)) : option (list (list F)) :=
  let m := length A in
  foldl (fun Lo j => L ← Lo; cholesky_column A m L j)
        (Some (replicate m (np_zeros m))) (seq 0 m).

(** [Problem.cholesky(matrix)]: the factor of the dense copy of [matrix].
    The wall-clock duration returned beside it is not modelled. *)
Definition cholesky (matrix : sparse) : option (list (list F)) :=
  np_linalg_cholesky (toarray matrix).

(** [Problem.forward_substitution(L, b)] *)
Definition forward_substitution (L : list (list F)) (b : list F) : list F :=
  let n := length b in
  foldl (fun y i =>
           <[i := fdiv (fsub (nth i b (of_Z 0)) (dot (take i (mrow L i)) (take i y)))
                       (mget L i i)]> y)
        (np_zeros n) (seq 0 n).

(** [Problem.backward_substitution(L_T, y)]; [range(n - 1, -1, -1)] is
    [range(n)] reversed. *)
Definition backward_substitution (L_T : list (list F)) (y : list F) : list F :=
  let n := length y in
  foldl (fun x i =>
           <[i := fdiv (fsub (nth i y (of_Z 0))
                             (dot (drop (S i) (mrow L_T i)) (drop (S i) x)))
                       (mget L_T i i)]> x)
        (np_zeros n) (rev (seq 0 n)).

(** The fields of a [Problem] object (the two durations left out). *)
Record Problem := {
  n_elements : Z;
  dimension : Z;
  matrix : sparse;
  rhs : list F;
  reordered_matrix : sparse;
  cholesky_factor : list (list F);
  cholesky_factor_reorderd : list (list F)
}.

(** [Problem.solve_cholesky()]: the solution vector (the two durations
    returned beside it are not modelled). *)
Definition solve_cholesky (self : Problem) : list F :=
  let y := forward_substitution (cholesky_factor self) (rhs self) in
  backward_substitution (transpose (cholesky_factor self)) y.

(** [Problem.fill_in_ratio(reorder)].  Both counts are Python integers and
    [/] is true division: the quotient is kept as an exact rational ([None]
    is ZeroDivisionError).  The float Python returns is that rational
    rounded, so it compares with 1.0 as the rational compares with 1. *)
Definition fill_in_ratio (self : Problem) (reorder : bool) : option Q :=
  let '(nnz_A, nnz_C) :=
    if reorder then (nnz (reordered_matrix self), nnz (reordered_matrix self))
    else (nnz (matrix self), count_nonzero (cholesky_factor self)) in
  if (nnz_A =? 0)%nat then None
  else Some (Qmake (Z.of_nat nnz_C) (Pos.of_nat nnz_A)).

(** [scipy.sparse.csgraph.reverse_cuthill_mckee] is scipy's: the ordering
    it returns is taken as given. *)
Variable reverse_cuthill_mckee : sparse -> list Z.

(** [Problem.reorder()], reading [self.matrix]. *)
Definition reorder (matrix : sparse) : sparse :=
  let rcm_order := reverse_cuthill_mckee matrix in
  sp_take_cols (sp_take_rows matrix rcm_order) rcm_order.

(** [Problem.__init__(n_elements, dimension)]: what is printed, and either
    the exception that ends the construction or the constructed object.
    For an unsupported dimension [self.matrix] is [None] and the call of
    scipy's ordering routine on it raises a TypeError. *)
Definition Problem_init (n_elements dimension : Z) : list string * (exn + Problem) :=
  let '(out, (m, r)) := build_matrix_and_rhs n_elements dimension in
  match m, r with
  | Some A, Some b =>
      let A' := reorder A in
      match cholesky A with
      | None => (out, inl LinAlgError)
      | Some L =>
          match cholesky A' with
          | None => (out, inl LinAlgError)
          | Some L' =>
              (out, inr {| n_elements := n_elements; dimension := dimension;
                           matrix := A; rhs := b; reordered_matrix := A';
                           cholesky_factor := L; cholesky_factor_reorderd := L' |})
          end
      end
  | _, _ => (out, inl TypeError)
  end.

End Solver.

(** * Specification vocabulary *)

(** ** Grid coordinates *)

(** [q] is the linear index of an in-grid point at distance one from
    [(i, j)]: it differs from it by one step in exactly one coordinate. *)
Definition adjacent_2d (n i j q : Z) : Prop :=
  exists i' j', 0 <= i' < n /\ 0 <= j' < n /\ q = i' * n + j' /\
                Z.abs (i' - i) + Z.abs (j' - j) = 1.

Definition adjacent_3d (n i j k q : Z) : Prop :=
  exists i' j' k', 0 <= i' < n /\ 0 <= j' < n /\ 0 <= k' < n /\
                   q = i' * n * n + j' * n + k' /\
                   Z.abs (i' - i) + Z.abs (j' - j) + Z.abs (k' - k) = 1.

(** A coordinate at one of its two extreme values. *)
Definition extreme (n c : Z) : bool := (c =? 0) || (c =? n - 1).

(** Boundary by position, from the linear index. *)
Definition on_boundary_2d (n p : Z) : bool :=
  extreme n (p / n) || extreme n (p mod n).

Definition on_boundary_3d (n p : Z) : bool :=
  extreme n (p / (n * n)) || extreme n ((p mod (n * n)) / n) || extreme n (p mod n).

(** ** The assembled system, described entry by entry *)

Section AssemblySpec.
Context {F : Type} `{Num F}.

(** One pass of the body of the assembly loops at the point of linear
    index [p], with what distinguishes the two dimensions abstracted:
    the boundary test, the interior diagonal, the neighbour list and the
    right-hand side value. *)
Definition assemble_step (bnd : Z -> bool) (diag : Z) (nbrs : Z -> list Z)
    (val : Z -> F) (st : asm_state) (p : Z) : asm_state :=
  if bnd p then
    AsmState (sp_set (asm_A st) p p 1) (vset (asm_f st) p (val p))
             (asm_boundary st ++ [p])
  else
    AsmState (foldl (fun A q => sp_set A p q (-1)) (sp_set (asm_A st) p p diag) (nbrs p))
             (vset (asm_f st) p (val p)) (asm_boundary st).

(** Physical coordinate of the grid line of index [c]. *)
Definition coord (n c : Z) : F := fmul (of_Z (c + 1)) (grid_spacing n).

(** The manufactured solution at the point of linear index [p]. *)
Definition u0_2d (n p : Z) : F :=
  fsin (fmul (coord n (p / n)) (coord n (p mod n))).

Definition u0_3d (n p : Z) : F :=
  fsin (fmul (fmul (coord n (p / (n * n))) (coord n ((p mod (n * n)) / n)))
             (coord n (p mod n))).

(** The right-hand side entry the assembly loops store at [p]. *)
Definition assembled_rhs_2d (n p : Z) : F :=
  if on_boundary_2d n p then u0_2d n p
  else fmul (f_2d (coord n (p / n)) (coord n (p mod n))) (fpow (grid_spacing n) 2).

Definition assembled_rhs_3d (n p : Z) : F :=
  if on_boundary_3d n p then u0_3d n p
  else fmul (f_3d (coord n (p / (n * n))) (coord n ((p mod (n * n)) / n))
                  (coord n (p mod n)))
            (fpow (grid_spacing n) 2).

End AssemblySpec.

(** Row [a] of the matrix as the assembly loops leave it. *)
Definition row_lookup (bnd : Z -> bool) (diag : Z) (nbrs : Z -> list Z)
    (a b : Z) : option Z :=
  if bnd a then (if decide (b = a) then Some 1 else None)
  else if decide (b ∈ nbrs a) then Some (-1)
  else if decide (b = a) then Some diag else None.

(** Entry [(a, b)] of the finished matrix: the identity on boundary rows
    and columns, [diag] on the interior diagonal, [-1] between interior
    neighbours. *)
Definition system_entry (bnd : Z -> bool) (diag : Z) (nbrs : Z -> list Z)
    (a b : Z) : Z :=
  if decide (a = b) then (if bnd a then 1 else diag)
  else if negb (bnd a) && negb (bnd b) && bool_decide (b ∈ nbrs a) then -1
  else 0.

(** The stored entries of the finished [N x N] matrix. *)
Definition system_lookup (N : Z) (bnd : Z -> bool) (diag : Z) (nbrs : Z -> list Z)
    (k : Z * Z) : option Z :=
  if decide (0 <= k.1 < N /\ 0 <= k.2 < N /\ system_entry bnd diag nbrs k.1 k.2 <> 0)
  then Some (system_entry bnd diag nbrs k.1 k.2) else None.

(** ** Both dimensions at once *)

(** Number of unknowns, boundary test, neighbour list and interior
    diagonal of the [dimension]-dimensional grid (dimension 2 or 3). *)
Definition num_points (n dimension : Z) : Z :=
  if dimension =? 2 then n * n else n * n * n.

Definition grid_boundary (n dimension : Z) (p : Z) : bool :=
  if dimension =? 2 then on_boundary_2d n p else on_boundary_3d n p.

Definition grid_neighbors (n dimension : Z) (p : Z) : list Z :=
  if dimension =? 2 then get_neighbors_2d p n else get_neighbors_3d p n.

Definition grid_diagonal (dimension : Z) : Z :=
  if dimension =? 2 then 4 else 6.

(** Entry [(a, b)] of the assembled matrix of the grid. *)
Definition grid_entry (n dimension : Z) (a b : Z) : Z :=
  system_entry (grid_boundary n dimension) (grid_diagonal dimension)
               (grid_neighbors n dimension) a b.

Definition u0_grid {F : Type} `{Num F} (n dimension : Z) (p : Z) : F :=
  if dimension =? 2 then u0_2d n p else u0_3d n p.

Definition assembled_rhs_grid {F : Type} `{Num F} (n dimension : Z) (p : Z) : F :=
  if dimension =? 2 then assembled_rhs_2d n p else assembled_rhs_3d n p.

(** ** Exact arithmetic *)

(** The real numbers as number type: the program run in exact arithmetic. *)
#[global] Instance R_Num : Num R := {|
  of_Z := IZR;
  fadd := Rplus;
  fsub := Rminus;
  fmul := Rmult;
  fdiv := Rdiv;
  fpow := powerRZ;
  fsin := Rtrigo_def.sin;
  fsqrt := R_sqrt.sqrt;
  is_zero := fun x => if Req_dec_T x 0%R then true else false;
  is_pos := fun x => if Rlt_dec 0%R x then true else false
|}.

(** Sum of [f] over the elements of a list. *)
Definition Rsum {A : Type} (f : A -> R) (l : list A) : R :=
  foldr (fun a s => (f a + s)%R) 0%R l.

(** ** Matrices as real bilinear forms *)

(** The quadratic form [x^T M x] over the index list [idx]. *)
Definition quad_form {I : Type} (idx : list I) (M : I -> I -> R) (x : I -> R) : R :=
  Rsum (fun i => Rsum (fun j => (M i j * x i * x j)%R) idx) idx.

(** [M] is positive definite over [idx]: [x^T M x > 0] unless [x] vanishes
    on all of [idx]. *)
Definition pos_def {I : Type} (idx : list I) (M : I -> I -> R) : Prop :=
  forall x : I -> R, (exists i, i ∈ idx /\ x i <> 0%R) -> (0 < quad_form idx M x)%R.

Definition symmetric_on {I : Type} (idx : list I) (M : I -> I -> R) : Prop :=
  forall i j, i ∈ idx -> j ∈ idx -> M i j = M j i.

(** [(lam, x)] is a real eigenpair of [M] over [idx]. *)
Definition eigenpair {I : Type} (idx : list I) (M : I -> I -> R) (lam : R) (x : I -> R) : Prop :=
  (exists i, i ∈ idx /\ x i <> 0%R) /\
  forall i, i ∈ idx -> Rsum (fun j => (M i j * x j)%R) idx = (lam * x i)%R.

(** The entries of a sparse matrix as real numbers. *)
Definition sp_real (A : sparse) (p q : Z) : R := IZR (sp_get A p q).

(** ** Dense real matrices *)

(** An [n x n] two-dimensional array. *)
Definition well_shaped (n : nat) (M : list (list R)) : Prop :=
  length M = n /\ forall i, (i < n)%nat -> length (mrow M i) = n.

Definition lower_triangular (n : nat) (M : list (list R)) : Prop :=
  forall i j, (i < j)%nat -> (j < n)%nat -> mget M i j = 0%R.

(** Entry [i] of the product of the matrix [M] (given by its entries)
    with the vector [x]. *)
Definition mat_vec (n : nat) (M : nat -> nat -> R) (x : list R) (i : nat) : R :=
  Rsum (fun k => (M i k * nth k x 0)%R) (seq 0 n).

(** Entry [(i, j)] of [L L^T]. *)
Definition L_Lt (n : nat) (L : list (list R)) (i j : nat) : R :=
  Rsum (fun k => (mget L i k * mget L j k)%R) (seq 0 n).

(** The entries of a sparse matrix at array positions, as real numbers. *)
Definition sp_dense (A : sparse) (i j : nat) : R :=
  IZR (sp_get A (Z.of_nat i) (Z.of_nat j)).

(** Equality of real numbers is decided classically. *)
#[global] Instance R_eq_dec : EqDecision R := Req_dec_T.

(** ** The Cholesky factor *)

(** The defining equations of the factor, for its first [m] columns; the
    entries of the other columns and those above the diagonal are zero. *)
Definition cholesky_columns (n : nat) (A : list (list R)) (m : nat)
    (L : list (list R)) : Prop :=
  well_shaped n L /\
  (forall i j, (i < n)%nat -> (j < n)%nat -> (m <= j)%nat \/ (i < j)%nat ->
               mget L i j = 0%R) /\
  (forall j, (j < m)%nat ->
     (0 < mget L j j)%R /\
     (mget L j j * mget L j j =
      mget A j j - Rsum (fun k => mget L j k * mget L j k) (seq 0 j))%R) /\
  (forall i j, (j < m)%nat -> (j < i)%nat -> (i < n)%nat ->
     (mget L i j * mget L j j =
      mget A i j - Rsum (fun k => mget L i k * mget L j k) (seq 0 j))%R).

(** [L] is the Cholesky factor of the [n x n] array [A]. *)
Definition cholesky_factor_of (n : nat) (A L : list (list R)) : Prop :=
  cholesky_columns n A n L.

(** ** The ordering routine and the reordered matrix *)

(** What scipy documents of [reverse_cuthill_mckee]: on a square matrix it
    returns a permutation of the row indices. *)
Definition rcm_valid (rcm : sparse -> list Z) : Prop :=
  forall A, rcm A ≡ₚ seqZ 0 (nrows A).

(** The relabelling [a |-> order[a]]. *)
Definition order_map (order : list Z) (a : Z) : Z := default 0 (order !! Z.to_nat a).

(** No entry off the diagonal. *)
Definition fully_diagonal (N : Z) (A : sparse) : Prop :=
  forall p q, 0 <= p < N -> 0 <= q < N -> p <> q -> sp_get A p q = 0.

(** A concrete valid ordering: the natural order reversed. *)
Definition reversed_order (A : sparse) : list Z := reverse (seqZ 0 (nrows A)).

(** ** Where a factor can have non-zeros *)

(** The positions a factor may fill when only the indices marked by
    [inner] are coupled: the diagonal, and below it the pairs of marked
    indices. *)
Definition allowed_by (inner : nat -> bool) (i j : nat) : bool :=
  (i =? j)%nat || (inner i && inner j && (j <? i)%nat).

(** Number of interior points of the grid. *)
Definition interior_count (n dimension : Z) : nat :=
  length (filter (fun p => grid_boundary n dimension p = false)
                 (seqZ 0 (num_points n dimension))).

(** ** Counting the couplings *)

(** The interior neighbours of an interior point, counted; zero at a
    boundary point. *)
Definition interior_degree (n D p : Z) : R :=
  if grid_boundary n D p then 0%R
  else Rsum (fun r => if grid_boundary n D r then 0%R else 1%R) (grid_neighbors n D p).

(** ** The first statement of the assembler and of the oracle *)

(** What the evaluation of [1.0 / (n_elements + 1)] can raise. *)
Inductive spacing_error := ZeroDivisionError | OverflowError.

(** The least absolute value of a Python integer that no float holds: the
    conversion rounds to 53 bits, and from [2^1024 - 2^970] on the rounded
    value is [2^1024]. *)
Definition float_overflow_bound : Z := 2 ^ 1024 - 2 ^ 970.

(** [spacing = 1.0 / (n_elements + 1)] is the first statement of
    [build_matrix_and_rhs] (line 21) and of [exact_solution] (line 160);
    it runs before the dimension is looked at.  The integer
    [n_elements + 1] is converted to a float, which raises OverflowError
    when it is out of range, and the division raises ZeroDivisionError
    when it is zero. *)
Definition spacing_raises (n_elements : Z) : option spacing_error :=
  if n_elements + 1 =? 0 then Some ZeroDivisionError
  else if float_overflow_bound <=? Z.abs (n_elements + 1) then Some OverflowError
  else None.


(** A call [self.exact_solution(n_elements)] on an object whose
    [dimension] field is given: the exception of its first statement, or
    what the rest of the body prints and returns. *)
Definition exact_solution_call {F : Type} `{Num F} (dimension n_elements : Z) :
    spacing_error + (list string * option (list F)) :=
  match spacing_raises n_elements with
  | Some e => inl e
  | None => inr (exact_solution (F := F) dimension n_elements)
  end.

(** ** Couplings in a factor *)

(** Entry [(q, c)] of the array [L], at linear grid indices, is negative:
    the elimination couples row [q] to column [c]. *)
Definition coupled (L : list (list R)) (q c : Z) : Prop :=
  (mget L (Z.to_nat q) (Z.to_nat c) < 0)%R.

(** ** Where the factor of a band matrix can have non-zeros *)

(** The positions the factor of a matrix of half band width [w] may fill
    when only the indices marked by [inner] are coupled. *)
Definition band_allowed (inner : nat -> bool) (w : nat) (i j : nat) : bool :=
  allowed_by inner i j && (i - j <=? w)%nat.

(** Half band width of the assembled matrix: a row of the grid in two
    dimensions, a plane in three. *)
Definition grid_band_width (n dimension : Z) : Z :=
  if dimension =? 2 then n else n * n.

(** The number of positions of the band between interior points of the
    grid, with the diagonal. *)
Definition grid_band_count (n dimension : Z) : nat :=
  let N := Z.to_nat (num_points n dimension) in
  let inner := fun i => negb (grid_boundary n dimension (Z.of_nat i)) in
  let w := Z.to_nat (grid_band_width n dimension) in
  sum_list ((fun i => length (filter (fun j => band_allowed inner w i j = true) (seq 0 N)))
            <$> seq 0 N).

(** * Grid indexer: the neighbour lists *)

Lemma coords_2d n i j :
  0 <= i -> 0 <= j < n -> (i * n + j) / n = i /\ (i * n + j) mod n = j.
Proof.
  intros Hi Hj. split.
  - symmetry. apply (Z.div_unique_pos _ _ _ j); lia.
  - symmetry. apply (Z.mod_unique_pos _ _ i); lia.
Qed.

Lemma coords_3d n i j k :
  0 <= i -> 0 <= j < n -> 0 <= k < n ->
  (i * n * n + j * n + k) / (n * n) = i /\
  ((i * n * n + j * n + k) mod (n * n)) / n = j /\
  (i * n * n + j * n + k) mod n = k.
Proof.
  intros Hi Hj Hk.
  assert (Hm : (i * n * n + j * n + k) mod (n * n) = j * n + k).
  { symmetry. apply (Z.mod_unique_pos _ _ i); nia. }
  split; [|split].
  - symmetry. apply (Z.div_unique_pos _ _ _ (j * n + k)); nia.
  - rewrite Hm. apply coords_2d; lia.
  - symmetry. apply (Z.mod_unique_pos _ _ (i * n + j)); nia.
Qed.

Lemma coords_2d_inj n i j i' j' :
  0 <= i -> 0 <= j < n -> 0 <= i' -> 0 <= j' < n ->
  i * n + j = i' * n + j' -> i = i' /\ j = j'.
Proof.
  intros Hi Hj Hi' Hj' Heq.
  destruct (coords_2d n i j Hi Hj) as [H1 H2].
  destruct (coords_2d n i' j' Hi' Hj') as [H3 H4].
  rewrite Heq in H1, H2. lia.
Qed.

Lemma coords_3d_inj n i j k i' j' k' :
  0 <= i -> 0 <= j < n -> 0 <= k < n -> 0 <= i' -> 0 <= j' < n -> 0 <= k' < n ->
  i * n * n + j * n + k = i' * n * n + j' * n + k' -> i = i' /\ j = j' /\ k = k'.
Proof.
  intros Hi Hj Hk Hi' Hj' Hk' Heq.
  destruct (coords_3d n i j k Hi Hj Hk) as (H1 & H2 & H3).
  destruct (coords_3d n i' j' k' Hi' Hj' Hk') as (H4 & H5 & H6).
  rewrite Heq in H1, H2, H3. lia.
Qed.

(** Every linear index of the grid has coordinates. *)
Lemma index_has_coords_2d n p :
  1 <= n -> 0 <= p < n * n ->
  exists i j, 0 <= i < n /\ 0 <= j < n /\ p = i * n + j.
Proof.
  intros Hn Hp. exists (p / n), (p mod n).
  pose proof (Z.mod_pos_bound p n ltac:(lia)).
  pose proof (Z.div_mod p n ltac:(lia)).
  assert (0 <= p / n) by (apply Z.div_pos; lia).
  assert (p / n < n) by (apply Z.div_lt_upper_bound; lia).
  lia.
Qed.

Lemma index_has_coords_3d n p :
  1 <= n -> 0 <= p < n * n * n ->
  exists i j k, 0 <= i < n /\ 0 <= j < n /\ 0 <= k < n /\ p = i * n * n + j * n + k.
Proof.
  intros Hn Hp.
  destruct (index_has_coords_2d n (p mod (n * n)) Hn) as (j & k & Hj & Hk & Hjk).
  { apply Z.mod_pos_bound. nia. }
  exists (p / (n * n)), j, k.
  pose proof (Z.div_mod p (n * n) ltac:(nia)).
  assert (0 <= p / (n * n)) by (apply Z.div_pos; nia).
  assert (p / (n * n) < n) by (apply Z.div_lt_upper_bound; nia).
  repeat split; try lia.
Qed.

Lemma elem_of_if_singleton {A} (c : bool) (x q : A) :
  q ∈ (if c then [x] else []) <-> c = true /\ q = x.
Proof.
  destruct c; rewrite ?list_elem_of_singleton, ?elem_of_nil; intuition congruence.
Qed.

Lemma length_if_singleton {A} (c : bool) (x : A) (l : list A) :
  Z.of_nat (length ((if c then [x] else []) ++ l)) = Z.b2z c + Z.of_nat (length l).
Proof. destruct c; simpl; lia. Qed.

Lemma sublist_if_singleton {A} (c : bool) (x : A) (l k : list A) :
  l `sublist_of` k -> ((if c then [x] else []) ++ l) `sublist_of` (x :: k).
Proof.
  intros Hs. destruct c; simpl.
  - by apply sublist_skip.
  - by apply sublist_cons.
Qed.

Lemma length_if_last {A} (c : bool) (x : A) :
  Z.of_nat (length (if c then [x] else [])) = Z.b2z c.
Proof. by destruct c. Qed.

Lemma sublist_if_last {A} (c : bool) (x : A) :
  (if c then [x] else []) `sublist_of` [x].
Proof. destruct c; [done | by apply sublist_cons]. Qed.

Lemma b2z_range (c : bool) : 0 <= Z.b2z c <= 1.
Proof. destruct c; simpl; lia. Qed.

Lemma elem_of_get_neighbors_2d n i j q :
  0 <= i -> 0 <= j < n ->
  q ∈ get_neighbors_2d (i * n + j) n <->
  (0 < j /\ q = i * n + j - 1) \/ (j < n - 1 /\ q = i * n + j + 1) \/
  (0 < i /\ q = i * n + j - n) \/ (i < n - 1 /\ q = i * n + j + n).
Proof.
  intros Hi Hj. unfold get_neighbors_2d.
  destruct (coords_2d n i j Hi Hj) as [-> ->].
  rewrite !elem_of_app, !elem_of_if_singleton, !Z.ltb_lt. reflexivity.
Qed.

Lemma NoDup_get_neighbors_2d n i j :
  0 <= i -> 0 <= j < n -> NoDup (get_neighbors_2d (i * n + j) n).
Proof.
  intros Hi Hj. unfold get_neighbors_2d.
  destruct (coords_2d n i j Hi Hj) as [-> ->].
  set (p := i * n + j).
  destruct (decide (n = 1)) as [Hn1 | Hn1].
  - assert ((0 <? j) = false) as -> by lia.
    assert ((j <? n - 1) = false) as -> by lia.
    simpl. destruct (0 <? i); destruct (i <? n - 1); simpl;
      repeat (apply NoDup_cons; split; [set_unfold; lia|]); apply NoDup_nil_2.
  - apply (sublist_NoDup _ [p - 1; p + 1; p - n; p + n]).
    + repeat (apply NoDup_cons; split; [set_unfold; lia|]). apply NoDup_nil_2.
    + repeat apply sublist_if_singleton. apply sublist_if_last.
Qed.

Lemma length_get_neighbors_2d n i j :
  0 <= i -> 0 <= j < n ->
  Z.of_nat (length (get_neighbors_2d (i * n + j) n)) =
  Z.b2z (0 <? j) + Z.b2z (j <? n - 1) + Z.b2z (0 <? i) + Z.b2z (i <? n - 1).
Proof.
  intros Hi Hj. unfold get_neighbors_2d.
  destruct (coords_2d n i j Hi Hj) as [-> ->].
  rewrite !length_if_singleton, length_if_last. lia.
Qed.

Lemma elem_of_get_neighbors_3d n i j k q :
  0 <= i -> 0 <= j < n -> 0 <= k < n ->
  let p := i * n * n + j * n + k in
  q ∈ get_neighbors_3d p n <->
  (0 < k /\ q = p - 1) \/ (k < n - 1 /\ q = p + 1) \/
  (0 < j /\ q = p - n) \/ (j < n - 1 /\ q = p + n) \/
  (0 < i /\ q = p - n * n) \/ (i < n - 1 /\ q = p + n * n).
Proof.
  intros Hi Hj Hk p. unfold get_neighbors_3d, p.
  destruct (coords_3d n i j k Hi Hj Hk) as (-> & -> & ->).
  rewrite !elem_of_app, !elem_of_if_singleton, !Z.ltb_lt. reflexivity.
Qed.

Lemma NoDup_get_neighbors_3d n i j k :
  0 <= i -> 0 <= j < n -> 0 <= k < n ->
  NoDup (get_neighbors_3d (i * n * n + j * n + k) n).
Proof.
  intros Hi Hj Hk. unfold get_neighbors_3d.
  destruct (coords_3d n i j k Hi Hj Hk) as (-> & -> & ->).
  set (p := i * n * n + j * n + k).
  destruct (decide (n = 1)) as [Hn1 | Hn1].
  - assert ((0 <? k) = false) as -> by lia.
    assert ((k <? n - 1) = false) as -> by lia.
    assert ((0 <? j) = false) as -> by lia.
    assert ((j <? n - 1) = false) as -> by lia.
    simpl. destruct (0 <? i); destruct (i <? n - 1); simpl;
      repeat (apply NoDup_cons; split; [set_unfold; nia|]); apply NoDup_nil_2.
  - apply (sublist_NoDup _ [p - 1; p + 1; p - n; p + n; p - n * n; p + n * n]).
    + repeat (apply NoDup_cons; split; [set_unfold; nia|]). apply NoDup_nil_2.
    + repeat apply sublist_if_singleton. apply sublist_if_last.
Qed.

Lemma length_get_neighbors_3d n i j k :
  0 <= i -> 0 <= j < n -> 0 <= k < n ->
  Z.of_nat (length (get_neighbors_3d (i * n * n + j * n + k) n)) =
  Z.b2z (0 <? k) + Z.b2z (k <? n - 1) + Z.b2z (0 <? j) + Z.b2z (j <? n - 1) +
  Z.b2z (0 <? i) + Z.b2z (i <? n - 1).
Proof.
  intros Hi Hj Hk. unfold get_neighbors_3d.
  destruct (coords_3d n i j k Hi Hj Hk) as (-> & -> & ->).
  rewrite !length_if_singleton, length_if_last. lia.
Qed.

(** The arithmetic description of a neighbour agrees with adjacency. *)
Lemma adjacent_2d_iff n i j q :
  0 <= i < n -> 0 <= j < n ->
  adjacent_2d n i j q <->
  (0 < j /\ q = i * n + j - 1) \/ (j < n - 1 /\ q = i * n + j + 1) \/
  (0 < i /\ q = i * n + j - n) \/ (i < n - 1 /\ q = i * n + j + n).
Proof.
  intros Hi Hj. split.
  - intros (i' & j' & Hi' & Hj' & -> & Habs).
    assert (i' = i /\ (j' = j - 1 \/ j' = j + 1) \/
            j' = j /\ (i' = i - 1 \/ i' = i + 1)) as Hc by lia.
    destruct Hc as [[-> [-> | ->]] | [-> [-> | ->]]]; lia.
  - intros [[? ->] | [[? ->] | [[? ->] | [? ->]]]].
    + exists i, (j - 1). lia.
    + exists i, (j + 1). lia.
    + exists (i - 1), j. lia.
    + exists (i + 1), j. lia.
Qed.

Lemma adjacent_3d_iff n i j k q :
  0 <= i < n -> 0 <= j < n -> 0 <= k < n ->
  let p := i * n * n + j * n + k in
  adjacent_3d n i j k q <->
  (0 < k /\ q = p - 1) \/ (k < n - 1 /\ q = p + 1) \/
  (0 < j /\ q = p - n) \/ (j < n - 1 /\ q = p + n) \/
  (0 < i /\ q = p - n * n) \/ (i < n - 1 /\ q = p + n * n).
Proof.
  intros Hi Hj Hk p. unfold p. split.
  - intros (i' & j' & k' & Hi' & Hj' & Hk' & -> & Habs).
    assert (i' = i /\ j' = j /\ (k' = k - 1 \/ k' = k + 1) \/
            i' = i /\ k' = k /\ (j' = j - 1 \/ j' = j + 1) \/
            j' = j /\ k' = k /\ (i' = i - 1 \/ i' = i + 1)) as Hc by lia.
    destruct Hc as [(-> & -> & [-> | ->]) | [(-> & -> & [-> | ->]) | (-> & -> & [-> | ->])]];
      lia.
  - intros [[? ->] | [[? ->] | [[? ->] | [[? ->] | [[? ->] | [? ->]]]]]].
    + exists i, j, (k - 1). lia.
    + exists i, j, (k + 1). lia.
    + exists i, (j - 1), k. lia.
    + exists i, (j + 1), k. lia.
    + exists (i - 1), j, k. lia.
    + exists (i + 1), j, k. lia.
Qed.

(** C5.  For [n >= 1], the list returned for the point [(i, j)] (resp.
    [(i, j, k)]) of the grid, of linear index [p], has no repetition and
    holds exactly the linear indices of the in-grid points that differ from
    it by one step in exactly one coordinate; every linear index of the
    grid is the index of such a point; and a point with a coordinate at 0
    or [n - 1] gets fewer than 4 (resp. 6) neighbours. *)
Theorem get_neighbors_exact (n : Z) (Hn : 1 <= n) :
  (forall p, 0 <= p < n * n ->
     exists i j, 0 <= i < n /\ 0 <= j < n /\ p = i * n + j) /\
  (forall i j p, 0 <= i < n -> 0 <= j < n -> p = i * n + j ->
     NoDup (get_neighbors_2d p n) /\
     (forall q, q ∈ get_neighbors_2d p n <-> adjacent_2d n i j q) /\
     (i = 0 \/ i = n - 1 \/ j = 0 \/ j = n - 1 ->
      (length (get_neighbors_2d p n) < 4)%nat)) /\
  (forall p, 0 <= p < n * n * n ->
     exists i j k, 0 <= i < n /\ 0 <= j < n /\ 0 <= k < n /\
                   p = i * n * n + j * n + k) /\
  (forall i j k p, 0 <= i < n -> 0 <= j < n -> 0 <= k < n ->
     p = i * n * n + j * n + k ->
     NoDup (get_neighbors_3d p n) /\
     (forall q, q ∈ get_neighbors_3d p n <-> adjacent_3d n i j k q) /\
     (i = 0 \/ i = n - 1 \/ j = 0 \/ j = n - 1 \/ k = 0 \/ k = n - 1 ->
      (length (get_neighbors_3d p n) < 6)%nat)).
Proof.
  split; [|split; [|split]].
  - intros p Hp. by apply index_has_coords_2d.
  - intros i j p Hi Hj ->. split; [|split].
    + apply NoDup_get_neighbors_2d; lia.
    + intros q. rewrite elem_of_get_neighbors_2d, adjacent_2d_iff by lia. reflexivity.
    + intros Hb. pose proof (length_get_neighbors_2d n i j ltac:(lia) ltac:(lia)) as Hl.
      pose proof (b2z_range (0 <? j)). pose proof (b2z_range (j <? n - 1)).
      pose proof (b2z_range (0 <? i)). pose proof (b2z_range (i <? n - 1)).
      assert ((0 <? j) = false \/ (j <? n - 1) = false \/
              (0 <? i) = false \/ (i <? n - 1) = false) as Hz by lia.
      destruct Hz as [Hz | [Hz | [Hz | Hz]]]; rewrite Hz in Hl; simpl in Hl; lia.
  - intros p Hp. by apply index_has_coords_3d.
  - intros i j k p Hi Hj Hk ->. split; [|split].
    + apply NoDup_get_neighbors_3d; lia.
    + intros q. rewrite elem_of_get_neighbors_3d by lia.
      rewrite (adjacent_3d_iff n i j k q) by lia. reflexivity.
    + intros Hb.
      pose proof (length_get_neighbors_3d n i j k ltac:(lia) ltac:(lia) ltac:(lia)) as Hl.
      pose proof (b2z_range (0 <? k)). pose proof (b2z_range (k <? n - 1)).
      pose proof (b2z_range (0 <? j)). pose proof (b2z_range (j <? n - 1)).
      pose proof (b2z_range (0 <? i)). pose proof (b2z_range (i <? n - 1)).
      assert ((0 <? k) = false \/ (k <? n - 1) = false \/
              (0 <? j) = false \/ (j <? n - 1) = false \/
              (0 <? i) = false \/ (i <? n - 1) = false) as Hz by lia.
      destruct Hz as [Hz | [Hz | [Hz | [Hz | [Hz | Hz]]]]];
        rewrite Hz in Hl; simpl in Hl; lia.
Qed.

(** The statement at the centre of the 3 x 3 grid and at a face point of
    the 3 x 3 x 3 grid. *)
Lemma get_neighbors_exact_witness :
  get_neighbors_2d 4 3 = [3; 5; 1; 7] /\
  (forall q, q ∈ get_neighbors_2d 4 3 <-> adjacent_2d 3 1 1 q) /\
  (length (get_neighbors_3d 4 3) < 6)%nat.
Proof.
  split; [reflexivity|].
  pose proof (get_neighbors_exact 3 ltac:(lia)) as (_ & H2 & _ & H3).
  split.
  - apply (H2 1 1 4); lia.
  - apply (H3 0 1 1 4); lia.
Defined.

(** * Sparse matrix operations *)

#[global] Arguments sp_set : simpl never.
#[global] Arguments sp_zero_row : simpl never.
#[global] Arguments sp_zero_col : simpl never.
#[global] Arguments vset : simpl never.
#[global] Arguments vget : simpl never.

(** Case analysis on the decisions of the goal only. *)
Ltac goal_decide :=
  repeat match goal with |- context [decide ?P] => destruct (decide P) end.

Ltac absurd_case :=
  exfalso; rewrite ?elem_of_cons in *; subst;
  intuition (subst; try congruence; try lia).

Lemma entries_sp_set A p q v a b :
  entries (sp_set A p q v) !! (a, b) =
  if decide (a = p /\ b = q) then (if v =? 0 then None else Some v)
  else entries A !! (a, b).
Proof.
  unfold sp_set; simpl. case_decide as Hk.
  - destruct Hk as [-> ->]. destruct (v =? 0).
    + apply lookup_delete_eq.
    + apply lookup_insert_eq.
  - assert ((p, q) <> (a, b)) by (intros [= -> ->]; tauto).
    destruct (v =? 0).
    + by apply lookup_delete_ne.
    + by apply lookup_insert_ne.
Qed.

Lemma entries_sp_zero_row A p a b :
  entries (sp_zero_row A p) !! (a, b) =
  if decide (a = p) then None else entries A !! (a, b).
Proof.
  unfold sp_zero_row; simpl. rewrite map_lookup_filter.
  destruct (entries A !! (a, b)) as [v|]; simpl.
  - case_guard; simpl in *; case_decide; simpl; congruence.
  - by case_decide.
Qed.

Lemma entries_sp_zero_col A p a b :
  entries (sp_zero_col A p) !! (a, b) =
  if decide (b = p) then None else entries A !! (a, b).
Proof.
  unfold sp_zero_col; simpl. rewrite map_lookup_filter.
  destruct (entries A !! (a, b)) as [v|]; simpl.
  - case_guard; simpl in *; case_decide; simpl; congruence.
  - by case_decide.
Qed.

Lemma entries_foldl_sp_set A p v (l : list Z) a b :
  v <> 0 ->
  entries (foldl (fun A q => sp_set A p q v) A l) !! (a, b) =
  if decide (a = p /\ b ∈ l) then Some v else entries A !! (a, b).
Proof.
  intros Hv. revert A. induction l as [|q l IH]; intros A; cbn [foldl].
  - case_decide as Hd; [|done]. destruct Hd as [_ Hd]. by apply elem_of_nil in Hd.
  - rewrite IH, entries_sp_set.
    assert ((v =? 0) = false) as -> by lia.
    goal_decide; try done; absurd_case.
Qed.

Lemma shape_foldl_sp_set A p v (l : list Z) :
  nrows (foldl (fun A q => sp_set A p q v) A l) = nrows A /\
  ncols (foldl (fun A q => sp_set A p q v) A l) = ncols A.
Proof. revert A. induction l as [|q l IH]; intros A; simpl; [done|]. by rewrite !(proj1 (IH _)), !(proj2 (IH _)). Qed.

(** * Vectors *)

Section VectorFacts.
Context {F : Type} `{Num F}.

Lemma length_vset (v : list F) p x : length (vset v p x) = length v.
Proof. apply length_insert. Qed.

Lemma vget_vset_eq (v : list F) p x :
  0 <= p -> (Z.to_nat p < length v)%nat -> vget (vset v p x) p = x.
Proof.
  intros Hp Hl. unfold vget, vset. rewrite nth_lookup, list_lookup_insert_eq; done.
Qed.

Lemma vget_vset_ne (v : list F) p q x :
  0 <= p -> 0 <= q -> p <> q -> vget (vset v p x) q = vget v q.
Proof.
  intros Hp Hq Hne. unfold vget, vset.
  rewrite !nth_lookup, list_lookup_insert_ne; [done | lia].
Qed.

Lemma length_np_zeros m : length (np_zeros m : list F) = m.
Proof. apply length_replicate. Qed.

End VectorFacts.

(** * The assembly loops *)

(** Nested loops over [range(n)] visit the linear indices in order. *)
Lemma foldl_ext_in {A B} (f g : A -> B -> A) (l : list B) (a : A) :
  (forall x b, b ∈ l -> f x b = g x b) -> foldl f a l = foldl g a l.
Proof.
  revert a. induction l as [|b l IH]; intros a Hfg; simpl; [done|].
  rewrite Hfg by set_solver. apply IH. intros; apply Hfg; set_solver.
Qed.

Lemma foldl_rows {A} (g : A -> Z -> A) (n : Z) (m : nat) (a : A) :
  0 <= n ->
  foldl (fun st i => foldl g st (seqZ (i * n) n)) a (seqZ 0 (Z.of_nat m)) =
  foldl g a (seqZ 0 (Z.of_nat m * n)).
Proof.
  intros Hn. induction m as [|m IH].
  - reflexivity.
  - rewrite seqZ_S, foldl_snoc, IH.
    replace (Z.of_nat (S m) * n) with (Z.of_nat m * n + n) by lia.
    rewrite seqZ_app by lia. rewrite foldl_app. f_equal.
Qed.

Lemma foldl_loops_2d {A} (body : A -> Z -> Z -> A) (g : A -> Z -> A) (n : Z) (a : A) :
  0 <= n ->
  (forall st i j, 0 <= i < n -> 0 <= j < n -> body st i j = g st (i * n + j)) ->
  foldl (fun st i => foldl (fun st j => body st i j) st (seqZ 0 n)) a (seqZ 0 n) =
  foldl g a (seqZ 0 (n * n)).
Proof.
  intros Hn Hbody.
  pose proof (foldl_rows g n (Z.to_nat n) a Hn) as Hr.
  rewrite Z2Nat.id in Hr by lia. rewrite <- Hr.
  apply foldl_ext_in. intros st i Hi. apply elem_of_seqZ in Hi.
  replace (seqZ (i * n) n) with (Z.add (i * n) <$> seqZ 0 n)
    by (rewrite fmap_add_seqZ; f_equal; lia).
  rewrite foldl_fmap. apply foldl_ext_in. intros st' j Hj. apply elem_of_seqZ in Hj.
  apply Hbody; lia.
Qed.

Lemma foldl_loops_3d {A} (body : A -> Z -> Z -> Z -> A) (g : A -> Z -> A) (n : Z) (a : A) :
  0 <= n ->
  (forall st i j k, 0 <= i < n -> 0 <= j < n -> 0 <= k < n ->
                    body st i j k = g st (i * n * n + j * n + k)) ->
  foldl (fun st i =>
           foldl (fun st j => foldl (fun st k => body st i j k) st (seqZ 0 n))
                 st (seqZ 0 n)) a (seqZ 0 n) =
  foldl g a (seqZ 0 (n * n * n)).
Proof.
  intros Hn Hbody.
  transitivity (foldl (fun st i => foldl g st (seqZ (i * (n * n)) (n * n))) a (seqZ 0 n)).
  - apply foldl_ext_in. intros st i Hi. apply elem_of_seqZ in Hi.
    rewrite (foldl_loops_2d (fun st j k => body st i j k)
               (fun st q => g st (i * (n * n) + q)) n st Hn).
    + replace (seqZ (i * (n * n)) (n * n)) with (Z.add (i * (n * n)) <$> seqZ 0 (n * n))
        by (rewrite fmap_add_seqZ; f_equal; lia).
      by rewrite foldl_fmap.
    + intros st' j k Hj Hk. rewrite Hbody by lia. f_equal. lia.
  - pose proof (foldl_rows g (n * n) (Z.to_nat n) a ltac:(nia)) as Hr.
    rewrite Z2Nat.id in Hr by lia. rewrite Hr. f_equal. f_equal. lia.
Qed.

Section GenericAssembly.
Context {F : Type} `{Num F}.
Variables (N : Z) (bnd : Z -> bool) (diag : Z) (nbrs : Z -> list Z) (val : Z -> F).
Hypothesis diag_nonzero : diag <> 0.
Hypothesis nbrs_irrefl : forall p, 0 <= p < N -> p ∉ nbrs p.
Hypothesis nbrs_range : forall p q, 0 <= p < N -> q ∈ nbrs p -> 0 <= q < N.

Let st0 : asm_state := AsmState (lil_matrix N N) (np_zeros (Z.to_nat N)) [].

(** State of the loops after the first [m] points. *)
Lemma assemble_prefix (m : nat) :
  Z.of_nat m <= N ->
  let st := foldl (assemble_step bnd diag nbrs val) st0 (seqZ 0 (Z.of_nat m)) in
  (forall a b, entries (asm_A st) !! (a, b) =
               if decide (0 <= a < Z.of_nat m) then row_lookup bnd diag nbrs a b else None) /\
  nrows (asm_A st) = N /\ ncols (asm_A st) = N /\
  length (asm_f st) = Z.to_nat N /\
  (forall a, 0 <= a < Z.of_nat m -> vget (asm_f st) a = val a) /\
  asm_boundary st = filter (fun p => bnd p = true) (seqZ 0 (Z.of_nat m)).
Proof.
  induction m as [|m IH]; intros Hm st.
  - subst st. simpl. repeat split; try done.
    + intros a b. case_decide; [lia|]. apply lookup_empty.
    + apply length_np_zeros.
    + intros a Ha. lia.
  - destruct (IH ltac:(lia)) as (IHe & IHr & IHc & IHl & IHf & IHb). clear IH.
    subst st. rewrite seqZ_S, foldl_snoc, Z.add_0_l.
    set (st := foldl _ st0 (seqZ 0 (Z.of_nat m))) in *.
    set (p := Z.of_nat m) in *.
    assert (Hp : 0 <= p < N) by lia.
    rewrite filter_app.
    unfold assemble_step. destruct (bnd p) eqn:Hbp; cbn [asm_A asm_f asm_boundary].
    + refine (conj _ (conj _ (conj _ (conj _ (conj _ _))))).
      * intros a b. rewrite entries_sp_set, IHe. unfold row_lookup.
        destruct (decide (a = p)) as [-> | Hap].
        -- rewrite Hbp. repeat case_decide; try done; lia.
        -- repeat case_decide; try done; lia.
      * exact IHr.
      * exact IHc.
      * by rewrite length_vset.
      * intros a Ha. destruct (decide (a = p)) as [-> | Hap].
        -- apply vget_vset_eq; lia.
        -- rewrite vget_vset_ne by lia. apply IHf. lia.
      * rewrite IHb. f_equal. rewrite filter_cons, Hbp. by rewrite decide_True.
    + destruct (shape_foldl_sp_set (sp_set (asm_A st) p p diag) p (-1) (nbrs p)) as [-> ->].
      refine (conj _ (conj _ (conj _ (conj _ (conj _ _))))).
      * intros a b. rewrite entries_foldl_sp_set by lia. rewrite entries_sp_set, IHe.
        assert ((diag =? 0) = false) as -> by lia.
        unfold row_lookup.
        destruct (decide (a = p)) as [-> | Hap].
        -- rewrite Hbp. pose proof (nbrs_irrefl p Hp).
           repeat case_decide; try done; try lia; exfalso; intuition congruence.
        -- repeat case_decide; try done; try lia; exfalso; intuition congruence.
      * exact IHr.
      * exact IHc.
      * by rewrite length_vset.
      * intros a Ha. destruct (decide (a = p)) as [-> | Hap].
        -- apply vget_vset_eq; lia.
        -- rewrite vget_vset_ne by lia. apply IHf. lia.
      * rewrite IHb. rewrite filter_cons, Hbp. rewrite decide_False by done.
        by rewrite filter_nil, app_nil_r.
Qed.

(** The zeroing pass. *)
Lemma entries_zero_boundary (A : sparse) (bl : list Z) a b :
  entries (zero_boundary A bl) !! (a, b) =
  if decide (a ∈ bl \/ b ∈ bl) then (if decide (a = b) then Some 1 else None)
  else entries A !! (a, b).
Proof.
  unfold zero_boundary. revert A. induction bl as [|p bl IH]; intros A; cbn [foldl].
  - case_decide as Hd; [|done]. destruct Hd as [Hd | Hd]; by apply elem_of_nil in Hd.
  - rewrite IH, entries_sp_set, entries_sp_zero_col, entries_sp_zero_row.
    change (1 =? 0) with false. cbv iota.
    goal_decide; try done; absurd_case.
Qed.

Lemma shape_zero_boundary (A : sparse) (bl : list Z) :
  nrows (zero_boundary A bl) = nrows A /\ ncols (zero_boundary A bl) = ncols A.
Proof.
  unfold zero_boundary. revert A. induction bl as [|p bl IH]; intros A; simpl; [done|].
  by rewrite !(proj1 (IH _)), !(proj2 (IH _)).
Qed.

(** The finished matrix, entry by entry. *)
Lemma assembled_matrix_lookup :
  0 <= N ->
  let st := foldl (assemble_step bnd diag nbrs val) st0 (seqZ 0 N) in
  forall k, entries (zero_boundary (asm_A st) (asm_boundary st)) !! k =
            system_lookup N bnd diag nbrs k.
Proof.
  intros HN st [a b].
  destruct (assemble_prefix (Z.to_nat N) ltac:(lia)) as (He & _ & _ & _ & _ & Hb).
  rewrite Z2Nat.id in He, Hb by lia. fold st in He, Hb.
  rewrite entries_zero_boundary, He, Hb. unfold system_lookup, system_entry, row_lookup; simpl.
  assert (Hin : forall c, c ∈ filter (fun p => bnd p = true) (seqZ 0 N) <->
                          0 <= c < N /\ bnd c = true).
  { intros c. rewrite list_elem_of_filter, elem_of_seqZ. tauto. }
  pose proof (Hin a) as Hina. pose proof (Hin b) as Hinb.
  pose proof (nbrs_irrefl a) as Hirr. pose proof (nbrs_range a b) as Hrg.
  destruct (decide (b ∈ nbrs a)) as [Hn | Hn];
    [rewrite (bool_decide_eq_true_2 _ Hn) | rewrite (bool_decide_eq_false_2 _ Hn)];
    destruct (bnd a) eqn:Hba; destruct (bnd b) eqn:Hbb; simpl;
    destruct (decide (a = b)); destruct (decide (b = a));
    goal_decide; try done; absurd_case.
Qed.

(** The elimination pass keeps the length of the vector and writes only
    where the matrix has a non-zero. *)
Lemma length_eliminate_boundary (A : sparse) (bl : list Z) (fv : list F) :
  length (eliminate_boundary nbrs A fv bl) = length fv.
Proof.
  unfold eliminate_boundary. revert fv.
  induction bl as [|p bl IH]; intros fv; cbn [foldl]; [done|].
  cbv zeta. rewrite IH. generalize (vget fv p). intros u.
  generalize (nbrs p). intros l. revert fv.
  induction l as [|q l IHl]; intros fv; cbn [foldl]; [done|].
  rewrite IHl. destruct (sp_get A q p =? 0); [done | apply length_vset].
Qed.

Lemma eliminate_boundary_untouched (A : sparse) (bl : list Z) (fv : list F) (a : Z) :
  0 <= a ->
  (forall p q, p ∈ bl -> q ∈ nbrs p -> sp_get A q p <> 0 -> 0 <= q /\ q <> a) ->
  vget (eliminate_boundary nbrs A fv bl) a = vget fv a.
Proof.
  intros Ha. unfold eliminate_boundary. revert fv.
  induction bl as [|p bl IH]; intros fv Hw; cbn [foldl]; [done|].
  cbv zeta. rewrite IH by (intros p' q Hp'; apply Hw; by apply list_elem_of_further).
  assert (Hq : forall q, q ∈ nbrs p -> sp_get A q p <> 0 -> 0 <= q /\ q <> a)
    by (intros q Hq; apply Hw; [apply list_elem_of_here | done]).
  clear Hw IH. revert Hq. generalize (vget fv p). intros u.
  generalize (nbrs p). intros l. revert fv.
  induction l as [|q l IHl]; intros fv Hq; cbn [foldl]; [done|].
  rewrite IHl by (intros q' Hq'; apply Hq; by apply list_elem_of_further).
  destruct (sp_get A q p =? 0) eqn:Hz; [done|].
  destruct (Hq q (list_elem_of_here _ _) ltac:(lia)).
  apply vget_vset_ne; lia.
Qed.

(** Boundary entries of the right-hand side keep the value the assembly
    loops stored. *)
Lemma assembled_rhs_boundary :
  0 <= N ->
  let st := foldl (assemble_step bnd diag nbrs val) st0 (seqZ 0 N) in
  let rhs := eliminate_boundary nbrs (asm_A st) (asm_f st) (asm_boundary st) in
  length rhs = Z.to_nat N /\
  forall a, 0 <= a < N -> bnd a = true -> vget rhs a = val a.
Proof.
  intros HN st rhs.
  destruct (assemble_prefix (Z.to_nat N) ltac:(lia)) as (He & _ & _ & Hl & Hf & Hb).
  rewrite Z2Nat.id in He, Hl, Hf, Hb by lia. fold st in He, Hl, Hf, Hb.
  split.
  - subst rhs. rewrite length_eliminate_boundary. exact Hl.
  - intros a Ha Hba. subst rhs.
    rewrite eliminate_boundary_untouched; [by apply Hf | lia |].
    intros p q Hp Hq Hnz.
    rewrite Hb, list_elem_of_filter, elem_of_seqZ in Hp. destruct Hp as [Hbp Hp].
    pose proof (nbrs_range p q ltac:(lia) Hq) as Hqr.
    split; [lia|]. intros ->. apply Hnz.
    unfold sp_get. rewrite He, decide_True by lia. unfold row_lookup. rewrite Hba.
    rewrite decide_False; [done|]. intros ->. by apply (nbrs_irrefl a).
Qed.

End GenericAssembly.

(** * The assembler on the two grids *)

Lemma on_boundary_2d_coords n i j :
  0 <= i -> 0 <= j < n ->
  on_boundary_2d n (i * n + j) =
  (i =? 0) || (i =? n - 1) || (j =? 0) || (j =? n - 1).
Proof.
  intros Hi Hj. unfold on_boundary_2d, extreme.
  destruct (coords_2d n i j Hi Hj) as [-> ->].
  by rewrite !orb_assoc.
Qed.

Lemma on_boundary_3d_coords n i j k :
  0 <= i -> 0 <= j < n -> 0 <= k < n ->
  on_boundary_3d n (i * n * n + j * n + k) =
  (i =? 0) || (i =? n - 1) || (j =? 0) || (j =? n - 1) || (k =? 0) || (k =? n - 1).
Proof.
  intros Hi Hj Hk. unfold on_boundary_3d, extreme.
  destruct (coords_3d n i j k Hi Hj Hk) as (-> & -> & ->).
  by rewrite !orb_assoc.
Qed.

Lemma grid_neighbors_irrefl n dimension p :
  1 <= n -> dimension = 2 \/ dimension = 3 ->
  0 <= p < num_points n dimension -> p ∉ grid_neighbors n dimension p.
Proof.
  intros Hn [-> | ->] Hp; unfold num_points, grid_neighbors in *; simpl in *.
  - destruct (index_has_coords_2d n p Hn Hp) as (i & j & Hi & Hj & ->).
    rewrite elem_of_get_neighbors_2d by lia. lia.
  - destruct (index_has_coords_3d n p Hn Hp) as (i & j & k & Hi & Hj & Hk & ->).
    rewrite elem_of_get_neighbors_3d by lia. nia.
Qed.

Lemma grid_neighbors_range n dimension p q :
  1 <= n -> dimension = 2 \/ dimension = 3 ->
  0 <= p < num_points n dimension -> q ∈ grid_neighbors n dimension p ->
  0 <= q < num_points n dimension.
Proof.
  intros Hn [-> | ->] Hp; unfold num_points, grid_neighbors in *; simpl in *.
  - destruct (index_has_coords_2d n p Hn Hp) as (i & j & Hi & Hj & ->).
    rewrite elem_of_get_neighbors_2d by lia. nia.
  - destruct (index_has_coords_3d n p Hn Hp) as (i & j & k & Hi & Hj & Hk & ->).
    rewrite elem_of_get_neighbors_3d by lia.
    intros [[? ->] | [[? ->] | [[? ->] | [[? ->] | [[? ->] | [? ->]]]]]]; nia.
Qed.

Lemma grid_neighbors_sym n dimension p q :
  1 <= n -> dimension = 2 \/ dimension = 3 ->
  0 <= p < num_points n dimension -> 0 <= q < num_points n dimension ->
  q ∈ grid_neighbors n dimension p -> p ∈ grid_neighbors n dimension q.
Proof.
  intros Hn [-> | ->] Hp Hq; unfold num_points, grid_neighbors in *; simpl in *.
  - destruct (index_has_coords_2d n p Hn Hp) as (i & j & Hi & Hj & ->).
    destruct (index_has_coords_2d n q Hn Hq) as (i' & j' & Hi' & Hj' & ->).
    rewrite !elem_of_get_neighbors_2d, <- !adjacent_2d_iff by lia.
    intros (i2 & j2 & Hi2 & Hj2 & Heq & Habs).
    destruct (coords_2d_inj n i2 j2 i' j') as [-> ->]; try lia.
    exists i, j. lia.
  - destruct (index_has_coords_3d n p Hn Hp) as (i & j & k & Hi & Hj & Hk & ->).
    destruct (index_has_coords_3d n q Hn Hq) as (i' & j' & k' & Hi' & Hj' & Hk' & ->).
    rewrite (elem_of_get_neighbors_3d n i j k), (elem_of_get_neighbors_3d n i' j' k') by lia.
    rewrite <- (adjacent_3d_iff n i j k), <- (adjacent_3d_iff n i' j' k') by lia.
    intros (i2 & j2 & k2 & Hi2 & Hj2 & Hk2 & Heq & Habs).
    destruct (coords_3d_inj n i2 j2 k2 i' j' k') as (-> & -> & ->); try lia.
    exists i, j, k. lia.
Qed.

Section Build.
Context {F : Type} `{Num F}.

Lemma assemble_point_2d_step n (st : asm_state) i j :
  0 <= i -> 0 <= j < n ->
  assemble_point_2d n (grid_spacing n) st i j =
  assemble_step (on_boundary_2d n) 4 (fun p => get_neighbors_2d p n)
                (assembled_rhs_2d n) st (i * n + j).
Proof.
  intros Hi Hj. unfold assemble_point_2d, assemble_step, assembled_rhs_2d, u0_2d, coord.
  rewrite on_boundary_2d_coords by done.
  destruct (coords_2d n i j Hi Hj) as [-> ->].
  by destruct (_ || _).
Qed.

Lemma assemble_point_3d_step n (st : asm_state) i j k :
  0 <= i -> 0 <= j < n -> 0 <= k < n ->
  assemble_point_3d n (grid_spacing n) st i j k =
  assemble_step (on_boundary_3d n) 6 (fun p => get_neighbors_3d p n)
                (assembled_rhs_3d n) st (i * n * n + j * n + k).
Proof.
  intros Hi Hj Hk. unfold assemble_point_3d, assemble_step, assembled_rhs_3d, u0_3d, coord.
  rewrite on_boundary_3d_coords by done.
  destruct (coords_3d n i j k Hi Hj Hk) as (-> & -> & ->).
  by destruct (_ || _).
Qed.

(** The assembler as three passes over the linear indices. *)
Lemma build_matrix_and_rhs_passes n dimension :
  0 <= n -> dimension = 2 \/ dimension = 3 ->
  let N := num_points n dimension in
  let st := foldl (assemble_step (grid_boundary n dimension) (grid_diagonal dimension)
                                 (grid_neighbors n dimension) (assembled_rhs_grid n dimension))
                  (AsmState (lil_matrix N N) (np_zeros (Z.to_nat N)) []) (seqZ 0 N) in
  build_matrix_and_rhs n dimension =
  ([], (Some (zero_boundary (asm_A st) (asm_boundary st)),
        Some (eliminate_boundary (grid_neighbors n dimension)
                                 (asm_A st) (asm_f st) (asm_boundary st)))).
Proof.
  intros Hn [-> | ->]; unfold build_matrix_and_rhs, num_points, grid_boundary,
    grid_diagonal, grid_neighbors, assembled_rhs_grid; simpl.
  - rewrite (foldl_loops_2d _ (assemble_step (on_boundary_2d n) 4
               (fun p => get_neighbors_2d p n) (assembled_rhs_2d n)) n _ Hn); [done|].
    intros st i j Hi Hj. apply assemble_point_2d_step; lia.
  - rewrite (foldl_loops_3d _ (assemble_step (on_boundary_3d n) 6
               (fun p => get_neighbors_3d p n) (assembled_rhs_3d n)) n _ Hn); [done|].
    intros st i j k Hi Hj Hk. apply assemble_point_3d_step; lia.
Qed.

Lemma num_points_pos n dimension : 1 <= n -> 1 <= num_points n dimension.
Proof. intros Hn. unfold num_points. destruct (dimension =? 2); nia. Qed.

(** What the assembler returns on a supported grid. *)
Lemma build_matrix_and_rhs_spec n dimension :
  1 <= n -> dimension = 2 \/ dimension = 3 ->
  let N := num_points n dimension in
  exists A b,
    build_matrix_and_rhs n dimension = ([], (Some A, Some b)) /\
    nrows A = N /\ ncols A = N /\
    (forall k, entries A !! k =
               system_lookup N (grid_boundary n dimension) (grid_diagonal dimension)
                             (grid_neighbors n dimension) k) /\
    length b = Z.to_nat N /\
    (forall a, 0 <= a < N -> grid_boundary n dimension a = true ->
               vget b a = u0_grid n dimension a).
Proof.
  intros Hn HD N.
  pose proof (num_points_pos n dimension Hn) as HN. fold N in HN.
  rewrite build_matrix_and_rhs_passes by (done || lia). fold N.
  set (st := foldl _ _ (seqZ 0 N)).
  assert (Hdiag : grid_diagonal dimension <> 0)
    by (unfold grid_diagonal; destruct (dimension =? 2); lia).
  eexists _, _. split; [reflexivity|].
  destruct (assemble_prefix N (grid_boundary n dimension) (grid_diagonal dimension)
              (grid_neighbors n dimension) (assembled_rhs_grid n dimension) Hdiag
              (fun p Hp => grid_neighbors_irrefl n dimension p Hn HD Hp)
              (Z.to_nat N) ltac:(lia)) as (_ & Hr & Hc & _).
  rewrite Z2Nat.id in Hr, Hc by lia. fold st in Hr, Hc.
  destruct (shape_zero_boundary (asm_A st) (asm_boundary st)) as [-> ->].
  split; [done|]. split; [done|]. split.
  - apply (assembled_matrix_lookup N); try done.
    + intros p Hp. by apply grid_neighbors_irrefl.
    + intros p q Hp. by apply grid_neighbors_range.
    + lia.
  - destruct (assembled_rhs_boundary N (grid_boundary n dimension) (grid_diagonal dimension)
                (grid_neighbors n dimension) (assembled_rhs_grid n dimension) Hdiag
                (fun p Hp => grid_neighbors_irrefl n dimension p Hn HD Hp)
                (fun p q Hp => grid_neighbors_range n dimension p q Hn HD Hp)
                ltac:(lia)) as [Hl Hv].
    fold st in Hl, Hv. split; [exact Hl|].
    intros a Ha Hba. rewrite (Hv a Ha Hba).
    unfold assembled_rhs_grid, u0_grid, grid_boundary, assembled_rhs_2d, assembled_rhs_3d in *.
    destruct (dimension =? 2); by rewrite Hba.
Qed.

(** A loop that stores [g p] at every index [p < N] of a zero vector. *)
Lemma foldl_vset_all (g : Z -> F) (N : Z) :
  0 <= N ->
  let u := foldl (fun u p => vset u p (g p)) (np_zeros (Z.to_nat N)) (seqZ 0 N) in
  length u = Z.to_nat N /\ forall a, 0 <= a < N -> vget u a = g a.
Proof.
  intros HN.
  assert (Hm : forall m : nat, Z.of_nat m <= N ->
            let u := foldl (fun u p => vset u p (g p)) (np_zeros (Z.to_nat N))
                           (seqZ 0 (Z.of_nat m)) in
            length u = Z.to_nat N /\ forall a, 0 <= a < Z.of_nat m -> vget u a = g a).
  { induction m as [|m IH]; intros Hm u.
    - subst u. split; [apply length_np_zeros | intros; lia].
    - destruct (IH ltac:(lia)) as [IHl IHv]. subst u.
      rewrite seqZ_S, foldl_snoc, Z.add_0_l. split.
      + by rewrite length_vset.
      + intros a Ha. destruct (decide (a = Z.of_nat m)) as [-> | Hne].
        * apply vget_vset_eq; lia.
        * rewrite vget_vset_ne by lia. apply IHv. lia. }
  specialize (Hm (Z.to_nat N)). rewrite Z2Nat.id in Hm by lia. apply Hm. lia.
Qed.

(** What the exact-solution oracle returns on a supported grid. *)
Lemma exact_solution_spec n dimension :
  0 <= n -> dimension = 2 \/ dimension = 3 ->
  let N := num_points n dimension in
  exists u,
    exact_solution dimension n = ([], Some u) /\
    length u = Z.to_nat N /\
    (forall a, 0 <= a < N -> vget u a = u0_grid n dimension a).
Proof.
  intros Hn [-> | ->] N; unfold exact_solution, num_points, u0_grid in *; simpl in *;
    subst N; eexists; (split; [reflexivity|]).
  - rewrite (foldl_loops_2d _ (fun u p => vset u p (u0_2d n p)) n _ Hn).
    + apply foldl_vset_all. nia.
    + intros u i j Hi Hj. unfold u0_2d, coord.
      destruct (coords_2d n i j ltac:(lia) Hj) as [-> ->]. done.
  - rewrite (foldl_loops_3d _ (fun u p => vset u p (u0_3d n p)) n _ Hn).
    + apply foldl_vset_all. nia.
    + intros u i j k Hi Hj Hk. unfold u0_3d, coord.
      destruct (coords_3d n i j k ltac:(lia) Hj Hk) as (-> & -> & ->). done.
Qed.

End Build.

(** * The right-hand side, the oracle and the 3 x 3 system *)

(** C9.  On a supported grid with [n >= 1], at every boundary index [p]
    (a coordinate of [p] is 0 or [n - 1]) the assembled right-hand side
    and the exact-solution vector hold the same value, the manufactured
    solution at the point of [p]: the elimination pass leaves the entry
    the assembly loops stored there. *)
Theorem boundary_rhs_is_exact {F : Type} `{Num F} (n dimension p : Z) :
  1 <= n -> dimension = 2 \/ dimension = 3 ->
  0 <= p < num_points n dimension -> grid_boundary n dimension p = true ->
  exists A b u,
    build_matrix_and_rhs n dimension = ([], (Some A, Some b)) /\
    exact_solution dimension n = ([], Some u) /\
    b !! Z.to_nat p = Some (u0_grid n dimension p) /\
    u !! Z.to_nat p = Some (u0_grid n dimension p).
Proof.
  intros Hn HD Hp Hb.
  destruct (build_matrix_and_rhs_spec n dimension Hn HD) as (A & b & Hbuild & _ & _ & _ & Hl & Hv).
  destruct (exact_solution_spec n dimension ltac:(lia) HD) as (u & Hex & Hlu & Hu).
  exists A, b, u. split; [done|]. split; [done|].
  specialize (Hv p Hp Hb). specialize (Hu p Hp).
  unfold vget in Hv, Hu. rewrite nth_lookup in Hv, Hu.
  destruct (lookup_lt_is_Some_2 b (Z.to_nat p) ltac:(lia)) as [x Hx].
  destruct (lookup_lt_is_Some_2 u (Z.to_nat p) ltac:(lia)) as [y Hy].
  rewrite Hx in Hv |- *. rewrite Hy in Hu |- *. simpl in *. by subst.
Qed.

(** The statement at the corner [p = 0] of the 3 x 3 grid, in exact
    arithmetic. *)
Lemma boundary_rhs_is_exact_witness :
  exists A b u,
    build_matrix_and_rhs (F := R) 3 2 = ([], (Some A, Some b)) /\
    exact_solution (F := R) 2 3 = ([], Some u) /\
    b !! Z.to_nat 0 = Some (u0_grid 3 2 0) /\
    u !! Z.to_nat 0 = Some (u0_grid 3 2 0).
Proof.
  apply (boundary_rhs_is_exact 3 2 0); [lia | by left | done | reflexivity].
Defined.

(** The first statement of [exact_solution] runs before the dimension
    test: on an object whose [dimension] field is 4 the call
    [exact_solution(-1)] raises ZeroDivisionError, so it neither prints
    "Invalid dimension" nor returns [None]. *)
Lemma exact_solution_raises_before_dimension_test :
  exists self : @Problem R,
    dimension self = 4 /\
    (exact_solution_call (F := R) (dimension self) (-1) = inl ZeroDivisionError) /\
    (exact_solution_call (F := R) (dimension self) (-1) <>
       inr (["Invalid dimension"%string], None)).
Proof.
  exists {| n_elements := 3; dimension := 4; matrix := lil_matrix 0 0;
            rhs := []; reordered_matrix := lil_matrix 0 0;
            cholesky_factor := []; cholesky_factor_reorderd := [] |}.
  split; [reflexivity|]. split; [reflexivity|].
  intros Habs. vm_compute in Habs. discriminate Habs.
Qed.

(** C10.  When the [dimension] field of a problem object is
    neither 2 nor 3, a call [exact_solution(n)] whose argument has
    [n + 1] non-zero and within the range of a float prints
    "Invalid dimension" and returns [None] instead of raising; at
    [n = -1] it raises ZeroDivisionError, and with [n + 1] beyond the
    range of a float OverflowError, before the dimension is tested. *)
Theorem exact_solution_invalid_dimension {F : Type} `{Num F} (self : @Problem F) (n : Z) :
  dimension self <> 2 -> dimension self <> 3 ->
  (n + 1 <> 0 -> Z.abs (n + 1) < float_overflow_bound ->
   exact_solution_call (F := F) (dimension self) n =
     inr (["Invalid dimension"%string], None)) /\
  (n = -1 -> exact_solution_call (F := F) (dimension self) n = inl ZeroDivisionError) /\
  (float_overflow_bound <= Z.abs (n + 1) ->
   exact_solution_call (F := F) (dimension self) n = inl OverflowError).
Proof.
  intros H2 H3. unfold exact_solution_call, spacing_raises.
  assert (Hb : 0 < float_overflow_bound) by (vm_compute; reflexivity).
  repeat split.
  - intros Hn Hr.
    destruct (n + 1 =? 0) eqn:E0; [lia|].
    destruct (float_overflow_bound <=? Z.abs (n + 1)) eqn:E1; [lia|].
    unfold exact_solution.
    destruct (dimension self =? 2) eqn:E2; [lia|].
    destruct (dimension self =? 3) eqn:E3; [lia|]. reflexivity.
  - intros ->. reflexivity.
  - intros Hr.
    destruct (n + 1 =? 0) eqn:E0; [lia|].
    destruct (float_overflow_bound <=? Z.abs (n + 1)) eqn:E1; [reflexivity | lia].
Qed.

(** A problem object whose dimension field reads 4, asked for 3 points
    per direction. *)
Lemma exact_solution_invalid_dimension_witness :
  exists self : @Problem R,
    dimension self = 4 /\
    (exact_solution_call (F := R) (dimension self) 3 =
       inr (["Invalid dimension"%string], None)).
Proof.
  exists {| n_elements := 3; dimension := 4; matrix := lil_matrix 0 0;
            rhs := []; reordered_matrix := lil_matrix 0 0;
            cholesky_factor := []; cholesky_factor_reorderd := [] |}.
  split; [reflexivity|].
  apply (exact_solution_invalid_dimension (F := R)); simpl;
    [lia | lia | lia | vm_compute; reflexivity].
Defined.

(** C6.  For [n = 3], [D = 2], in any arithmetic: the system has 9
    unknowns; the matrix is the identity except for the diagonal entry 4
    of the centre row 4, so row 4 reads [4 x[4]]; the right-hand side of
    each of the 8 boundary rows is the manufactured solution at its point;
    and the elimination pass has subtracted [-1 * u0] for each of the four
    boundary neighbours 1, 3, 5, 7 from the entry of row 4.  In exact
    arithmetic that entry is [f h^2] plus the four boundary values. *)
Theorem center_equation_3x3 :
  (forall (F : Type) (HF : Num F),
     exists A b,
       build_matrix_and_rhs (F := F) 3 2 = ([], (Some A, Some b)) /\
       nrows A = 9 /\ ncols A = 9 /\ length b = 9%nat /\
       entries A = list_to_map [((0, 0), 1); ((1, 1), 1); ((2, 2), 1); ((3, 3), 1);
                                ((4, 4), 4);
                                ((5, 5), 1); ((6, 6), 1); ((7, 7), 1); ((8, 8), 1)] /\
       (forall p, p ∈ [0; 1; 2; 3; 5; 6; 7; 8] -> vget b p = u0_2d 3 p) /\
       get_neighbors_2d 4 3 = [3; 5; 1; 7] /\
       vget b 4 =
       fsub (fsub (fsub (fsub (fmul (f_2d (coord 3 1) (coord 3 1)) (fpow (grid_spacing 3) 2))
                              (fmul (of_Z (-1)) (u0_2d 3 1)))
                        (fmul (of_Z (-1)) (u0_2d 3 3)))
                  (fmul (of_Z (-1)) (u0_2d 3 5)))
            (fmul (of_Z (-1)) (u0_2d 3 7))) /\
  (exists A b,
     build_matrix_and_rhs (F := R) 3 2 = ([], (Some A, Some b)) /\
     (forall x : Z -> R,
        Rsum (fun q => Rmult (IZR (sp_get A 4 q)) (x q)) (seqZ 0 9) = Rmult 4 (x 4)) /\
     vget b 4 =
     Rplus (Rmult (f_2d (coord 3 1) (coord 3 1)) (fpow (grid_spacing 3) 2))
           (Rplus (Rplus (Rplus (u0_2d 3 1) (u0_2d 3 3)) (u0_2d 3 5)) (u0_2d 3 7))).
Proof.
  assert (Hgen : forall (F : Type) (HF : Num F),
     exists A b,
       build_matrix_and_rhs (F := F) 3 2 = ([], (Some A, Some b)) /\
       nrows A = 9 /\ ncols A = 9 /\ length b = 9%nat /\
       entries A = list_to_map [((0, 0), 1); ((1, 1), 1); ((2, 2), 1); ((3, 3), 1);
                                ((4, 4), 4);
                                ((5, 5), 1); ((6, 6), 1); ((7, 7), 1); ((8, 8), 1)] /\
       (forall p, p ∈ [0; 1; 2; 3; 5; 6; 7; 8] -> vget b p = u0_2d 3 p) /\
       get_neighbors_2d 4 3 = [3; 5; 1; 7] /\
       vget b 4 =
       fsub (fsub (fsub (fsub (fmul (f_2d (coord 3 1) (coord 3 1)) (fpow (grid_spacing 3) 2))
                              (fmul (of_Z (-1)) (u0_2d 3 1)))
                        (fmul (of_Z (-1)) (u0_2d 3 3)))
                  (fmul (of_Z (-1)) (u0_2d 3 5)))
            (fmul (of_Z (-1)) (u0_2d 3 7))).
  { intros F HF.
    destruct (build_matrix_and_rhs (F := F) 3 2) as [out [[A|] [b|]]] eqn:E;
      vm_compute in E; try discriminate E.
    injection E as <- <- <-.
    eexists _, _. split; [reflexivity|].
    split; [reflexivity|]. split; [reflexivity|]. split; [reflexivity|].
    split; [vm_compute; reflexivity|].
    split; [|split; [reflexivity | vm_compute; reflexivity]].
    intros p Hp. repeat (apply elem_of_cons in Hp as [-> | Hp]; [vm_compute; reflexivity|]).
    by apply elem_of_nil in Hp. }
  split; [exact Hgen|].
  destruct (Hgen R R_Num) as (A & b & Hbuild & _ & _ & _ & HA & _ & _ & Hb4).
  exists A, b. split; [exact Hbuild|]. split.
  - intros x. unfold sp_get. rewrite HA. vm_compute. lra.
  - rewrite Hb4. simpl. lra.
Qed.

(** * Finite sums of real numbers *)

Section RsumFacts.
Context {A : Type}.
Implicit Types (f g : A -> R) (l : list A).
Local Open Scope R_scope.

Lemma Rsum_nil f : Rsum f [] = 0.
Proof. reflexivity. Qed.

Lemma Rsum_cons f a l : Rsum f (a :: l) = f a + Rsum f l.
Proof. reflexivity. Qed.

Lemma Rsum_app f l k : Rsum f (l ++ k) = Rsum f l + Rsum f k.
Proof. induction l as [|a l IH]; simpl; [lra | rewrite IH; lra]. Qed.

Lemma Rsum_ext f g l : (forall a, a ∈ l -> f a = g a) -> Rsum f l = Rsum g l.
Proof.
  induction l as [|a l IH]; intros Hfg; simpl; [done|].
  rewrite (Hfg a) by apply list_elem_of_here. rewrite IH; [done|].
  intros b Hb. apply Hfg. by apply list_elem_of_further.
Qed.

Lemma Rsum_zero l : Rsum (fun _ : A => 0) l = 0.
Proof. induction l as [|a l IH]; simpl; [done | rewrite IH; lra]. Qed.

Lemma Rsum_plus f g l : Rsum (fun a => f a + g a) l = Rsum f l + Rsum g l.
Proof. induction l as [|a l IH]; simpl; [lra | rewrite IH; lra]. Qed.

Lemma Rsum_minus f g l : Rsum (fun a => f a - g a) l = Rsum f l - Rsum g l.
Proof. induction l as [|a l IH]; simpl; [lra | rewrite IH; lra]. Qed.

Lemma Rsum_scal c f l : Rsum (fun a => c * f a) l = c * Rsum f l.
Proof. induction l as [|a l IH]; simpl; [lra | rewrite IH; lra]. Qed.

Lemma Rsum_scal_r c f l : Rsum (fun a => f a * c) l = Rsum f l * c.
Proof. induction l as [|a l IH]; simpl; [lra | rewrite IH; lra]. Qed.

Lemma Rsum_const c l : Rsum (fun _ : A => c) l = INR (length l) * c.
Proof.
  induction l as [|a l IH]; [simpl; lra|].
  rewrite Rsum_cons, IH. change (length (a :: l)) with (S (length l)).
  rewrite S_INR. lra.
Qed.

Lemma Rsum_nonneg f l : (forall a, a ∈ l -> 0 <= f a) -> 0 <= Rsum f l.
Proof.
  induction l as [|a l IH]; intros Hf; simpl; [lra|].
  pose proof (Hf a (list_elem_of_here _ _)).
  assert (0 <= Rsum f l) by (apply IH; intros b Hb; apply Hf; by apply list_elem_of_further).
  lra.
Qed.

(** A sum of non-negative terms that is not positive has only zero terms. *)
Lemma Rsum_nonneg_all_zero f l :
  (forall a, a ∈ l -> 0 <= f a) -> Rsum f l <= 0 -> forall a, a ∈ l -> f a = 0.
Proof.
  induction l as [|b l IH]; intros Hf Hs a Ha; [by apply elem_of_nil in Ha|].
  simpl in Hs.
  pose proof (Hf b (list_elem_of_here _ _)).
  assert (0 <= Rsum f l)
    by (apply Rsum_nonneg; intros c Hc; apply Hf; by apply list_elem_of_further).
  apply elem_of_cons in Ha as [-> | Ha]; [lra|].
  apply IH; [intros c Hc; apply Hf; by apply list_elem_of_further | lra | done].
Qed.

Lemma Rsum_perm f l k : l ≡ₚ k -> Rsum f l = Rsum f k.
Proof.
  induction 1 as [|a l k _ IH|a b l|l k m _ IH1 _ IH2]; simpl; lra.
Qed.

Context `{EqDecision A}.

(** Summing over a duplicate-free sublist, written with an indicator. *)
Lemma Rsum_filter (P : A -> Prop) `{forall a, Decision (P a)} f l :
  Rsum f (filter P l) = Rsum (fun a => if decide (P a) then f a else 0) l.
Proof.
  induction l as [|a l IH]; [done|].
  rewrite filter_cons, Rsum_cons. destruct (decide (P a)); simpl; rewrite IH; lra.
Qed.

Lemma Rsum_indicator f l k :
  NoDup l -> NoDup k -> (forall a, a ∈ k -> a ∈ l) ->
  Rsum (fun a => if decide (a ∈ k) then f a else 0) l = Rsum f k.
Proof.
  intros Hl Hk Hsub. rewrite <- (Rsum_filter (fun a => a ∈ k)).
  apply Rsum_perm. apply NoDup_Permutation; [by apply NoDup_filter | done |].
  intros a. rewrite list_elem_of_filter. split; [tauto | auto].
Qed.

(** The sum picks out the one term selected by an equality test. *)
Lemma Rsum_delta f l a :
  NoDup l -> a ∈ l -> Rsum (fun b => if decide (a = b) then f b else 0) l = f a.
Proof.
  intros Hl Ha.
  rewrite (Rsum_ext _ (fun b => if decide (b ∈ [a]) then f b else 0)).
  - rewrite Rsum_indicator; [simpl; lra | done | apply NoDup_singleton |].
    intros b Hb. apply list_elem_of_singleton in Hb. by subst.
  - intros b _. destruct (decide (a = b)) as [-> | Hne].
    + by rewrite decide_True by apply list_elem_of_here.
    + rewrite decide_False; [done|]. rewrite list_elem_of_singleton. congruence.
Qed.

End RsumFacts.

Lemma Rsum_fmap {A B} (h : B -> A) (f : A -> R) (l : list B) :
  Rsum f (h <$> l) = Rsum (fun b => f (h b)) l.
Proof. induction l as [|b l IH]; [done | by rewrite fmap_cons, !Rsum_cons, IH]. Qed.

(** Exchange of the two summations of a double sum. *)
Lemma Rsum_swap {A B} (f : A -> B -> R) (l : list A) (k : list B) :
  Rsum (fun a => Rsum (fun b => f a b) k) l = Rsum (fun b => Rsum (fun a => f a b) l) k.
Proof.
  induction l as [|a l IH]; simpl.
  - by rewrite Rsum_zero.
  - rewrite IH. by rewrite <- Rsum_plus.
Qed.


(** Sums of squares. *)
Lemma Rsum_squares_pos {A} (x : A -> R) (l : list A) :
  (exists a, a ∈ l /\ x a <> 0%R) -> (0 < Rsum (fun a => x a * x a) l)%R.
Proof.
  intros (a & Ha & Hne).
  destruct (Rle_or_lt (Rsum (fun a => x a * x a)%R l) 0) as [Hle | Hlt]; [|done].
  exfalso. apply Hne.
  pose proof (Rsum_nonneg_all_zero (fun a => x a * x a)%R l
                (fun b _ => Rle_0_sqr (x b)) Hle a Ha) as Hz.
  simpl in Hz. nra.
Qed.

(** Positive definiteness makes every real eigenvalue positive. *)
Lemma pos_def_eigenvalues {I} (idx : list I) (M : I -> I -> R) lam x :
  pos_def idx M -> eigenpair idx M lam x -> (0 < lam)%R.
Proof.
  intros Hpd [Hx Heig].
  pose proof (Hpd x Hx) as Hq. unfold quad_form in Hq.
  rewrite (Rsum_ext _ (fun i => lam * (x i * x i))%R) in Hq.
  - rewrite Rsum_scal in Hq.
    pose proof (Rsum_squares_pos x idx Hx).
    destruct (Rle_or_lt lam 0) as [Hle | Hlt]; [nra | done].
  - intros i Hi.
    rewrite (Rsum_ext _ (fun j => (M i j * x j) * x i)%R) by (intros; lra).
    rewrite Rsum_scal_r, (Heig i Hi). lra.
Qed.

(** * The assembled matrix is symmetric and positive definite *)

Section SystemPD.
Variables (N : Z) (bnd : Z -> bool) (diag : Z) (nbrs : Z -> list Z).
Hypothesis nb_nodup : forall p, 0 <= p < N -> NoDup (nbrs p).
Hypothesis nb_range : forall p q, 0 <= p < N -> q ∈ nbrs p -> 0 <= q < N.
Hypothesis nb_sym : forall p q, 0 <= p < N -> 0 <= q < N -> q ∈ nbrs p -> p ∈ nbrs q.
Hypothesis nb_irrefl : forall p, 0 <= p < N -> p ∉ nbrs p.
Hypothesis nb_count :
  forall p, 0 <= p < N -> bnd p = false -> Z.of_nat (length (nbrs p)) = diag.
Hypothesis nb_pred : forall p, 0 <= p < N -> bnd p = false -> p - 1 ∈ nbrs p.

Local Open Scope R_scope.

Let idx : list Z := seqZ 0 N.
Let M (a b : Z) : R := IZR (system_entry bnd diag nbrs a b).
(** The vector with its boundary entries replaced by zero. *)
Let inner (x : Z -> R) (p : Z) : R := if bnd p then 0 else x p.

Lemma system_entry_sym a b :
  (0 <= a < N)%Z -> (0 <= b < N)%Z ->
  system_entry bnd diag nbrs a b = system_entry bnd diag nbrs b a.
Proof.
  intros Ha Hb. unfold system_entry.
  destruct (decide (a = b)) as [-> | Hab].
  - by rewrite decide_True.
  - rewrite (decide_False (P := b = a)) by congruence.
    destruct (bnd a), (bnd b); simpl; try done.
    destruct (decide (b ∈ nbrs a)) as [Hn | Hn].
    + rewrite (bool_decide_eq_true_2 _ Hn).
      by rewrite (bool_decide_eq_true_2 _ (nb_sym a b Ha Hb Hn)).
    + rewrite (bool_decide_eq_false_2 _ Hn).
      rewrite bool_decide_eq_false_2; [done|].
      intros Hn'. apply Hn. by apply nb_sym.
Qed.

Lemma Rsum_neighbors (g : Z -> R) a :
  (0 <= a < N)%Z ->
  Rsum (fun b => if decide (b ∈ nbrs a) then g b else 0) idx = Rsum g (nbrs a).
Proof.
  intros Ha. apply Rsum_indicator.
  - apply NoDup_seqZ.
  - by apply nb_nodup.
  - intros b Hb. apply elem_of_seqZ. pose proof (nb_range a b Ha Hb). lia.
Qed.

(** One row of the quadratic form. *)
Lemma quad_form_row x a :
  (0 <= a < N)%Z ->
  Rsum (fun b => M a b * x a * x b) idx =
  if bnd a then x a * x a
  else inner x a * (IZR diag * inner x a - Rsum (inner x) (nbrs a)).
Proof.
  intros Ha. assert (Hin : a ∈ idx) by (apply elem_of_seqZ; lia).
  unfold M, system_entry, inner. destruct (bnd a) eqn:Hba; simpl.
  - rewrite (Rsum_ext _ (fun b => if decide (a = b) then x a * x b else 0)).
    + rewrite Rsum_delta; [done | apply NoDup_seqZ | done].
    + intros b _. destruct (decide (a = b)); lra.
  - rewrite (Rsum_ext _ (fun b => (if decide (a = b) then IZR diag * x a * x b else 0) -
                                  (if decide (b ∈ nbrs a)
                                   then x a * (if bnd b then 0 else x b) else 0))).
    + rewrite Rsum_minus, Rsum_delta; [|apply NoDup_seqZ | done].
      rewrite (Rsum_neighbors (fun b => x a * (if bnd b then 0 else x b)) a Ha).
      rewrite Rsum_scal. lra.
    + intros b _. destruct (decide (a = b)) as [<- | Hab].
      * rewrite (decide_False (P := a ∈ nbrs a)) by (by apply nb_irrefl). lra.
      * destruct (decide (b ∈ nbrs a)) as [Hn | Hn].
        -- rewrite (bool_decide_eq_true_2 _ Hn). destruct (bnd b); simpl; lra.
        -- rewrite (bool_decide_eq_false_2 _ Hn), andb_false_r. lra.
Qed.

(** Each interior row as a sum over its neighbours. *)
Lemma interior_row_as_differences x a :
  (0 <= a < N)%Z ->
  (if bnd a then 0
   else inner x a * (IZR diag * inner x a - Rsum (inner x) (nbrs a))) =
  Rsum (fun b => inner x a * (inner x a - inner x b)) (nbrs a).
Proof.
  intros Ha.
  rewrite (Rsum_ext (fun b => inner x a * (inner x a - inner x b))
                    (fun b => inner x a * inner x a - inner x a * inner x b))
    by (intros; ring).
  rewrite Rsum_minus, Rsum_const, Rsum_scal.
  destruct (bnd a) eqn:Hba.
  - assert (inner x a = 0) as -> by (unfold inner; by rewrite Hba). lra.
  - rewrite INR_IZR_INZ, (nb_count a Ha Hba). lra.
Qed.

(** Reversal of the orientation of the edges in a sum over all edges. *)
Lemma Rsum_edges_swap (g : Z -> Z -> R) :
  Rsum (fun a => Rsum (fun b => g a b) (nbrs a)) idx =
  Rsum (fun a => Rsum (fun b => g b a) (nbrs a)) idx.
Proof.
  rewrite (Rsum_ext _ (fun a => Rsum (fun b => if decide (b ∈ nbrs a) then g a b else 0) idx)).
  2:{ intros a Ha. apply elem_of_seqZ in Ha. symmetry.
      apply (Rsum_neighbors (fun b => g a b)). lia. }
  rewrite Rsum_swap.
  apply Rsum_ext. intros b Hb. apply elem_of_seqZ in Hb.
  rewrite <- (Rsum_neighbors (fun a => g a b)) by lia.
  apply Rsum_ext. intros a Ha. apply elem_of_seqZ in Ha.
  destruct (decide (b ∈ nbrs a)) as [Hn | Hn].
  - rewrite decide_True; [done|]. apply nb_sym; [lia | lia | done].
  - rewrite decide_False; [done|]. intros Hn'. apply Hn. apply nb_sym; [lia | lia | done].
Qed.

(** The quadratic form as a sum of squares. *)
Lemma quad_form_squares x :
  2 * quad_form idx M x =
  2 * Rsum (fun a => if bnd a then x a * x a else 0) idx +
  Rsum (fun a => Rsum (fun b => (inner x a - inner x b) * (inner x a - inner x b))
                      (nbrs a)) idx.
Proof.
  unfold quad_form.
  rewrite (Rsum_ext _ (fun a => (if bnd a then x a * x a else 0) +
                                Rsum (fun b => inner x a * (inner x a - inner x b)) (nbrs a))).
  2:{ intros a Ha. apply elem_of_seqZ in Ha.
      rewrite quad_form_row by lia. rewrite <- interior_row_as_differences by lia.
      destruct (bnd a); lra. }
  rewrite Rsum_plus.
  set (S := Rsum (fun a => Rsum (fun b => inner x a * (inner x a - inner x b)) (nbrs a)) idx).
  assert (HS : S = Rsum (fun a => Rsum (fun b => inner x b * (inner x b - inner x a))
                                       (nbrs a)) idx)
    by apply (Rsum_edges_swap (fun a b => inner x a * (inner x a - inner x b))).
  assert (H2 : S + S = Rsum (fun a => Rsum (fun b => (inner x a - inner x b) *
                                                     (inner x a - inner x b)) (nbrs a)) idx).
  { rewrite HS at 2. unfold S. rewrite <- Rsum_plus. apply Rsum_ext. intros a _.
    rewrite <- Rsum_plus. apply Rsum_ext. intros b _. lra. }
  rewrite <- H2. lra.
Qed.

(** C3, in general form: the matrix described by [system_entry] is
    positive definite. *)
Lemma system_pos_def : pos_def idx M.
Proof.
  intros x (i & Hi & Hxi).
  destruct (Rle_or_lt (quad_form idx M x) 0) as [Hle | Hlt]; [|done].
  exfalso. pose proof (quad_form_squares x) as Hq.
  set (B := Rsum (fun a => if bnd a then x a * x a else 0) idx) in *.
  set (E := Rsum (fun a => Rsum (fun b => (inner x a - inner x b) *
                                          (inner x a - inner x b)) (nbrs a)) idx) in *.
  assert (HB : 0 <= B).
  { apply Rsum_nonneg. intros a _. destruct (bnd a); [apply Rle_0_sqr | lra]. }
  assert (HE : 0 <= E).
  { apply Rsum_nonneg. intros a _. apply Rsum_nonneg. intros b _. apply Rle_0_sqr. }
  assert (HB0 : forall a, a ∈ idx -> (if bnd a then x a * x a else 0) = 0).
  { apply Rsum_nonneg_all_zero.
    - intros a _. destruct (bnd a); [apply Rle_0_sqr | lra].
    - fold B. lra. }
  assert (HE0 : forall a, a ∈ idx -> forall b, b ∈ nbrs a -> inner x a = inner x b).
  { intros a Ha b Hb.
    assert (Hrow : Rsum (fun b => (inner x a - inner x b) * (inner x a - inner x b))
                        (nbrs a) = 0).
    { apply (Rsum_nonneg_all_zero
               (fun a => Rsum (fun b => (inner x a - inner x b) * (inner x a - inner x b))
                              (nbrs a)) idx); [|fold E; lra | done].
      intros c _. apply Rsum_nonneg. intros d _. apply Rle_0_sqr. }
    pose proof (Rsum_nonneg_all_zero _ (nbrs a) (fun d _ => Rle_0_sqr _)
                  (Req_le _ _ Hrow) b Hb) as Hz.
    simpl in Hz. destruct (Rmult_integral _ _ Hz); lra. }
  (* the vector vanishes on the boundary, hence, walking back one index at
     a time, everywhere *)
  assert (Hzero : forall m : nat, forall a, (0 <= a < N)%Z -> (a <= Z.of_nat m)%Z -> x a = 0).
  { induction m as [|m IH]; intros a Ha Hm.
    - assert (a = 0%Z) as -> by lia.
      destruct (bnd 0) eqn:Hb0.
      + pose proof (HB0 0%Z ltac:(apply elem_of_seqZ; lia)) as Hz. rewrite Hb0 in Hz.
        by destruct (Rmult_integral _ _ Hz).
      + pose proof (nb_range 0 (0 - 1) Ha (nb_pred 0 Ha Hb0)). lia.
    - destruct (decide (a <= Z.of_nat m)%Z) as [Hle' | Hgt]; [by apply IH|].
      destruct (bnd a) eqn:Hba.
      + pose proof (HB0 a ltac:(apply elem_of_seqZ; lia)) as Hz. rewrite Hba in Hz.
        by destruct (Rmult_integral _ _ Hz).
      + pose proof (nb_pred a Ha Hba) as Hp.
        pose proof (nb_range a (a - 1) Ha Hp) as Hpr.
        pose proof (HE0 a ltac:(apply elem_of_seqZ; lia) (a - 1)%Z Hp) as Heq.
        unfold inner in Heq. rewrite Hba in Heq.
        rewrite Heq. destruct (bnd (a - 1)); [done|]. apply IH; lia. }
  apply Hxi. apply elem_of_seqZ in Hi. apply (Hzero (Z.to_nat N)); lia.
Qed.

End SystemPD.

Lemma quad_form_ext {I} (idx : list I) (M M' : I -> I -> R) x :
  (forall i j, i ∈ idx -> j ∈ idx -> M i j = M' i j) ->
  quad_form idx M x = quad_form idx M' x.
Proof.
  intros HM. unfold quad_form. apply Rsum_ext. intros i Hi.
  apply Rsum_ext. intros j Hj. by rewrite HM.
Qed.

Lemma pos_def_ext {I} (idx : list I) (M M' : I -> I -> R) :
  (forall i j, i ∈ idx -> j ∈ idx -> M i j = M' i j) -> pos_def idx M -> pos_def idx M'.
Proof. intros HM Hpd x Hx. rewrite <- (quad_form_ext idx M M' x HM). by apply Hpd. Qed.

(** The neighbour lists of the grid have the properties the argument
    needs. *)
Lemma grid_neighbors_NoDup n dimension p :
  1 <= n -> dimension = 2 \/ dimension = 3 ->
  0 <= p < num_points n dimension -> NoDup (grid_neighbors n dimension p).
Proof.
  intros Hn [-> | ->] Hp; unfold num_points, grid_neighbors in *; simpl in *.
  - destruct (index_has_coords_2d n p Hn Hp) as (i & j & Hi & Hj & ->).
    apply NoDup_get_neighbors_2d; lia.
  - destruct (index_has_coords_3d n p Hn Hp) as (i & j & k & Hi & Hj & Hk & ->).
    apply NoDup_get_neighbors_3d; lia.
Qed.

Lemma grid_neighbors_interior n dimension p :
  1 <= n -> dimension = 2 \/ dimension = 3 ->
  0 <= p < num_points n dimension -> grid_boundary n dimension p = false ->
  Z.of_nat (length (grid_neighbors n dimension p)) = grid_diagonal dimension /\
  p - 1 ∈ grid_neighbors n dimension p.
Proof.
  intros Hn [-> | ->] Hp;
    unfold num_points, grid_neighbors, grid_boundary, grid_diagonal in *; simpl in *.
  - destruct (index_has_coords_2d n p Hn Hp) as (i & j & Hi & Hj & ->).
    rewrite on_boundary_2d_coords by lia. intros Hb.
    rewrite length_get_neighbors_2d, elem_of_get_neighbors_2d by lia.
    assert ((0 <? j) = true) as -> by lia. assert ((j <? n - 1) = true) as -> by lia.
    assert ((0 <? i) = true) as -> by lia. assert ((i <? n - 1) = true) as -> by lia.
    simpl. lia.
  - destruct (index_has_coords_3d n p Hn Hp) as (i & j & k & Hi & Hj & Hk & ->).
    rewrite on_boundary_3d_coords by lia. intros Hb.
    rewrite length_get_neighbors_3d by lia.
    rewrite (elem_of_get_neighbors_3d n i j k) by lia.
    assert ((0 <? k) = true) as -> by lia. assert ((k <? n - 1) = true) as -> by lia.
    assert ((0 <? j) = true) as -> by lia. assert ((j <? n - 1) = true) as -> by lia.
    assert ((0 <? i) = true) as -> by lia. assert ((i <? n - 1) = true) as -> by lia.
    simpl. lia.
Qed.

(** Reading an entry of a matrix whose stored entries are those of
    [system_lookup]. *)
Lemma sp_get_system_lookup A N bnd diag nbrs p q :
  (forall k, entries A !! k = system_lookup N bnd diag nbrs k) ->
  sp_get A p q =
  if decide (0 <= p < N /\ 0 <= q < N) then system_entry bnd diag nbrs p q else 0.
Proof.
  intros HA. unfold sp_get. rewrite HA. unfold system_lookup. simpl.
  goal_decide; simpl; try done; try lia; tauto.
Qed.

Lemma grid_entry_sym n dimension a b :
  1 <= n -> dimension = 2 \/ dimension = 3 ->
  0 <= a < num_points n dimension -> 0 <= b < num_points n dimension ->
  grid_entry n dimension a b = grid_entry n dimension b a.
Proof.
  intros Hn HD Ha Hb. unfold grid_entry.
  apply (system_entry_sym (num_points n dimension)); try done.
  intros p q Hp Hq. by apply grid_neighbors_sym.
Qed.

Lemma grid_pos_def n dimension :
  1 <= n -> dimension = 2 \/ dimension = 3 ->
  pos_def (seqZ 0 (num_points n dimension)) (fun a b => IZR (grid_entry n dimension a b)).
Proof.
  intros Hn HD. unfold grid_entry.
  apply (system_pos_def (num_points n dimension)).
  - intros p Hp. by apply grid_neighbors_NoDup.
  - intros p q Hp. by apply grid_neighbors_range.
  - intros p q Hp Hq. by apply grid_neighbors_sym.
  - intros p Hp. by apply grid_neighbors_irrefl.
  - intros p Hp Hb. by apply grid_neighbors_interior.
  - intros p Hp Hb. by apply grid_neighbors_interior.
Qed.

(** The matrix the assembler returns, with all that is proved about it. *)
Lemma build_matrix_grid_entry {F : Type} `{Num F} n dimension :
  1 <= n -> dimension = 2 \/ dimension = 3 ->
  let N := num_points n dimension in
  exists A b,
    build_matrix_and_rhs (F := F) n dimension = ([], (Some A, Some b)) /\
    nrows A = N /\ ncols A = N /\ length b = Z.to_nat N /\
    (forall k, entries A !! k =
               system_lookup N (grid_boundary n dimension) (grid_diagonal dimension)
                             (grid_neighbors n dimension) k) /\
    (forall p q, sp_get A p q =
                 if decide (0 <= p < N /\ 0 <= q < N) then grid_entry n dimension p q else 0).
Proof.
  intros Hn HD N.
  destruct (build_matrix_and_rhs_spec (F := F) n dimension Hn HD)
    as (A & b & Hbuild & Hr & Hc & HA & Hl & _).
  exists A, b. repeat split; try done.
  intros p q. by apply sp_get_system_lookup.
Qed.

(** The assembled matrix with its symmetry and positive definiteness. *)
Lemma build_matrix_facts {F : Type} `{Num F} (n dimension : Z) :
  1 <= n -> dimension = 2 \/ dimension = 3 ->
  let N := num_points n dimension in
  exists A b,
    build_matrix_and_rhs (F := F) n dimension = ([], (Some A, Some b)) /\
    nrows A = N /\ ncols A = N /\ length b = Z.to_nat N /\
    (forall k, entries A !! k =
               system_lookup N (grid_boundary n dimension) (grid_diagonal dimension)
                             (grid_neighbors n dimension) k) /\
    (forall p q, sp_get A p q =
                 if decide (0 <= p < N /\ 0 <= q < N) then grid_entry n dimension p q else 0) /\
    (forall p q, sp_get A p q = sp_get A q p) /\
    pos_def (seqZ 0 N) (sp_real A).
Proof.
  intros Hn HD N.
  destruct (build_matrix_grid_entry (F := F) n dimension Hn HD)
    as (A & b & Hbuild & Hr & Hc & Hl & Hlook & Hget).
  exists A, b. do 6 (split; [done|]). split.
  - intros p q. rewrite !Hget.
    destruct (decide (0 <= p < _ /\ 0 <= q < _)) as [Hpq | Hpq].
    + rewrite decide_True by tauto. apply grid_entry_sym; tauto.
    + rewrite decide_False by tauto. done.
  - apply (pos_def_ext _ (fun a b => IZR (grid_entry n dimension a b))).
    + intros p q Hp Hq. apply elem_of_seqZ in Hp, Hq. unfold sp_real.
      rewrite Hget, decide_True by lia. done.
    + by apply grid_pos_def.
Qed.

(** C3.  For [n >= 1] and [D] 2 or 3 the matrix returned by the assembler
    is exactly symmetric and positive definite: [x^T A x > 0] for every
    real vector that is not zero, and so every real eigenvalue is
    positive (a real symmetric matrix has no others). *)
Theorem assembled_matrix_spd {F : Type} `{Num F} (n dimension : Z) :
  1 <= n -> dimension = 2 \/ dimension = 3 ->
  exists A b,
    build_matrix_and_rhs (F := F) n dimension = ([], (Some A, Some b)) /\
    nrows A = num_points n dimension /\ ncols A = num_points n dimension /\
    (forall p q, sp_get A p q = sp_get A q p) /\
    pos_def (seqZ 0 (num_points n dimension)) (sp_real A) /\
    (forall lam x, eigenpair (seqZ 0 (num_points n dimension)) (sp_real A) lam x ->
                   (0 < lam)%R).
Proof.
  intros Hn HD.
  destruct (build_matrix_facts (F := F) n dimension Hn HD)
    as (A & b & Hbuild & Hr & Hc & _ & _ & _ & Hsym & Hpd).
  exists A, b. do 5 (split; [done|]).
  intros lam x Heig. by apply (pos_def_eigenvalues _ _ _ _ Hpd Heig).
Qed.

(** The statement on the 4 x 4 grid, the smallest with coupled unknowns. *)
Lemma assembled_matrix_spd_witness :
  exists A b,
    build_matrix_and_rhs (F := R) 4 2 = ([], (Some A, Some b)) /\
    nrows A = num_points 4 2 /\ ncols A = num_points 4 2 /\
    (forall p q, sp_get A p q = sp_get A q p) /\
    pos_def (seqZ 0 (num_points 4 2)) (sp_real A) /\
    (forall lam x, eigenpair (seqZ 0 (num_points 4 2)) (sp_real A) lam x -> (0 < lam)%R).
Proof.
  apply (assembled_matrix_spd 4 2); [lia | by left].
Defined.

(** * Dense arrays over the real numbers *)

Section DenseFacts.
Local Open Scope R_scope.
Implicit Types (u v : list R) (M : list (list R)).

Lemma foldl_Rplus {A} (g : A -> R) (l : list A) (a : R) :
  foldl (fun s x => s + g x) a l = a + Rsum g l.
Proof.
  revert a. induction l as [|x l IH]; intros a; simpl; [lra|]. rewrite IH. lra.
Qed.

Lemma dot_Rsum_zip u v : dot u v = Rsum (fun ab => ab.1 * ab.2) (zip u v).
Proof.
  unfold dot.
  rewrite <- (Rplus_0_l (Rsum _ _)).
  exact (foldl_Rplus (fun ab : R * R => ab.1 * ab.2) (zip u v) 0).
Qed.

Lemma Rsum_zip_nth u v :
  Rsum (fun ab => ab.1 * ab.2) (zip u v) =
  Rsum (fun k => nth k u 0 * nth k v 0) (seq 0 (min (length u) (length v))).
Proof.
  revert v. induction u as [|a u IH]; intros [|b v]; simpl; try done.
  rewrite IH. f_equal. rewrite <- (fmap_S_seq 0), Rsum_fmap. done.
Qed.

(** The dot product of two prefixes. *)
Lemma dot_take u v (m : nat) :
  (m <= length u)%nat -> (m <= length v)%nat ->
  dot (take m u) (take m v) = Rsum (fun k => nth k u 0 * nth k v 0) (seq 0 m).
Proof.
  intros Hu Hv. rewrite dot_Rsum_zip, Rsum_zip_nth, !length_take.
  replace (min (m `min` length u) (m `min` length v)) with m by lia.
  apply Rsum_ext. intros k Hk. apply elem_of_seq in Hk.
  rewrite !nth_lookup, !lookup_take_lt by lia. done.
Qed.

(** The dot product of two suffixes. *)
Lemma dot_drop u v (m n : nat) :
  length u = n -> length v = n -> (m <= n)%nat ->
  dot (drop m u) (drop m v) = Rsum (fun k => nth k u 0 * nth k v 0) (seq m (n - m)).
Proof.
  intros Hu Hv Hm. rewrite dot_Rsum_zip, Rsum_zip_nth, !length_drop, Hu, Hv.
  replace (min (n - m) (n - m)) with (n - m)%nat by lia.
  replace (seq m (n - m)) with (Nat.add m <$> seq 0 (n - m))
    by (rewrite fmap_add_seq; f_equal; lia).
  rewrite Rsum_fmap. apply Rsum_ext. intros k Hk.
  rewrite !nth_lookup, !lookup_drop. done.
Qed.

Lemma mget_mset M i j x i' j' :
  (i < length M)%nat -> (j < length (mrow M i))%nat ->
  mget (mset M i j x) i' j' = if decide (i' = i /\ j' = j) then x else mget M i' j'.
Proof.
  intros Hi Hj. unfold mget, mset, mrow in *.
  rewrite !nth_lookup in *.
  destruct (decide (i' = i)) as [-> | Hne].
  - rewrite list_lookup_alter_eq.
    destruct (lookup_lt_is_Some_2 M i Hi) as [r Hr]. rewrite Hr in *. simpl in *.
    destruct (decide (j' = j)) as [-> | Hnej].
    + rewrite decide_True by done. by rewrite list_lookup_insert_eq.
    + rewrite decide_False by tauto. by rewrite list_lookup_insert_ne.
  - rewrite decide_False by tauto. by rewrite list_lookup_alter_ne.
Qed.

Lemma well_shaped_mset n M i j x : well_shaped n M -> well_shaped n (mset M i j x).
Proof.
  intros [Hl Hr]. unfold well_shaped, mset, mrow in *. split.
  - by rewrite length_alter.
  - intros i' Hi'. specialize (Hr i' Hi'). rewrite nth_lookup in *.
    destruct (decide (i = i')) as [-> | Hne].
    + rewrite list_lookup_alter_eq. destruct (M !! i'); simpl in *; [|done].
      by rewrite length_insert.
    + by rewrite list_lookup_alter_ne.
Qed.

(** Rows of a well-shaped array, entry by entry. *)
Lemma mrow_take_Rsum n M i i' (m : nat) :
  well_shaped n M -> (i < n)%nat -> (i' < n)%nat -> (m <= n)%nat ->
  dot (take m (mrow M i)) (take m (mrow M i')) =
  Rsum (fun k => mget M i k * mget M i' k) (seq 0 m).
Proof.
  intros [Hl Hr] Hi Hi' Hm. rewrite dot_take; [done | |]; rewrite Hr; lia.
Qed.

Lemma well_shaped_zeros n : well_shaped n (replicate n (np_zeros n)).
Proof.
  split; [apply length_replicate|]. intros i Hi. unfold mrow.
  rewrite nth_lookup, lookup_replicate_2 by done. apply length_np_zeros.
Qed.

Lemma mget_zeros n i j : mget (replicate n (np_zeros n)) i j = 0.
Proof.
  unfold mget, mrow. rewrite !nth_lookup.
  destruct (replicate n (np_zeros n) !! i) as [r|] eqn:Er; simpl.
  - apply lookup_replicate in Er as [-> _]. unfold np_zeros.
    destruct (replicate n (of_Z 0%Z) !! j) as [x|] eqn:Ex; simpl; [|done].
    by apply lookup_replicate in Ex as [-> _].
  - done.
Qed.

End DenseFacts.

(** * Forward and backward substitution *)

Section Substitution.
Local Open Scope R_scope.
Implicit Types (L U : list (list R)) (b x y : list R).

Lemma nth_insert_eq {A} (l : list A) (i : nat) (v d : A) :
  (i < length l)%nat -> nth i (<[i := v]> l) d = v.
Proof. intros Hi. by rewrite nth_lookup, list_lookup_insert_eq. Qed.

Lemma nth_insert_ne {A} (l : list A) (i j : nat) (v d : A) :
  i <> j -> nth j (<[i := v]> l) d = nth j l d.
Proof. intros Hi. by rewrite !nth_lookup, list_lookup_insert_ne. Qed.

(** The loop of [forward_substitution] after its first [m] rounds. *)
Lemma forward_substitution_prefix L b (n m : nat) :
  length b = n -> well_shaped n L -> (forall i, (i < n)%nat -> mget L i i <> 0) ->
  (m <= n)%nat ->
  let y := foldl (fun y i =>
                    <[i := fdiv (fsub (nth i b (of_Z 0%Z))
                                      (dot (take i (mrow L i)) (take i y)))
                                (mget L i i)]> y)
                 (np_zeros n) (seq 0 m) in
  length y = n /\
  forall i, (i < m)%nat ->
    nth i y 0 * mget L i i =
    nth i b 0 - Rsum (fun k => mget L i k * nth k y 0) (seq 0 i).
Proof.
  intros Hb [HL Hrow] Hd. induction m as [|m IH]; intros Hm y.
  - subst y. simpl. split; [apply length_np_zeros | intros; lia].
  - destruct (IH ltac:(lia)) as [IHl IHy]. clear IH. subst y.
    rewrite seq_S. change (0 + m)%nat with m. rewrite foldl_snoc.
    set (y := foldl _ _ (seq 0 m)) in *.
    split; [by rewrite length_insert|].
    intros i Hi. destruct (decide (i = m)) as [-> | Hne].
    + rewrite nth_insert_eq by lia.
      rewrite dot_take by (rewrite ?Hrow; lia).
      change (fdiv ?a ?c) with (a / c). change (fsub ?a ?c) with (a - c).
      change (of_Z 0%Z) with 0.
      rewrite (Rsum_ext (fun k => mget L m k * nth k (<[m := _]> y) 0)
                        (fun k => nth k (mrow L m) 0 * nth k y 0)).
      * field. apply Hd. lia.
      * intros k Hk. apply elem_of_seq in Hk. rewrite nth_insert_ne by lia. done.
    + rewrite nth_insert_ne by lia. rewrite IHy by lia. f_equal.
      apply Rsum_ext. intros k Hk. apply elem_of_seq in Hk.
      by rewrite nth_insert_ne by lia.
Qed.

(** The loop of [backward_substitution] after its first [m] rounds. *)
Lemma backward_substitution_prefix U y (n m : nat) :
  length y = n -> well_shaped n U -> (forall i, (i < n)%nat -> mget U i i <> 0) ->
  (m <= n)%nat ->
  let x := foldl (fun x i =>
                    <[i := fdiv (fsub (nth i y (of_Z 0%Z))
                                      (dot (drop (S i) (mrow U i)) (drop (S i) x)))
                                (mget U i i)]> x)
                 (np_zeros n) (rev (seq (n - m) m)) in
  length x = n /\
  forall i, (n - m <= i)%nat -> (i < n)%nat ->
    nth i x 0 * mget U i i =
    nth i y 0 - Rsum (fun k => mget U i k * nth k x 0) (seq (S i) (n - S i)).
Proof.
  intros Hy [HU Hrow] Hd. induction m as [|m IH]; intros Hm x.
  - subst x. simpl. split; [apply length_np_zeros | intros; lia].
  - destruct (IH ltac:(lia)) as [IHl IHx]. clear IH. subst x.
    replace (seq (n - S m) (S m)) with ((n - S m)%nat :: seq (n - m) m)
      by (simpl; do 2 f_equal; lia).
    simpl rev. rewrite foldl_snoc.
    set (x := foldl _ _ (rev (seq (n - m) m))) in *.
    set (i0 := (n - S m)%nat).
    split; [by rewrite length_insert|].
    intros i Hi Hin. destruct (decide (i = i0)) as [-> | Hne].
    + rewrite nth_insert_eq by lia.
      rewrite (dot_drop _ _ (S i0) n) by (rewrite ?Hrow; lia).
      change (fdiv ?a ?c) with (a / c). change (fsub ?a ?c) with (a - c).
      change (of_Z 0%Z) with 0.
      rewrite (Rsum_ext (fun k => mget U i0 k * nth k (<[i0 := _]> x) 0)
                        (fun k => nth k (mrow U i0) 0 * nth k x 0)).
      * field. apply Hd. lia.
      * intros k Hk. apply elem_of_seq in Hk. rewrite nth_insert_ne by lia. done.
    + rewrite nth_insert_ne by lia. rewrite IHx by lia. f_equal.
      apply Rsum_ext. intros k Hk. apply elem_of_seq in Hk.
      by rewrite nth_insert_ne by lia.
Qed.

Lemma Rsum_seq_split (f : nat -> R) (n i : nat) :
  (i < n)%nat ->
  Rsum f (seq 0 n) = Rsum f (seq 0 i) + f i + Rsum f (seq (S i) (n - S i)).
Proof.
  intros Hi. replace n with (i + S (n - S i))%nat at 1 by lia.
  rewrite seq_app, Rsum_app. simpl. lra.
Qed.

Lemma Rsum_all_zero {A} (f : A -> R) (l : list A) :
  (forall a, a ∈ l -> f a = 0) -> Rsum f l = 0.
Proof. intros Hf. rewrite (Rsum_ext f (fun _ => 0)) by done. apply Rsum_zero. Qed.

(** [forward_substitution] solves a lower triangular system. *)
Lemma forward_substitution_solves L b (n : nat) :
  length b = n -> well_shaped n L -> lower_triangular n L ->
  (forall i, (i < n)%nat -> mget L i i <> 0) ->
  length (forward_substitution L b) = n /\
  forall i, (i < n)%nat -> mat_vec n (mget L) (forward_substitution L b) i = nth i b 0.
Proof.
  intros Hb HL Hlow Hd. unfold forward_substitution. rewrite Hb.
  destruct (forward_substitution_prefix L b n n Hb HL Hd (le_n _)) as [Hl Hy].
  split; [exact Hl|]. intros i Hi. unfold mat_vec.
  rewrite (Rsum_seq_split _ n i Hi), (Rsum_all_zero _ (seq (S i) _)).
  - specialize (Hy i Hi). lra.
  - intros k Hk. apply elem_of_seq in Hk. rewrite (Hlow i k) by lia. lra.
Qed.

(** [backward_substitution] solves an upper triangular system. *)
Lemma backward_substitution_solves U y (n : nat) :
  length y = n -> well_shaped n U ->
  (forall i k, (k < i)%nat -> (i < n)%nat -> mget U i k = 0) ->
  (forall i, (i < n)%nat -> mget U i i <> 0) ->
  length (backward_substitution U y) = n /\
  forall i, (i < n)%nat -> mat_vec n (mget U) (backward_substitution U y) i = nth i y 0.
Proof.
  intros Hy HU Hup Hd. unfold backward_substitution. rewrite Hy.
  destruct (backward_substitution_prefix U y n n Hy HU Hd (le_n _)) as [Hl Hx].
  rewrite Nat.sub_diag in Hl, Hx.
  split; [exact Hl|]. intros i Hi. unfold mat_vec.
  rewrite (Rsum_seq_split _ n i Hi), (Rsum_all_zero _ (seq 0 i)).
  - specialize (Hx i ltac:(lia) Hi). lra.
  - intros k Hk. apply elem_of_seq in Hk. rewrite (Hup i k) by lia. lra.
Qed.

(** The transpose of a square array. *)
Lemma transpose_spec L (n : nat) :
  well_shaped n L ->
  well_shaped n (transpose L) /\
  forall i k, (i < n)%nat -> (k < n)%nat -> mget (transpose L) i k = mget L k i.
Proof.
  intros [HL Hrow]. unfold transpose.
  destruct n as [|n].
  - destruct L; [|done]. simpl. split; [split; [done | intros; lia] | intros; lia].
  - rewrite (Hrow 0%nat) by lia.
    assert (Hr : forall i, (i < S n)%nat ->
              mrow ((fun j => (fun r => nth j r (of_Z 0%Z)) <$> L) <$> seq 0 (S n)) i =
              (fun r => nth i r 0) <$> L).
    { intros i Hi. unfold mrow at 1. rewrite nth_lookup, list_lookup_fmap.
      rewrite lookup_seq_lt by done. done. }
    split; [split|].
    + by rewrite length_fmap, length_seq.
    + intros i Hi. rewrite Hr by done. by rewrite length_fmap.
    + intros i k Hi Hk. unfold mget at 1. rewrite Hr by done.
      rewrite nth_lookup, list_lookup_fmap. unfold mget, mrow.
      rewrite (nth_lookup L).
      destruct (lookup_lt_is_Some_2 L k ltac:(lia)) as [r ->]. done.
Qed.

End Substitution.

(** C4.  In exact arithmetic, for an [n x n] lower triangular [L] with
    non-zero diagonal and a vector [b] of length [n]:
    [forward_substitution(L, b)] returns [y] with [L y = b];
    [backward_substitution(L^T, y)] returns [x] with [L^T x = y]; and for
    a problem object holding the factor [L] and the right-hand side [b],
    [solve_cholesky] returns that [x], which satisfies [A x = b] whenever
    [L L^T = A] for the stored matrix [A]. *)
Theorem triangular_solves_exact (L : list (list R)) (b : list R) (n : nat) :
  length b = n -> well_shaped n L -> lower_triangular n L ->
  (forall i, (i < n)%nat -> mget L i i <> 0%R) ->
  let y := forward_substitution L b in
  let x := backward_substitution (transpose L) y in
  (length y = n /\ forall i, (i < n)%nat -> mat_vec n (mget L) y i = nth i b 0%R) /\
  (length x = n /\
   forall i, (i < n)%nat -> mat_vec n (fun i k => mget L k i) x i = nth i y 0%R) /\
  (forall self : @Problem R,
     cholesky_factor self = L -> rhs self = b ->
     (forall i j, (i < n)%nat -> (j < n)%nat -> L_Lt n L i j = sp_dense (matrix self) i j) ->
     solve_cholesky self = x /\
     forall i, (i < n)%nat -> mat_vec n (sp_dense (matrix self)) x i = nth i b 0%R).
Proof.
  intros Hb HL Hlow Hd y x.
  destruct (forward_substitution_solves L b n Hb HL Hlow Hd) as [Hly Hy].
  fold y in Hly, Hy.
  destruct (transpose_spec L n HL) as [HLt Ht].
  destruct (backward_substitution_solves (transpose L) y n Hly HLt) as [Hlx Hx].
  { intros i k Hk Hi. rewrite Ht by lia. apply Hlow; lia. }
  { intros i Hi. rewrite Ht by lia. by apply Hd. }
  fold x in Hlx, Hx.
  assert (Hx' : forall i, (i < n)%nat ->
            mat_vec n (fun i k => mget L k i) x i = nth i y 0%R).
  { intros i Hi. rewrite <- (Hx i Hi). unfold mat_vec. apply Rsum_ext.
    intros k Hk. apply elem_of_seq in Hk. rewrite Ht by lia. done. }
  split; [done|]. split; [done|].
  intros self HsL Hsb HA. split.
  - unfold solve_cholesky. by rewrite HsL, Hsb.
  - intros i Hi. rewrite <- (Hy i Hi). unfold mat_vec.
    rewrite (Rsum_ext _ (fun j => Rsum (fun k => mget L i k * (mget L j k * nth j x 0))%R
                                       (seq 0 n))).
    2:{ intros j Hj. apply elem_of_seq in Hj. rewrite <- HA by lia. unfold L_Lt.
        rewrite <- Rsum_scal_r. apply Rsum_ext. intros; lra. }
    rewrite Rsum_swap. apply Rsum_ext. intros k Hk. apply elem_of_seq in Hk.
    rewrite Rsum_scal. f_equal. rewrite <- (Hx' k) by lia. done.
Qed.

(** The statement for the factor [[2, 0], [1, 1]] and [b = [2, 3]]. *)
Lemma triangular_solves_exact_witness :
  let L := [[2; 0]; [1; 1]]%R in
  let b := [2; 3]%R in
  let y := forward_substitution L b in
  let x := backward_substitution (transpose L) y in
  (length y = 2%nat /\
   forall i, (i < 2)%nat -> mat_vec 2 (mget L) y i = nth i b 0%R) /\
  (length x = 2%nat /\
   forall i, (i < 2)%nat -> mat_vec 2 (fun i k => mget L k i) x i = nth i y 0%R) /\
  (forall self : @Problem R,
     cholesky_factor self = L -> rhs self = b ->
     (forall i j, (i < 2)%nat -> (j < 2)%nat -> L_Lt 2 L i j = sp_dense (matrix self) i j) ->
     solve_cholesky self = x /\
     forall i, (i < 2)%nat -> mat_vec 2 (sp_dense (matrix self)) x i = nth i b 0%R).
Proof.
  apply (triangular_solves_exact [[2; 0]; [1; 1]]%R [2; 3]%R 2).
  - reflexivity.
  - split; [reflexivity|]. intros [|[|i]] Hi; [reflexivity | reflexivity | lia].
  - intros [|[|i]] [|[|j]] Hij Hj; try lia. reflexivity.
  - intros [|[|i]] Hi; [cbv [mget mrow nth]; lra | cbv [mget mrow nth]; lra | lia].
Defined.

(** * The Cholesky factorisation *)

Section Reindex.
Context {I J : Type} `{EqDecision J}.
Local Open Scope R_scope.

(** Positive definiteness is carried along a relabelling of the indices. *)
Lemma pos_def_reindex (idx : list I) (idx' : list J) (pi : I -> J) (M : J -> J -> R) :
  NoDup idx' -> pi <$> idx ≡ₚ idx' ->
  pos_def idx' M -> pos_def idx (fun a b => M (pi a) (pi b)).
Proof.
  intros Hnd Hperm Hpd x' (i0 & Hi0 & Hx0).
  assert (Hnd' : NoDup (pi <$> idx)) by (by rewrite Hperm).
  set (x := fun q : J =>
              match list_find (fun a => pi a = q) idx with
              | Some (_, a) => x' a
              | None => 0
              end).
  assert (Hx : forall a, a ∈ idx -> x (pi a) = x' a).
  { intros a Ha. unfold x.
    destruct (list_find (fun a0 => pi a0 = pi a) idx) as [[k a']|] eqn:Hf.
    - apply list_find_Some in Hf as (Hk & Heq & _).
      apply list_elem_of_lookup in Ha as [k' Hk'].
      assert (k = k') as ->.
      { apply (NoDup_lookup (pi <$> idx) k k' (pi a)); [done | |].
        - by rewrite list_lookup_fmap, Hk; simpl; rewrite Heq.
        - by rewrite list_lookup_fmap, Hk'. }
      congruence.
    - apply list_find_None in Hf. rewrite Forall_forall in Hf.
      by destruct (Hf a Ha). }
  assert (Hq : quad_form idx (fun a b => M (pi a) (pi b)) x' = quad_form idx' M x).
  { unfold quad_form.
    rewrite <- (Rsum_perm _ _ _ Hperm), Rsum_fmap.
    apply Rsum_ext. intros a Ha.
    rewrite <- (Rsum_perm _ _ _ Hperm), Rsum_fmap.
    apply Rsum_ext. intros b Hb. by rewrite !Hx. }
  rewrite Hq. apply Hpd. exists (pi i0). split.
  - rewrite <- Hperm. by apply list_elem_of_fmap_2.
  - by rewrite Hx.
Qed.

End Reindex.

Section CholeskyAlgebra.
Local Open Scope R_scope.

Lemma Rsum_seq_S (f : nat -> R) (m : nat) :
  Rsum f (seq 0 (S m)) = Rsum f (seq 0 m) + f m.
Proof. rewrite seq_S, Rsum_app. simpl. lra. Qed.

Lemma Rsum_seq_truncate (f : nat -> R) (n m : nat) :
  (m <= n)%nat -> (forall k, (m <= k)%nat -> (k < n)%nat -> f k = 0) ->
  Rsum f (seq 0 n) = Rsum f (seq 0 m).
Proof.
  intros Hm Hf. replace n with (m + (n - m))%nat at 1 by lia.
  rewrite seq_app, Rsum_app, (Rsum_all_zero _ (seq (0 + m) _)); [lra|].
  intros k Hk. apply elem_of_seq in Hk. apply Hf; lia.
Qed.

(** An upper triangular system with non-zero diagonal has a solution. *)
Lemma upper_triangular_solvable (m : nat) (U : nat -> nat -> R) (c : nat -> R) :
  (forall k, (k < m)%nat -> U k k <> 0) ->
  (forall k a, (a < k)%nat -> (k < m)%nat -> U k a = 0) ->
  exists z : nat -> R,
    forall k, (k < m)%nat -> Rsum (fun a => U k a * z a) (seq 0 m) = c k.
Proof.
  revert c. induction m as [|m IH]; intros c Hd Hup.
  - exists (fun _ => 0). intros; lia.
  - set (zm := c m / U m m).
    destruct (IH (fun k => c k - U k m * zm)) as [z Hz].
    { intros k Hk. apply Hd. lia. }
    { intros k a Ha Hk. apply Hup; lia. }
    exists (fun a => if decide (a = m) then zm else z a).
    intros k Hk. rewrite Rsum_seq_S, decide_True by done.
    rewrite (Rsum_ext _ (fun a => U k a * z a)).
    2:{ intros a Ha. apply elem_of_seq in Ha. rewrite decide_False by lia. done. }
    destruct (decide (k = m)) as [-> | Hne].
    + rewrite Rsum_all_zero.
      * unfold zm. field. apply Hd. lia.
      * intros a Ha. apply elem_of_seq in Ha. rewrite Hup by lia. lra.
    + rewrite Hz by lia. lra.
Qed.

(** A double sum of products, factored. *)
Lemma Rsum_gram (l : list nat) (K : list nat) (u : nat -> nat -> R) (x : nat -> R) :
  Rsum (fun a => Rsum (fun b => Rsum (fun k => u a k * u b k) K * x a * x b) l) l =
  Rsum (fun k => Rsum (fun a => u a k * x a) l * Rsum (fun a => u a k * x a) l) K.
Proof.
  rewrite (Rsum_ext _ (fun a => Rsum (fun k => (u a k * x a) *
                                               Rsum (fun b => u b k * x b) l) K)).
  2:{ intros a _.
      rewrite (Rsum_ext _ (fun b => Rsum (fun k => (u a k * x a) * (u b k * x b)) K)).
      2:{ intros b _. rewrite <- !Rsum_scal_r. apply Rsum_ext. intros; lra. }
      rewrite Rsum_swap. apply Rsum_ext. intros k _. by rewrite Rsum_scal. }
  rewrite Rsum_swap. apply Rsum_ext. intros k _. by rewrite Rsum_scal_r.
Qed.

End CholeskyAlgebra.

Section CholeskySteps.
Local Open Scope R_scope.
Variables (n : nat) (A : list (list R)).
Hypothesis A_shape : well_shaped n A.
Hypothesis A_sym : forall i j, (i < n)%nat -> (j < n)%nat -> mget A i j = mget A j i.

(** With [m] columns done, the products of the rows reproduce [A] wherever
    one of the two rows is among the first [m]. *)
Lemma cholesky_columns_product (m : nat) L a b :
  cholesky_columns n A m L -> (m < n)%nat ->
  (a <= m)%nat -> (b <= m)%nat -> ~ (a = m /\ b = m) ->
  mget A a b = Rsum (fun k => mget L a k * mget L b k) (seq 0 m).
Proof.
  intros (HL & Hz & Hdiag & Hoff) Hm.
  assert (Hlow : forall a b, (b < a)%nat -> (a <= m)%nat ->
            mget A a b = Rsum (fun k => mget L a k * mget L b k) (seq 0 m)).
  { clear a b. intros a b Hba Ham.
    rewrite (Rsum_seq_split _ m b) by lia.
    rewrite (Rsum_all_zero _ (seq (S b) _)).
    - pose proof (Hoff a b ltac:(lia) Hba ltac:(lia)). lra.
    - intros k Hk. apply elem_of_seq in Hk.
      rewrite (Hz b k) by lia. lra. }
  intros Ha Hb Hab.
  destruct (lt_eq_lt_dec a b) as [[Hlt | ->] | Hgt].
  - rewrite A_sym by lia. rewrite (Hlow b a) by lia.
    apply Rsum_ext. intros; lra.
  - rewrite (Rsum_seq_split _ m b) by lia.
    rewrite (Rsum_all_zero _ (seq (S b) _)).
    + pose proof (Hdiag b ltac:(lia)) as [_ Hd]. lra.
    + intros k Hk. apply elem_of_seq in Hk.
      rewrite (Hz b k) by lia. lra.
  - by apply Hlow.
Qed.

(** The term under the square root of column [m] is a value of the
    quadratic form of [A], hence positive. *)
Lemma cholesky_pivot_positive (m : nat) L :
  pos_def (seq 0 n) (mget A) ->
  cholesky_columns n A m L -> (m < n)%nat ->
  0 < mget A m m - Rsum (fun k => mget L m k * mget L m k) (seq 0 m).
Proof.
  intros Hpd HC Hm. pose proof HC as (HL & Hz & Hdiag & Hoff).
  destruct (upper_triangular_solvable m (fun k a => mget L a k) (fun k => - mget L m k))
    as [z Hzsol].
  { intros k Hk. pose proof (Hdiag k Hk) as [Hpos _]. lra. }
  { intros k a Ha Hk. apply Hz; lia. }
  set (x := fun a : nat => if decide (a < m)%nat then z a
                           else if decide (a = m) then 1 else 0).
  set (s := mget A m m - Rsum (fun k => mget L m k * mget L m k) (seq 0 m)).
  assert (Hq : quad_form (seq 0 n) (mget A) x = s); [|rewrite <- Hq; apply Hpd].
  2:{ exists m. split; [apply elem_of_seq; lia|]. unfold x.
      rewrite decide_False by lia. rewrite decide_True by done. lra. }
  assert (Hx0 : forall a, (S m <= a)%nat -> x a = 0).
  { intros a Ha. unfold x. rewrite !decide_False by lia. done. }
  unfold quad_form.
  rewrite (Rsum_seq_truncate _ n (S m)) by
    (try lia; intros a Ha _; apply Rsum_all_zero; intros b _; rewrite (Hx0 a Ha); lra).
  rewrite (Rsum_ext _ (fun a => Rsum (fun b => mget A a b * x a * x b) (seq 0 (S m)))) by
    (intros a _; apply Rsum_seq_truncate; [lia | intros b Hb _; rewrite (Hx0 b Hb); lra]).
  (* split [A] into the products of rows and the pivot term *)
  rewrite (Rsum_ext _ (fun a => Rsum (fun b =>
             Rsum (fun k => mget L a k * mget L b k) (seq 0 m) * x a * x b) (seq 0 (S m)) +
             (if decide (a = m) then s else 0))).
  2:{ intros a Ha. apply elem_of_seq in Ha.
      rewrite !Rsum_seq_S.
      rewrite (Rsum_ext (fun b => mget A a b * x a * x b)
                 (fun b => Rsum (fun k => mget L a k * mget L b k) (seq 0 m) * x a * x b)).
      2:{ intros b Hb. apply elem_of_seq in Hb.
          rewrite (cholesky_columns_product m L a b HC Hm) by lia. done. }
      destruct (decide (a = m)) as [-> | Hne].
      - unfold s, x. rewrite decide_False by lia. rewrite decide_True by done. lra.
      - rewrite (cholesky_columns_product m L a m HC Hm) by lia. lra. }
  rewrite Rsum_plus, Rsum_gram.
  rewrite (Rsum_all_zero _ (seq 0 m)).
  - rewrite Rsum_seq_S, decide_True by done.
    rewrite (Rsum_all_zero _ (seq 0 m)); [lra|].
    intros a Ha. apply elem_of_seq in Ha. rewrite decide_False by lia. done.
  - intros k Hk. apply elem_of_seq in Hk.
    assert (Hw : Rsum (fun a => mget L a k * x a) (seq 0 (S m)) = 0); [|rewrite Hw; lra].
    rewrite Rsum_seq_S.
    rewrite (Rsum_ext _ (fun a => mget L a k * z a)).
    + rewrite (Hzsol k) by lia. unfold x.
      rewrite decide_False by lia. rewrite decide_True by done. lra.
    + intros a Ha. apply elem_of_seq in Ha. unfold x. rewrite decide_True by lia. done.
Qed.

(** The inner loop of a column: the entries below the diagonal. *)
Lemma cholesky_inner_loop (L1 : list (list R)) (d : R) (j a len : nat) :
  well_shaped n L1 -> (j < n)%nat -> (j < a)%nat -> (a + len <= n)%nat ->
  let L2 := foldl (fun L i =>
                     mset L i j
                       (fdiv (fsub (mget A i j)
                                   (dot (take j (mrow L i)) (take j (mrow L j)))) d))
                  L1 (seq a len) in
  well_shaped n L2 /\
  forall i' j', (i' < n)%nat -> (j' < n)%nat ->
    mget L2 i' j' =
    if decide (j' = j /\ (a <= i')%nat /\ (i' < a + len)%nat)
    then (mget A i' j - Rsum (fun k => mget L1 i' k * mget L1 j k) (seq 0 j)) / d
    else mget L1 i' j'.
Proof.
  intros HL1 Hj Ha. induction len as [|len IH]; intros Hlen L2.
  - subst L2. simpl. split; [done|]. intros i' j' Hi' Hj'.
    rewrite decide_False by lia. done.
  - destruct (IH ltac:(lia)) as [IHs IHe]. clear IH. subst L2.
    rewrite seq_S, foldl_snoc.
    set (L := foldl _ L1 (seq a len)) in *.
    split; [by apply well_shaped_mset|].
    intros i' j' Hi' Hj'.
    destruct IHs as [IHl IHr].
    rewrite mget_mset by (rewrite ?IHl, ?IHr; lia).
    destruct (decide (i' = (a + len)%nat /\ j' = j)) as [[-> ->] | Hne].
    + rewrite decide_True by lia.
      rewrite (mrow_take_Rsum n L) by (done || lia).
      change (fdiv ?u ?v) with (u / v). change (fsub ?u ?v) with (u - v).
      f_equal. f_equal. apply Rsum_ext. intros k Hk. apply elem_of_seq in Hk.
      rewrite !IHe by lia. rewrite !decide_False by lia. done.
    + rewrite IHe by lia.
      destruct (decide (j' = j /\ (a <= i')%nat /\ (i' < a + len)%nat)) as [Hd | Hd].
      * rewrite decide_True by lia. done.
      * rewrite decide_False by lia. done.
Qed.

(** One column of the factorisation. *)
Lemma cholesky_column_step (m : nat) L :
  pos_def (seq 0 n) (mget A) ->
  cholesky_columns n A m L -> (m < n)%nat ->
  exists L', cholesky_column A n L m = Some L' /\ cholesky_columns n A (S m) L'.
Proof.
  intros Hpd HC Hm. pose proof HC as (HL & Hz & Hdiag & Hoff).
  pose proof (cholesky_pivot_positive m L Hpd HC Hm) as Hs.
  unfold cholesky_column.
  rewrite (mrow_take_Rsum n L) by (done || lia).
  change (fsub ?u ?v) with (u - v).
  set (s := mget A m m - Rsum (fun k => mget L m k * mget L m k) (seq 0 m)) in *.
  change (is_pos s) with (if Rlt_dec 0 s then true else false).
  destruct (Rlt_dec 0 s) as [_ | Hn]; [|done].
  change (fsqrt s) with (R_sqrt.sqrt s).
  set (d := R_sqrt.sqrt s).
  assert (Hd : 0 < d) by (by apply sqrt_lt_R0).
  assert (Hdd : d * d = s) by (apply sqrt_sqrt; lra).
  eexists. split; [reflexivity|].
  pose proof (well_shaped_mset n L m m d HL) as HL1.
  assert (He1 : forall i' j', (i' < n)%nat -> (j' < n)%nat ->
            mget (mset L m m d) i' j' =
            if decide (i' = m /\ j' = m) then d else mget L i' j').
  { intros i' j' Hi' Hj'. destruct HL as [Hl Hr]. apply mget_mset; rewrite ?Hr; lia. }
  destruct (cholesky_inner_loop (mset L m m d) d m (S m) (n - S m) HL1 Hm
              ltac:(lia) ltac:(lia)) as [HL2 He2].
  set (L2 := foldl _ (mset L m m d) (seq (S m) (n - S m))) in *.
  (* the columns before [m] are those of [L] *)
  assert (Hold : forall i' j', (i' < n)%nat -> (j' < n)%nat -> j' <> m ->
            mget L2 i' j' = mget L i' j').
  { intros i' j' Hi' Hj' Hne. rewrite He2 by done. rewrite decide_False by lia.
    rewrite He1 by done. rewrite decide_False by lia. done. }
  assert (Hsum : forall i' j' (c : nat), (i' < n)%nat -> (j' < n)%nat -> (c <= m)%nat ->
            Rsum (fun k => mget L2 i' k * mget L2 j' k) (seq 0 c) =
            Rsum (fun k => mget L i' k * mget L j' k) (seq 0 c)).
  { intros i' j' c Hi' Hj' Hc. apply Rsum_ext. intros k Hk. apply elem_of_seq in Hk.
    rewrite !Hold by lia. done. }
  split; [exact HL2|]. split; [|split].
  - intros i j Hi Hj Hij. destruct (decide (j = m)) as [-> | Hne].
    + rewrite He2 by done. rewrite decide_False by lia.
      rewrite He1 by done. rewrite decide_False by lia. apply Hz; lia.
    + rewrite Hold by done. apply Hz; lia.
  - intros j Hj. destruct (decide (j = m)) as [-> | Hne].
    + rewrite He2 by done. rewrite decide_False by lia.
      rewrite He1 by done. rewrite decide_True by done.
      rewrite Hsum by lia. split; [done | by rewrite Hdd].
    + rewrite Hold, Hsum by lia. apply Hdiag. lia.
  - intros i j Hj Hji Hi. destruct (decide (j = m)) as [-> | Hne].
    + rewrite (He2 i m) by lia. rewrite decide_True by lia.
      rewrite (He2 m m) by lia. rewrite decide_False by lia.
      rewrite (He1 m m) by lia. rewrite decide_True by done.
      rewrite Hsum by lia.
      rewrite (Rsum_ext (fun k => mget (mset L m m d) i k * mget (mset L m m d) m k)
                        (fun k => mget L i k * mget L m k)).
      * field. lra.
      * intros k Hk. apply elem_of_seq in Hk. rewrite !He1 by lia.
        rewrite !decide_False by lia. done.
    + rewrite !Hold, Hsum by lia. apply Hoff; lia.
Qed.

(** Completeness and correctness of the factorisation: on a symmetric
    positive definite array it returns its Cholesky factor. *)
Lemma np_linalg_cholesky_spd :
  pos_def (seq 0 n) (mget A) ->
  exists L, np_linalg_cholesky A = Some L /\ cholesky_factor_of n A L.
Proof.
  intros Hpd. unfold np_linalg_cholesky, cholesky_factor_of.
  destruct A_shape as [-> _].
  assert (Hm : forall m, (m <= n)%nat ->
            exists L, foldl (fun Lo j => L ← Lo; cholesky_column A n L j)
                            (Some (replicate n (np_zeros n))) (seq 0 m) = Some L /\
                      cholesky_columns n A m L).
  { induction m as [|m IH]; intros Hle.
    - eexists. split; [reflexivity|]. split; [apply well_shaped_zeros|].
      split; [intros; apply mget_zeros|]. split; intros; lia.
    - destruct (IH ltac:(lia)) as (L & HL & HC).
      rewrite seq_S, foldl_snoc, HL. simpl.
      by apply cholesky_column_step. }
  by apply Hm.
Qed.

End CholeskySteps.

(** * Dense copies and the reordered matrix *)

Lemma toarray_spec (A : sparse) (N : Z) :
  nrows A = N -> ncols A = N ->
  well_shaped (Z.to_nat N) (toarray A) /\
  forall i j, (i < Z.to_nat N)%nat -> (j < Z.to_nat N)%nat ->
              mget (toarray A) i j = sp_dense A i j.
Proof.
  intros Hr Hc. unfold toarray. rewrite Hr, Hc.
  assert (Hrow : forall i, (i < Z.to_nat N)%nat ->
            mrow ((fun a => (fun b => of_Z (sp_get A a b)) <$> seqZ 0 N) <$> seqZ 0 N) i =
            (fun b => IZR (sp_get A (Z.of_nat i) b)) <$> seqZ 0 N).
  { intros i Hi. unfold mrow. rewrite nth_lookup, list_lookup_fmap.
    rewrite lookup_seqZ_lt by lia. simpl. by rewrite Z.add_0_l. }
  split; [split|].
  - by rewrite length_fmap, length_seqZ.
  - intros i Hi. rewrite Hrow by done. by rewrite length_fmap, length_seqZ.
  - intros i j Hi Hj. unfold mget. rewrite Hrow by done.
    rewrite nth_lookup, list_lookup_fmap, lookup_seqZ_lt by lia. simpl.
    by rewrite Z.add_0_l.
Qed.

Lemma seqZ_of_nat (N : Z) : Z.of_nat <$> seq 0 (Z.to_nat N) = seqZ 0 N.
Proof. unfold seqZ. apply list_fmap_ext. intros _ i _. lia. Qed.

(** Positive definiteness of a sparse matrix passes to its dense copy. *)
Lemma toarray_pos_def (A : sparse) (N : Z) :
  nrows A = N -> ncols A = N ->
  pos_def (seqZ 0 N) (sp_real A) ->
  pos_def (seq 0 (Z.to_nat N)) (mget (toarray A)).
Proof.
  intros Hr Hc Hpd. destruct (toarray_spec A N Hr Hc) as [_ Hget].
  apply (pos_def_ext _ (fun a b => sp_real A (Z.of_nat a) (Z.of_nat b))).
  - intros i j Hi Hj. apply elem_of_seq in Hi, Hj. rewrite Hget by lia. done.
  - apply (pos_def_reindex (seq 0 (Z.to_nat N)) (seqZ 0 N) Z.of_nat (sp_real A));
      [apply NoDup_seqZ | by rewrite seqZ_of_nat | done].
Qed.

(** Lookup in a map built from the pairs a partial function keeps. *)
Lemma lookup_list_to_map_omap {K V} `{Countable K} (h : K -> option (K * V))
    (l : list K) (k : K) :
  (forall k' kv, h k' = Some kv -> kv.1 = k') ->
  (list_to_map (omap h l) : gmap K V) !! k =
  if decide (k ∈ l) then snd <$> h k else None.
Proof.
  intros Hh. induction l as [|a l IH]; [by rewrite decide_False by apply not_elem_of_nil|].
  cbn [omap list_omap]. destruct (h a) as [[k' v]|] eqn:Ha.
  - pose proof (Hh a _ Ha) as Hk. simpl in Hk. subst k'.
    cbn [list_to_map foldr]. change (foldr _ ∅ (omap h l)) with (list_to_map (omap h l) : gmap K V).
    destruct (decide (a = k)) as [-> | Hne].
    + rewrite lookup_insert_eq, decide_True by apply list_elem_of_here. by rewrite Ha.
    + rewrite lookup_insert_ne, IH by done.
      destruct (decide (k ∈ l)) as [Hin | Hin].
      * by rewrite decide_True by (by apply list_elem_of_further).
      * rewrite decide_False; [done|]. rewrite elem_of_cons. intros [-> | ?]; tauto.
  - rewrite IH. destruct (decide (a = k)) as [-> | Hne].
    + rewrite Ha. simpl. by destruct (decide (k ∈ l)), (decide (k ∈ k :: l)).
    + destruct (decide (k ∈ l)) as [Hin | Hin].
      * by rewrite decide_True by (by apply list_elem_of_further).
      * rewrite decide_False; [done|]. rewrite elem_of_cons. intros [-> | ?]; tauto.
Qed.

Lemma elem_of_index_pairs (r c : Z) (a b : Z) :
  (a, b) ∈ (a ← seqZ 0 r; b ← seqZ 0 c; [(a, b)]) <-> 0 <= a < r /\ 0 <= b < c.
Proof.
  rewrite list_elem_of_bind. split.
  - intros (a' & Hb & Ha). apply elem_of_seqZ in Ha.
    apply list_elem_of_bind in Hb as (b' & Hab & Hb). apply elem_of_seqZ in Hb.
    apply list_elem_of_singleton in Hab as [= -> ->]. lia.
  - intros [Ha Hb]. exists a. split; [|apply elem_of_seqZ; lia].
    apply list_elem_of_bind. exists b. split; [apply list_elem_of_here | apply elem_of_seqZ; lia].
Qed.

Lemma entries_sp_take_rows (A : sparse) (order : list Z) a b :
  entries (sp_take_rows A order) !! (a, b) =
  if decide (0 <= a < Z.of_nat (length order) /\ 0 <= b < ncols A)
  then o ← order !! Z.to_nat a; entries A !! (o, b) else None.
Proof.
  unfold sp_take_rows; cbn [entries].
  rewrite lookup_list_to_map_omap.
  - destruct (decide (_ ∈ _)) as [Hin | Hin]; rewrite elem_of_index_pairs in Hin.
    + rewrite decide_True by done. simpl.
      destruct (order !! Z.to_nat a); simpl; [|done]. by destruct (entries A !! _).
    + by rewrite decide_False.
  - intros [a' b'] kv; simpl. destruct (order !! Z.to_nat a'); simpl; [|done].
    destruct (entries A !! _); simpl; [|done]. by intros [= <-].
Qed.

Lemma entries_sp_take_cols (A : sparse) (order : list Z) a b :
  entries (sp_take_cols A order) !! (a, b) =
  if decide (0 <= a < nrows A /\ 0 <= b < Z.of_nat (length order))
  then o ← order !! Z.to_nat b; entries A !! (a, o) else None.
Proof.
  unfold sp_take_cols; cbn [entries].
  rewrite lookup_list_to_map_omap.
  - destruct (decide (_ ∈ _)) as [Hin | Hin]; rewrite elem_of_index_pairs in Hin.
    + rewrite decide_True by done. simpl.
      destruct (order !! Z.to_nat b); simpl; [|done]. by destruct (entries A !! _).
    + by rewrite decide_False.
  - intros [a' b'] kv; simpl. destruct (order !! Z.to_nat b'); simpl; [|done].
    destruct (entries A !! _); simpl; [|done]. by intros [= <-].
Qed.

#[global] Arguments sp_take_rows : simpl never.
#[global] Arguments sp_take_cols : simpl never.

Section Reorder.
Variable rcm : sparse -> list Z.
Hypothesis rcm_ok : rcm_valid rcm.

Lemma rcm_length (A : sparse) (N : Z) :
  nrows A = N -> Z.of_nat (length (rcm A)) = Z.max 0 N.
Proof.
  intros Hr. rewrite (Permutation_length (rcm_ok A)), length_seqZ, Hr. lia.
Qed.

Lemma order_map_seqZ (order : list Z) :
  order_map order <$> seqZ 0 (Z.of_nat (length order)) = order.
Proof.
  apply list_eq. intros i. rewrite list_lookup_fmap.
  destruct (decide (i < length order)%nat) as [Hi | Hi].
  - rewrite lookup_seqZ_lt by lia. simpl. unfold order_map.
    rewrite Z.add_0_l, Nat2Z.id.
    destruct (lookup_lt_is_Some_2 order i Hi) as [o ->]. done.
  - rewrite lookup_seqZ_ge by lia. simpl. symmetry. apply lookup_ge_None_2. lia.
Qed.

(** The relabelling is a permutation of the indices. *)
Lemma order_map_perm (A : sparse) (N : Z) :
  nrows A = N -> order_map (rcm A) <$> seqZ 0 N ≡ₚ seqZ 0 N.
Proof.
  intros Hr. destruct (decide (0 <= N)) as [HN | HN].
  - pose proof (rcm_length A N Hr) as Hl.
    replace N with (Z.of_nat (length (rcm A))) at 1 by lia.
    rewrite order_map_seqZ. rewrite <- Hr. apply rcm_ok.
  - by rewrite seqZ_nil by lia.
Qed.

Lemma order_map_range (A : sparse) (N : Z) a :
  nrows A = N -> 0 <= a < N ->
  (rcm A) !! Z.to_nat a = Some (order_map (rcm A) a) /\ 0 <= order_map (rcm A) a < N.
Proof.
  intros Hr Ha. pose proof (rcm_length A N Hr) as Hl.
  destruct (lookup_lt_is_Some_2 (rcm A) (Z.to_nat a) ltac:(lia)) as [o Ho].
  unfold order_map. rewrite Ho. simpl. split; [done|].
  assert (o ∈ seqZ 0 (nrows A)) as Hin.
  { rewrite <- (rcm_ok A). by apply list_elem_of_lookup_2 in Ho. }
  apply elem_of_seqZ in Hin. lia.
Qed.

(** [reorder()]: shape and entries of the matrix it returns. *)
Lemma reorder_spec (A : sparse) (N : Z) :
  nrows A = N -> ncols A = N -> 0 <= N ->
  nrows (reorder rcm A) = N /\ ncols (reorder rcm A) = N /\
  forall a b,
    entries (reorder rcm A) !! (a, b) =
    if decide (0 <= a < N /\ 0 <= b < N)
    then entries A !! (order_map (rcm A) a, order_map (rcm A) b) else None.
Proof.
  intros Hr Hc HN. pose proof (rcm_length A N Hr) as Hl. unfold reorder.
  split; [|split].
  - unfold sp_take_cols, sp_take_rows; cbn [nrows]. lia.
  - unfold sp_take_cols, sp_take_rows; cbn [ncols]. lia.
  - intros a b. rewrite entries_sp_take_cols.
    replace (nrows (sp_take_rows A (rcm A))) with N
      by (unfold sp_take_rows; cbn [nrows]; lia).
    replace (Z.of_nat (length (rcm A))) with N by lia.
    destruct (decide (0 <= a < N /\ 0 <= b < N)) as [[Ha Hb] | Hab]; [|done].
    destruct (order_map_range A N b Hr Hb) as [-> Hob]. cbn [mbind option_bind].
    rewrite entries_sp_take_rows, Hc.
    rewrite decide_True by lia.
    destruct (order_map_range A N a Hr Ha) as [-> Hoa]. done.
Qed.

Lemma sp_get_reorder (A : sparse) (N : Z) a b :
  nrows A = N -> ncols A = N -> 0 <= a < N -> 0 <= b < N ->
  sp_get (reorder rcm A) a b = sp_get A (order_map (rcm A) a) (order_map (rcm A) b).
Proof.
  intros Hr Hc Ha Hb. destruct (reorder_spec A N Hr Hc ltac:(lia)) as (_ & _ & He).
  unfold sp_get. rewrite He, decide_True by done. done.
Qed.

End Reorder.

(** * The reordered system *)

Section Relabelled.
Context {I : Type}.
Variables (idx : list I) (pi : I -> I) (M : I -> I -> R).
Hypothesis pi_perm : pi <$> idx ≡ₚ idx.
Local Open Scope R_scope.

Lemma Rsum_relabel (g : I -> R) : Rsum (fun a => g (pi a)) idx = Rsum g idx.
Proof. by rewrite <- Rsum_fmap, (Rsum_perm _ _ _ pi_perm). Qed.

Lemma pi_in a : a ∈ idx -> pi a ∈ idx.
Proof. intros Ha. rewrite <- pi_perm. by apply list_elem_of_fmap_2. Qed.

Lemma pi_onto p : p ∈ idx -> exists a, a ∈ idx /\ pi a = p.
Proof.
  intros Hp. rewrite <- pi_perm in Hp. apply list_elem_of_fmap in Hp as (a & -> & Ha).
  by exists a.
Qed.

Lemma quad_form_relabel (x : I -> R) :
  quad_form idx (fun a b => M (pi a) (pi b)) (fun a => x (pi a)) = quad_form idx M x.
Proof.
  unfold quad_form.
  rewrite <- (Rsum_relabel (fun p => Rsum (fun q => M p q * x p * x q) idx)).
  apply Rsum_ext. intros a _.
  by rewrite <- (Rsum_relabel (fun q => M (pi a) q * x (pi a) * x q)).
Qed.

Lemma pos_def_relabel_back :
  pos_def idx (fun a b => M (pi a) (pi b)) -> pos_def idx M.
Proof.
  intros Hpd x (p & Hp & Hx). rewrite <- quad_form_relabel. apply Hpd.
  destruct (pi_onto p Hp) as (a & Ha & <-). by exists a.
Qed.

Lemma eigenpair_relabel lam (x : I -> R) :
  eigenpair idx M lam x <->
  eigenpair idx (fun a b => M (pi a) (pi b)) lam (fun a => x (pi a)).
Proof.
  unfold eigenpair. split; intros [(p & Hp & Hx) Heig]; split.
  - destruct (pi_onto p Hp) as (a & Ha & <-). by exists a.
  - intros a Ha. rewrite (Rsum_relabel (fun q => M (pi a) q * x q)).
    apply Heig. by apply pi_in.
  - exists (pi p). split; [by apply pi_in | done].
  - intros p' Hp'. destruct (pi_onto p' Hp') as (a & Ha & <-).
    rewrite <- (Heig a Ha). symmetry.
    apply (Rsum_relabel (fun q => M (pi a) q * x q)).
Qed.

End Relabelled.

(** The reordered matrix is the matrix relabelled by a permutation. *)
Lemma reorder_facts (rcm : sparse -> list Z) (A : sparse) (N : Z) :
  rcm_valid rcm -> nrows A = N -> ncols A = N -> 0 <= N ->
  let A' := reorder rcm A in
  let pi := order_map (rcm A) in
  nrows A' = N /\ ncols A' = N /\
  pi <$> seqZ 0 N ≡ₚ seqZ 0 N /\
  (forall a b, 0 <= a < N -> 0 <= b < N -> sp_get A' a b = sp_get A (pi a) (pi b)) /\
  (symmetric_on (seqZ 0 N) (sp_real A) -> symmetric_on (seqZ 0 N) (sp_real A')) /\
  (pos_def (seqZ 0 N) (sp_real A) <-> pos_def (seqZ 0 N) (sp_real A')) /\
  (forall lam x,
     eigenpair (seqZ 0 N) (sp_real A) lam x <->
     eigenpair (seqZ 0 N) (sp_real A') lam (fun a => x (pi a))).
Proof.
  intros Hrcm Hr Hc HN A' pi.
  destruct (reorder_spec rcm Hrcm A N Hr Hc HN) as (Hr' & Hc' & _).
  pose proof (order_map_perm rcm Hrcm A N Hr) as Hperm. fold pi in Hperm.
  assert (Hget : forall a b, 0 <= a < N -> 0 <= b < N ->
            sp_get A' a b = sp_get A (pi a) (pi b))
    by (intros a b Ha Hb; by apply (sp_get_reorder rcm Hrcm A N)).
  assert (Hreal : forall a b, a ∈ seqZ 0 N -> b ∈ seqZ 0 N ->
            sp_real A (pi a) (pi b) = sp_real A' a b).
  { intros a b Ha Hb. apply elem_of_seqZ in Ha, Hb. unfold sp_real.
    rewrite Hget by lia. done. }
  split; [done|]. split; [done|]. split; [done|]. split; [done|].
  split; [|split].
  - intros Hsym a b Ha Hb. rewrite <- !Hreal by done.
    apply Hsym; by apply (pi_in _ _ Hperm).
  - split; intros Hpd.
    + apply (pos_def_ext _ (fun a b => sp_real A (pi a) (pi b))); [done|].
      by apply (pos_def_reindex (seqZ 0 N) (seqZ 0 N) pi); [apply NoDup_seqZ | |].
    + apply (pos_def_relabel_back (seqZ 0 N) pi _ Hperm).
      apply (pos_def_ext _ (sp_real A')); [|done].
      intros a b Ha Hb. by rewrite Hreal.
  - intros lam x. rewrite (eigenpair_relabel (seqZ 0 N) pi (sp_real A) Hperm lam x).
    unfold eigenpair. split; intros [Hx Heig]; (split; [done|]); intros a Ha;
      rewrite <- (Heig a Ha); apply Rsum_ext; intros b Hb; by rewrite Hreal.
Qed.

(** The fields of a constructed object. *)
Lemma Problem_init_fields {F : Type} `{Num F} (rcm : sparse -> list Z) n D out
    (self : @Problem F) :
  Problem_init rcm n D = (out, inr self) ->
  build_matrix_and_rhs n D = (out, (Some (matrix self), Some (rhs self))) /\
  reordered_matrix self = reorder rcm (matrix self) /\
  cholesky (matrix self) = Some (cholesky_factor self) /\
  cholesky (reordered_matrix self) = Some (cholesky_factor_reorderd self) /\
  n_elements self = n /\ dimension self = D.
Proof.
  unfold Problem_init.
  destruct (build_matrix_and_rhs n D) as [out' [[M|] [b|]]]; try (intros [= <- ?]; done).
  destruct (cholesky M) eqn:E1; [|intros [= <- ?]; done].
  destruct (cholesky (reorder rcm M)) eqn:E2; [|intros [= <- ?]; done].
  by intros [= <- <-].
Qed.

(** The reversed natural order is a permutation. *)
Lemma reversed_order_valid : rcm_valid reversed_order.
Proof. intros A. unfold reversed_order. apply reverse_Permutation. Qed.

(** C7.  For an ordering routine that returns permutations and a square
    [N x N] matrix [A], [reorder()] returns the [N x N] matrix [A'] with
    [A'[a, b] = A[pi a, pi b]], where [pi a = order[a]] is a permutation of
    [0, N).  Hence [A'] is symmetric when [A] is, positive definite exactly
    when [A] is, and [x] is an eigenvector of [A] for [lam] exactly when
    [x o pi] is one of [A'] for [lam].  The constructed object holds
    the matrix and the right-hand side as the assembler returned them,
    and the reordered matrix computed from that matrix. *)
Theorem reorder_symmetric_permutation (rcm : sparse -> list Z) (A : sparse) (N : Z) :
  rcm_valid rcm -> nrows A = N -> ncols A = N -> 0 <= N ->
  let A' := reorder rcm A in
  let pi := order_map (rcm A) in
  nrows A' = N /\ ncols A' = N /\
  pi <$> seqZ 0 N ≡ₚ seqZ 0 N /\
  (forall a b, 0 <= a < N -> 0 <= b < N -> sp_get A' a b = sp_get A (pi a) (pi b)) /\
  (symmetric_on (seqZ 0 N) (sp_real A) -> symmetric_on (seqZ 0 N) (sp_real A')) /\
  (pos_def (seqZ 0 N) (sp_real A) <-> pos_def (seqZ 0 N) (sp_real A')) /\
  (forall lam x,
     eigenpair (seqZ 0 N) (sp_real A) lam x <->
     eigenpair (seqZ 0 N) (sp_real A') lam (fun a => x (pi a))) /\
  (forall (F : Type) (HF : Num F) n D out (self : @Problem F),
     Problem_init rcm n D = (out, inr self) ->
     build_matrix_and_rhs n D = (out, (Some (matrix self), Some (rhs self))) /\
     reordered_matrix self = reorder rcm (matrix self)).
Proof.
  intros Hrcm Hr Hc HN A' pi.
  destruct (reorder_facts rcm A N Hrcm Hr Hc HN) as (H1 & H2 & H3 & H4 & H5 & H6 & H7).
  do 7 (split; [done|]).
  intros F HF n D out self Hinit.
  destruct (Problem_init_fields rcm n D out self Hinit) as (Hb & Hre & _).
  done.
Qed.

(** The statement for the reversed natural order and a 2 x 2 matrix. *)
Lemma reorder_symmetric_permutation_witness :
  let A := sp_set (sp_set (sp_set (lil_matrix 2 2) 0 0 1) 0 1 5) 1 1 4 in
  let A' := reorder reversed_order A in
  nrows A' = 2 /\ ncols A' = 2 /\
  sp_get A' 1 0 = sp_get A 0 1 /\ sp_get A' 1 0 = 5.
Proof.
  intros A A'.
  destruct (reorder_symmetric_permutation reversed_order A 2 reversed_order_valid
              eq_refl eq_refl ltac:(lia)) as (H1 & H2 & _ & H4 & _).
  split; [exact H1|]. split; [exact H2|]. split.
  - apply (H4 1 0); lia.
  - reflexivity.
Defined.

(** * Construction of the problem object *)

Section Construction.
Variable rcm : sparse -> list Z.
Hypothesis rcm_ok : rcm_valid rcm.

(** In exact arithmetic, on a supported grid, the constructor succeeds:
    both matrices are symmetric positive definite and both factorisations
    return the Cholesky factor. *)
Lemma Problem_init_constructs (n D : Z) :
  1 <= n -> D = 2 \/ D = 3 ->
  let N := num_points n D in
  exists A b L L',
    build_matrix_and_rhs (F := R) n D = ([], (Some A, Some b)) /\
    Problem_init rcm n D =
      ([], inr {| n_elements := n; dimension := D; matrix := A; rhs := b;
                  reordered_matrix := reorder rcm A;
                  cholesky_factor := L; cholesky_factor_reorderd := L' |}) /\
    cholesky_factor_of (Z.to_nat N) (toarray A) L /\
    cholesky_factor_of (Z.to_nat N) (toarray (reorder rcm A)) L'.
Proof.
  intros Hn HD N.
  destruct (build_matrix_facts (F := R) n D Hn HD)
    as (A & b & Hbuild & Hr & Hc & _ & _ & _ & Hsym & Hpd).
  fold N in Hr, Hc, Hpd.
  pose proof (num_points_pos n D Hn) as HN. fold N in HN.
  destruct (reorder_facts rcm A N rcm_ok Hr Hc ltac:(lia))
    as (Hr' & Hc' & Hperm & Hget' & _ & Hpd' & _).
  destruct (toarray_spec A N Hr Hc) as [Hsh Hent].
  destruct (toarray_spec (reorder rcm A) N Hr' Hc') as [Hsh' Hent'].
  destruct (np_linalg_cholesky_spd (Z.to_nat N) (toarray A) Hsh) as (L & HL & HLf).
  { intros i j Hi Hj. rewrite !Hent by done. unfold sp_dense. by rewrite Hsym. }
  { by apply toarray_pos_def. }
  destruct (np_linalg_cholesky_spd (Z.to_nat N) (toarray (reorder rcm A)) Hsh')
    as (L' & HL' & HLf').
  { intros i j Hi Hj. rewrite !Hent' by done. unfold sp_dense.
    rewrite !Hget' by lia. by rewrite Hsym. }
  { apply toarray_pos_def; [done | done |]. by apply Hpd'. }
  exists A, b, L, L'. split; [done|]. split; [|done].
  unfold Problem_init. rewrite Hbuild. unfold cholesky. by rewrite HL, HL'.
Qed.

End Construction.

(** * Counting non-zeros *)

Section Counting.
Local Open Scope R_scope.

Lemma is_zero_false (x : R) : is_zero x = false <-> x <> 0.
Proof.
  change (is_zero x) with (if Req_dec_T x 0 then true else false).
  destruct (Req_dec_T x 0); split; congruence.
Qed.

Lemma length_filter_le {A} (P Q : A -> Prop) `{forall a, Decision (P a)}
    `{forall a, Decision (Q a)} (l : list A) :
  (forall a, a ∈ l -> P a -> Q a) -> (length (filter P l) <= length (filter Q l))%nat.
Proof.
  induction l as [|a l IH]; intros HPQ; [done|].
  rewrite !filter_cons.
  assert (length (filter P l) <= length (filter Q l))%nat
    by (apply IH; intros b Hb; apply HPQ; by apply list_elem_of_further).
  pose proof (HPQ a (list_elem_of_here _ _)).
  destruct (decide (P a)), (decide (Q a)); simpl; try lia. tauto.
Qed.

Lemma length_filter_ext {A} (P Q : A -> Prop) `{forall a, Decision (P a)}
    `{forall a, Decision (Q a)} (l : list A) :
  (forall a, a ∈ l -> P a <-> Q a) -> length (filter P l) = length (filter Q l).
Proof.
  intros HPQ. apply Nat.le_antisymm; apply length_filter_le; intros a Ha; by apply HPQ.
Qed.

(** The non-zeros of a list, counted by position. *)
Lemma length_filter_positions (r : list R) :
  length (filter (fun x => is_zero x = false) r) =
  length (filter (fun j => is_zero (nth j r 0) = false) (seq 0 (length r))).
Proof.
  induction r as [|x r IH] using rev_ind; [done|].
  rewrite filter_app, length_app.
  replace (length (r ++ [x])) with (S (length r)) by (rewrite length_app; simpl; lia).
  rewrite seq_S, filter_app, length_app. f_equal.
  - rewrite IH. apply length_filter_ext. intros j Hj. apply elem_of_seq in Hj.
    by rewrite app_nth1 by lia.
  - rewrite !filter_cons, !filter_nil. simpl "+"%nat.
    rewrite app_nth2, Nat.sub_diag by lia. simpl nth.
    by destruct (decide (is_zero x = false)).
Qed.

(** [np.count_nonzero] of a square array as a count of positions. *)
Lemma count_nonzero_positions (n : nat) (M : list (list R)) :
  well_shaped n M ->
  count_nonzero M =
  sum_list ((fun i => length (filter (fun j => mget M i j <> 0) (seq 0 n))) <$> seq 0 n).
Proof.
  intros [Hl Hrow]. unfold count_nonzero.
  assert (HM : M = mrow M <$> seq 0 n).
  { apply list_eq. intros i. rewrite list_lookup_fmap.
    destruct (decide (i < n)%nat) as [Hi | Hi].
    - rewrite lookup_seq_lt by done. simpl. unfold mrow. rewrite nth_lookup.
      destruct (lookup_lt_is_Some_2 M i ltac:(lia)) as [r ->]. done.
    - rewrite lookup_seq_ge by lia. simpl. apply lookup_ge_None_2. lia. }
  rewrite HM at 1. rewrite <- list_fmap_compose. f_equal.
  apply list_fmap_ext. intros k i Hi. apply lookup_seq in Hi as [-> Hi].
  simpl. rewrite length_filter_positions, Hrow by lia.
  apply length_filter_ext. intros j _. apply is_zero_false.
Qed.

(** An upper bound from a pattern that holds all the non-zeros. *)
Lemma count_nonzero_le (n : nat) (M : list (list R)) (allowed : nat -> nat -> bool) :
  well_shaped n M ->
  (forall i j, (i < n)%nat -> (j < n)%nat -> allowed i j = false -> mget M i j = 0) ->
  (count_nonzero M <=
   sum_list ((fun i => length (filter (fun j => allowed i j = true) (seq 0 n))) <$> seq 0 n))%nat.
Proof.
  intros HM Hz. rewrite (count_nonzero_positions n M HM).
  assert (Hs : forall (f g : nat -> nat) (l : list nat),
            (forall i, i ∈ l -> f i <= g i)%nat -> (sum_list (f <$> l) <= sum_list (g <$> l))%nat).
  { intros f g l. induction l as [|i l IH]; intros Hfg; [done|].
    pose proof (Hfg i (list_elem_of_here _ _)).
    assert (sum_list (f <$> l) <= sum_list (g <$> l))%nat
      by (apply IH; intros; apply Hfg; by apply list_elem_of_further).
    change (f i + sum_list (f <$> l) <= g i + sum_list (g <$> l))%nat. lia. }
  apply Hs. intros i Hi. apply elem_of_seq in Hi.
  apply length_filter_le. intros j Hj Hne. apply elem_of_seq in Hj.
  destruct (allowed i j) eqn:Ha; [done|]. exfalso. apply Hne. apply Hz; [lia | lia | done].
Qed.

(** A lower bound: the diagonal of a factor is not zero. *)
Lemma count_nonzero_ge_diagonal (n : nat) (M : list (list R)) :
  well_shaped n M -> (forall i, (i < n)%nat -> mget M i i <> 0) ->
  (n <= count_nonzero M)%nat.
Proof.
  intros HM Hd. rewrite (count_nonzero_positions n M HM).
  assert (Hs : forall (f : nat -> nat) (l : list nat),
            (forall i, i ∈ l -> 1 <= f i)%nat -> (length l <= sum_list (f <$> l))%nat).
  { intros f l. induction l as [|i l IH]; intros Hf; [done|].
    pose proof (Hf i (list_elem_of_here _ _)).
    assert (length l <= sum_list (f <$> l))%nat
      by (apply IH; intros; apply Hf; by apply list_elem_of_further).
    change (S (length l) <= f i + sum_list (f <$> l))%nat. lia. }
  specialize (Hs (fun i => length (filter (fun j => mget M i j <> 0) (seq 0 n))) (seq 0 n)).
  rewrite length_seq in Hs. apply Hs. intros i Hi. apply elem_of_seq in Hi.
  transitivity (length (filter (fun j => j = i) (seq 0 n))).
  - assert (Hin : i ∈ filter (fun j => j = i) (seq 0 n))
      by (apply list_elem_of_filter; split; [done | apply elem_of_seq; lia]).
    destruct (filter (fun j => j = i) (seq 0 n)); [by apply elem_of_nil in Hin | simpl; lia].
  - apply length_filter_le. intros j Hj ->. apply Hd. lia.
Qed.

(** An index whose row and column of [A] are zero off the diagonal has a
    row and a column of the factor that are zero off the diagonal. *)
Lemma cholesky_isolated_index (n : nat) (A L : list (list R)) (p : nat) :
  cholesky_factor_of n A L -> (p < n)%nat ->
  (forall q, (q < n)%nat -> q <> p -> mget A p q = 0 /\ mget A q p = 0) ->
  forall k, (k < n)%nat -> k <> p -> mget L p k = 0 /\ mget L k p = 0.
Proof.
  intros (HL & Hz & Hdiag & Hoff) Hp HA.
  assert (Hrow : forall k, (k < p)%nat -> mget L p k = 0).
  { induction k as [k IH] using lt_wf_ind. intros Hk.
    pose proof (Hoff p k ltac:(lia) Hk Hp) as He.
    rewrite (proj1 (HA k ltac:(lia) ltac:(lia))) in He.
    rewrite Rsum_all_zero in He.
    - pose proof (Hdiag k ltac:(lia)) as [Hpos _].
      assert (mget L p k * mget L k k = 0) as Hm by lra.
      destruct (Rmult_integral _ _ Hm); lra.
    - intros c Hc. apply elem_of_seq in Hc. rewrite IH by lia. lra. }
  intros k Hk Hne. destruct (lt_eq_lt_dec k p) as [[Hlt | ->] | Hgt]; [|done|].
  - split; [by apply Hrow | apply Hz; lia].
  - split; [apply Hz; lia|].
    pose proof (Hoff k p Hp Hgt Hk) as He.
    rewrite (proj2 (HA k Hk Hne)) in He.
    rewrite Rsum_all_zero in He.
    + pose proof (Hdiag p Hp) as [Hpos _].
      assert (mget L k p * mget L p p = 0) as Hm by lra.
      destruct (Rmult_integral _ _ Hm); lra.
    + intros c Hc. apply elem_of_seq in Hc. rewrite (Hrow c) by lia. lra.
Qed.

End Counting.

(** * The non-zeros of a factor and of a relabelled matrix *)

Lemma length_filter_none {A} (P : A -> Prop) `{forall a, Decision (P a)} (l : list A) :
  (forall a, a ∈ l -> ~ P a) -> length (filter P l) = 0%nat.
Proof.
  induction l as [|a l IH]; intros HP; [done|].
  rewrite filter_cons, decide_False by (apply HP; apply list_elem_of_here).
  apply IH. intros b Hb. apply HP. by apply list_elem_of_further.
Qed.

Lemma length_filter_fmap {A B} (f : A -> B) (P : B -> Prop) `{forall b, Decision (P b)}
    (l : list A) :
  length (filter P (f <$> l)) = length (filter (fun a => P (f a)) l).
Proof.
  induction l as [|a l IH]; [done|].
  rewrite fmap_cons, !filter_cons. destruct (decide (P (f a))); simpl; by rewrite IH.
Qed.

(** The number of allowed positions in row [i]. *)
Lemma allowed_row_count (inner : nat -> bool) (n i : nat) :
  (i < n)%nat ->
  length (filter (fun j => allowed_by inner i j = true) (seq 0 n)) =
  (1 + if inner i then length (filter (fun j => inner j = true) (seq 0 i)) else 0)%nat.
Proof.
  intros Hi. replace n with (i + S (n - S i))%nat by lia.
  rewrite seq_app, filter_app, length_app. simpl seq.
  rewrite filter_cons, decide_True
    by (unfold allowed_by; rewrite Nat.eqb_refl; done).
  simpl length.
  rewrite (length_filter_none _ (seq (S i) _)).
  2:{ intros j Hj. apply elem_of_seq in Hj. unfold allowed_by.
      assert ((i =? j)%nat = false) as -> by (apply Nat.eqb_neq; lia).
      assert ((j <? i)%nat = false) as -> by (apply Nat.ltb_ge; lia).
      rewrite andb_false_r. done. }
  destruct (inner i) eqn:Hin.
  - rewrite (length_filter_ext _ (fun j => inner j = true) (seq 0 i)); [lia|].
    intros j Hj. apply elem_of_seq in Hj. unfold allowed_by. rewrite Hin.
    assert ((i =? j)%nat = false) as -> by (apply Nat.eqb_neq; lia).
    assert ((j <? i)%nat = true) as -> by (apply Nat.ltb_lt; lia).
    rewrite andb_true_r. done.
  - rewrite length_filter_none; [lia|].
    intros j Hj. apply elem_of_seq in Hj. unfold allowed_by. rewrite Hin.
    assert ((i =? j)%nat = false) as -> by (apply Nat.eqb_neq; lia). done.
Qed.

(** The number of allowed positions: the diagonal and the pairs of marked
    indices. *)
Lemma allowed_count (inner : nat -> bool) (n : nat) :
  let c := length (filter (fun i => inner i = true) (seq 0 n)) in
  (2 * sum_list ((fun i => length (filter (fun j => allowed_by inner i j = true) (seq 0 n)))
                 <$> seq 0 n) = 2 * n + c * (c - 1))%nat.
Proof.
  intros c.
  assert (Hrows : forall m, (m <= n)%nat ->
            (2 * sum_list ((fun i => length (filter (fun j => allowed_by inner i j = true)
                                                    (seq 0 n))) <$> seq 0 m) =
             2 * m + length (filter (fun i => inner i = true) (seq 0 m)) *
                     (length (filter (fun i => inner i = true) (seq 0 m)) - 1))%nat).
  { induction m as [|m IH]; intros Hm; [done|].
    specialize (IH ltac:(lia)).
    rewrite seq_S. change (0 + m)%nat with m.
    rewrite fmap_app, sum_list_with_app, filter_app, length_app.
    change (sum_list ((fun i => length (filter (fun j => allowed_by inner i j = true)
                                               (seq 0 n))) <$> [m]))
      with (length (filter (fun j => allowed_by inner m j = true) (seq 0 n)) + 0)%nat.
    rewrite allowed_row_count by lia.
    rewrite filter_cons, filter_nil.
    destruct (inner m) eqn:Hin.
    - rewrite decide_True by done. simpl length. nia.
    - rewrite decide_False by done. simpl length. nia. }
  by apply Hrows.
Qed.

Section FactorPattern.
Local Open Scope R_scope.

(** A factor has its non-zeros on the diagonal and, below it, between
    indices that the matrix couples. *)
Lemma factor_nonzeros_bound (n : nat) (M L : list (list R)) (inner : nat -> bool) :
  cholesky_factor_of n M L ->
  (forall p q, (p < n)%nat -> (q < n)%nat -> p <> q -> inner p = false ->
               mget M p q = 0 /\ mget M q p = 0) ->
  let c := length (filter (fun i => inner i = true) (seq 0 n)) in
  (n <= count_nonzero L)%nat /\ (2 * count_nonzero L <= 2 * n + c * (c - 1))%nat.
Proof.
  intros HL HM c. pose proof HL as (Hsh & Hz & Hdiag & _). split.
  - apply count_nonzero_ge_diagonal; [done|].
    intros i Hi. destruct (Hdiag i Hi) as [Hpos _]. lra.
  - subst c. rewrite <- (allowed_count inner n).
    apply Nat.mul_le_mono_l. apply count_nonzero_le; [done|].
    intros i j Hi Hj Hal. unfold allowed_by in Hal.
    apply orb_false_iff in Hal as [Hne Hal]. apply Nat.eqb_neq in Hne.
    destruct (inner i) eqn:Hii; [destruct (inner j) eqn:Hij|]; simpl in Hal.
    + apply Nat.ltb_ge in Hal. apply Hz; lia.
    + apply (cholesky_isolated_index n M L j HL Hj); [|done | done].
      intros q Hq Hqj. apply HM; done.
    + apply (cholesky_isolated_index n M L i HL Hi); [|done | congruence].
      intros q Hq Hqi. apply HM; done.
Qed.

End FactorPattern.

(** The size of a map of index pairs, as a double sum. *)
Lemma size_as_Rsum (m : gmap (Z * Z) Z) (idx : list Z) :
  NoDup idx ->
  (forall a b, is_Some (m !! (a, b)) -> a ∈ idx /\ b ∈ idx) ->
  INR (size m) =
  Rsum (fun a => Rsum (fun b => match m !! (a, b) with Some _ => 1%R | None => 0%R end) idx) idx.
Proof.
  intros Hnd. induction m as [|[ka kb] v m Hk IH] using map_ind; intros Hkeys.
  - rewrite map_size_empty, Rsum_all_zero; [reflexivity|]. intros a _. apply Rsum_all_zero. intros b _.
    by rewrite lookup_empty.
  - rewrite map_size_insert_None by done. rewrite S_INR, IH.
    2:{ intros a b Hab. apply Hkeys.
        destruct (decide ((ka, kb) = (a, b))) as [[= -> ->] | Hne].
        - rewrite Hk in Hab. by destruct Hab.
        - by rewrite lookup_insert_ne. }
    destruct (Hkeys ka kb) as [Hka Hkb]; [by rewrite lookup_insert_eq|].
    rewrite (Rsum_ext (fun a => Rsum (fun b => match <[(ka, kb) := v]> m !! (a, b) with
                                               | Some _ => 1%R | None => 0%R end) idx)
               (fun a => (Rsum (fun b => match m !! (a, b) with Some _ => 1 | None => 0 end) idx +
                          (if decide (ka = a)
                           then Rsum (fun b => if decide (kb = b) then 1 else 0) idx
                           else 0))%R)).
    + rewrite Rsum_plus. f_equal.
      rewrite (Rsum_delta (fun _ => Rsum (fun b => if decide (kb = b) then 1%R else 0%R) idx))
        by done.
      by rewrite (Rsum_delta (fun _ => 1%R)).
    + intros a _. destruct (decide (ka = a)) as [<- | Hne].
      * rewrite <- Rsum_plus. apply Rsum_ext. intros b _.
        destruct (decide (kb = b)) as [<- | Hneb].
        -- rewrite lookup_insert_eq, Hk. lra.
        -- rewrite lookup_insert_ne by congruence. lra.
      * rewrite Rplus_0_r. apply Rsum_ext. intros b _.
        by rewrite lookup_insert_ne by congruence.
Qed.

(** Relabelling by a valid ordering keeps the number of stored entries. *)
Lemma nnz_reorder (rcm : sparse -> list Z) (A : sparse) (N : Z) :
  rcm_valid rcm -> nrows A = N -> ncols A = N -> 0 <= N ->
  (forall a b, is_Some (entries A !! (a, b)) -> 0 <= a < N /\ 0 <= b < N) ->
  nnz (reorder rcm A) = nnz A.
Proof.
  intros Hrcm Hr Hc HN Hkeys. unfold nnz. apply INR_eq.
  destruct (reorder_spec rcm Hrcm A N Hr Hc HN) as (_ & _ & He).
  pose proof (order_map_perm rcm Hrcm A N Hr) as Hperm.
  rewrite (size_as_Rsum _ (seqZ 0 N)), (size_as_Rsum (entries A) (seqZ 0 N)).
  - rewrite <- (Rsum_relabel (seqZ 0 N) (order_map (rcm A)) Hperm
                  (fun p => Rsum (fun q => match entries A !! (p, q) with Some _ => 1%R | None => 0%R end)
                                 (seqZ 0 N))).
    apply Rsum_ext. intros a Ha.
    rewrite <- (Rsum_relabel (seqZ 0 N) (order_map (rcm A)) Hperm
                  (fun q => match entries A !! (order_map (rcm A) a, q) with
                            | Some _ => 1%R | None => 0%R end)).
    apply Rsum_ext. intros b Hb. apply elem_of_seqZ in Ha, Hb.
    rewrite He, decide_True by lia. done.
  - apply NoDup_seqZ.
  - intros a b Hab. rewrite !elem_of_seqZ. apply Hkeys in Hab. lia.
  - apply NoDup_seqZ.
  - intros a b Hab. rewrite He in Hab. rewrite !elem_of_seqZ.
    destruct (decide (0 <= a < N /\ 0 <= b < N)); [lia | by destruct Hab].
Qed.

(** * The fill-in ratio *)

(** An index on the boundary is coupled to no other index. *)
Lemma grid_entry_boundary (n D p q : Z) :
  p <> q -> grid_boundary n D p = true ->
  grid_entry n D p q = 0 /\ grid_entry n D q p = 0.
Proof.
  intros Hne Hb. unfold grid_entry, system_entry.
  rewrite !decide_False by congruence. rewrite Hb.
  split; [done|]. by destruct (grid_boundary n D q).
Qed.

(** A relabelling is injective on the indices. *)
Lemma relabel_inj (pi : Z -> Z) (N a b : Z) :
  pi <$> seqZ 0 N ≡ₚ seqZ 0 N -> 0 <= a < N -> 0 <= b < N -> pi a = pi b -> a = b.
Proof.
  intros Hperm Ha Hb Hab.
  assert (Hnd : NoDup (pi <$> seqZ 0 N)) by (rewrite Hperm; apply NoDup_seqZ).
  assert (Hl : forall c, 0 <= c < N -> (pi <$> seqZ 0 N) !! Z.to_nat c = Some (pi c)).
  { intros c Hc. rewrite list_lookup_fmap, lookup_seqZ_lt by lia. simpl.
    f_equal. f_equal. lia. }
  pose proof (Hl a Ha) as H1. pose proof (Hl b Hb) as H2. rewrite Hab in H1.
  pose proof (NoDup_lookup _ _ _ _ Hnd H1 H2). lia.
Qed.

(** The interior points, counted through a relabelling. *)
Lemma interior_count_relabel (n D : Z) (pi : Z -> Z) :
  let N := num_points n D in
  pi <$> seqZ 0 N ≡ₚ seqZ 0 N ->
  length (filter (fun i => negb (grid_boundary n D (pi (Z.of_nat i))) = true)
                 (seq 0 (Z.to_nat N))) = interior_count n D.
Proof.
  intros N Hperm. unfold interior_count. fold N.
  rewrite <- Hperm, <- (seqZ_of_nat N), <- list_fmap_compose.
  rewrite length_filter_fmap. apply length_filter_ext.
  intros i _. simpl. apply negb_true_iff.
Qed.

(** The non-zeros of the factor of the assembled matrix, relabelled: at
    least the diagonal, at most the diagonal and the pairs of interior
    points. *)
Lemma relabelled_factor_count (n D : Z) (pi : Z -> Z) (M L : list (list R)) :
  let N := num_points n D in
  let c := interior_count n D in
  pi <$> seqZ 0 N ≡ₚ seqZ 0 N ->
  (forall i j, (i < Z.to_nat N)%nat -> (j < Z.to_nat N)%nat ->
     mget M i j = IZR (grid_entry n D (pi (Z.of_nat i)) (pi (Z.of_nat j)))) ->
  cholesky_factor_of (Z.to_nat N) M L ->
  (Z.to_nat N <= count_nonzero L)%nat /\
  (2 * count_nonzero L <= 2 * Z.to_nat N + c * (c - 1))%nat.
Proof.
  intros N c Hperm HM HL. subst c.
  rewrite <- (interior_count_relabel n D pi Hperm). fold N.
  apply (factor_nonzeros_bound (Z.to_nat N) M L
           (fun i => negb (grid_boundary n D (pi (Z.of_nat i)))) HL).
  intros p q Hp Hq Hne Hin. apply negb_false_iff in Hin.
  assert (Hpq : pi (Z.of_nat p) <> pi (Z.of_nat q)).
  { intros Heq. apply (relabel_inj pi N) in Heq; [lia | done | lia | lia]. }
  destruct (grid_entry_boundary n D _ _ Hpq Hin) as [H1 H2].
  by rewrite !HM, H1, H2 by done.
Qed.

(** The keys of the assembled matrix are index pairs, and its diagonal is
    stored. *)
Lemma system_lookup_keys (A : sparse) (N : Z) bnd diag nbrs :
  (forall k, entries A !! k = system_lookup N bnd diag nbrs k) ->
  forall a b, is_Some (entries A !! (a, b)) -> 0 <= a < N /\ 0 <= b < N.
Proof.
  intros He a b Hab. rewrite He in Hab. unfold system_lookup in Hab.
  destruct (decide _) as [Hd | Hd]; [simpl in Hd; tauto | by destruct Hab].
Qed.

Lemma system_lookup_diagonal (A : sparse) (N : Z) bnd diag nbrs a :
  (forall k, entries A !! k = system_lookup N bnd diag nbrs k) ->
  diag <> 0 -> 0 <= a < N -> is_Some (entries A !! (a, a)).
Proof.
  intros He Hdiag Ha. rewrite He. unfold system_lookup, system_entry. simpl.
  rewrite (decide_True (P := a = a)) by done.
  rewrite decide_True; [done|]. split; [lia|]. split; [lia|]. by destruct (bnd a).
Qed.

Lemma grid_diagonal_nonzero (D : Z) : grid_diagonal D <> 0.
Proof. unfold grid_diagonal. by destruct (D =? 2). Qed.

(** A matrix without entries off the diagonal stores its diagonal only. *)
Lemma nnz_fully_diagonal (A : sparse) (N : Z) bnd diag nbrs :
  0 <= N -> diag <> 0 ->
  (forall k, entries A !! k = system_lookup N bnd diag nbrs k) ->
  fully_diagonal N A -> nnz A = Z.to_nat N.
Proof.
  intros HN Hdiag He Hfd. unfold nnz. apply INR_eq.
  rewrite (size_as_Rsum _ (seqZ 0 N)).
  - rewrite (Rsum_ext _ (fun _ => 1%R)).
    + rewrite Rsum_const, length_seqZ. by rewrite Rmult_1_r.
    + intros a Ha.
      rewrite (Rsum_ext _ (fun b => if decide (a = b) then 1%R else 0%R)).
      * rewrite (Rsum_delta (fun _ => 1%R)); [done | apply NoDup_seqZ | done].
      * intros b Hb. apply elem_of_seqZ in Ha, Hb.
        destruct (decide (a = b)) as [<- | Hne].
        -- by destruct (system_lookup_diagonal A N bnd diag nbrs a He Hdiag ltac:(lia))
             as [v ->].
        -- specialize (Hfd a b ltac:(lia) ltac:(lia) Hne). unfold sp_get in Hfd.
           rewrite He in *. unfold system_lookup in *.
           destruct (decide _) as [(_ & _ & Hd) | Hd]; simpl in *; [congruence | done].
  - apply NoDup_seqZ.
  - intros a b Hab. rewrite !elem_of_seqZ.
    apply (system_lookup_keys A N bnd diag nbrs He) in Hab. lia.
Qed.

(** The number of stored entries of the assembled matrix for [n = 4],
    [dimension = 2]: 12 boundary diagonals, 4 interior diagonals and the
    two entries of each of the 4 couplings. *)
Lemma nnz_matrix_4x4 {F : Type} `{Num F} :
  nnz <$> (build_matrix_and_rhs (F := F) 4 2).2.1 = Some 24%nat.
Proof. vm_compute. reflexivity. Qed.

Lemma interior_count_4x4 : interior_count 4 2 = 4%nat.
Proof. vm_compute. reflexivity. Qed.

Lemma pos_of_nat_Z (k : nat) : k <> 0%nat -> Z.pos (Pos.of_nat k) = Z.of_nat k.
Proof. intros Hk. by rewrite <- positive_nat_Z, Nat2Pos.id. Qed.

(** [fill_in_ratio] on an object whose matrices store something. *)
Lemma fill_in_ratio_false (self : @Problem R) :
  nnz (matrix self) <> 0%nat ->
  fill_in_ratio self false =
  Some (Z.of_nat (count_nonzero (cholesky_factor self)) # Pos.of_nat (nnz (matrix self))).
Proof.
  intros Hnz. unfold fill_in_ratio. cbn iota.
  by apply Nat.eqb_neq in Hnz as ->.
Qed.

Lemma fill_in_ratio_true (self : @Problem R) :
  nnz (reordered_matrix self) <> 0%nat ->
  fill_in_ratio self true =
  Some (Z.of_nat (nnz (reordered_matrix self)) # Pos.of_nat (nnz (reordered_matrix self))).
Proof.
  intros Hnz. unfold fill_in_ratio. cbn iota.
  by apply Nat.eqb_neq in Hnz as ->.
Qed.

(** The factor of a diagonal matrix is diagonal. *)
Lemma diagonal_factor_count (n : nat) (M L : list (list R)) :
  cholesky_factor_of n M L ->
  (forall p q, (p < n)%nat -> (q < n)%nat -> p <> q -> mget M p q = 0%R) ->
  count_nonzero L = n.
Proof.
  intros HL HM.
  destruct (factor_nonzeros_bound n M L (fun _ => false) HL) as [Hlo Hhi].
  - intros p q Hp Hq Hne _. split; apply HM; done || congruence.
  - rewrite length_filter_none in Hhi by (intros i _; discriminate). lia.
Qed.

(** A constructed problem: its matrix, its reordered matrix, the two
    factors and their numbers of non-zeros. *)
Lemma constructed_problem (rcm : sparse -> list Z) (n D : Z) :
  rcm_valid rcm -> 1 <= n -> D = 2 \/ D = 3 ->
  let N := num_points n D in
  let c := interior_count n D in
  exists self : @Problem R,
    Problem_init rcm n D = ([], inr self) /\
    build_matrix_and_rhs (F := R) n D = ([], (Some (matrix self), Some (rhs self))) /\
    (forall k, entries (matrix self) !! k =
               system_lookup N (grid_boundary n D) (grid_diagonal D) (grid_neighbors n D) k) /\
    reordered_matrix self = reorder rcm (matrix self) /\
    nnz (matrix self) <> 0%nat /\
    nnz (reordered_matrix self) = nnz (matrix self) /\
    ((Z.to_nat N <= count_nonzero (cholesky_factor self))%nat /\
     (2 * count_nonzero (cholesky_factor self) <= 2 * Z.to_nat N + c * (c - 1))%nat) /\
    ((Z.to_nat N <= count_nonzero (cholesky_factor_reorderd self))%nat /\
     (2 * count_nonzero (cholesky_factor_reorderd self) <=
      2 * Z.to_nat N + c * (c - 1))%nat) /\
    (fully_diagonal N (matrix self) ->
     nnz (matrix self) = Z.to_nat N /\
     count_nonzero (cholesky_factor self) = Z.to_nat N).
Proof.
  intros Hrcm Hn HD N c.
  destruct (Problem_init_constructs rcm Hrcm n D Hn HD)
    as (A & b & L & L' & Hb & Hi & HL & HL').
  destruct (build_matrix_facts (F := R) n D Hn HD)
    as (A0 & b0 & Hb0 & Hr & Hc & _ & He & Hg & _).
  rewrite Hb in Hb0. injection Hb0 as <- <-. fold N in Hr, Hc, He, Hg, HL, HL'.
  pose proof (num_points_pos n D Hn) as HN. fold N in HN.
  destruct (reorder_facts rcm A N Hrcm Hr Hc ltac:(lia)) as (Hr' & Hc' & Hperm & Hget' & _).
  destruct (toarray_spec A N Hr Hc) as [_ Hent].
  destruct (toarray_spec (reorder rcm A) N Hr' Hc') as [_ Hent'].
  eexists. split; [exact Hi|]. cbn [matrix rhs reordered_matrix cholesky_factor
                                     cholesky_factor_reorderd].
  split; [done|]. split; [done|]. split; [done|].
  assert (Hkeys : forall a b, is_Some (entries A !! (a, b)) -> 0 <= a < N /\ 0 <= b < N)
    by (by apply (system_lookup_keys A N _ _ _ He)).
  split; [|split; [|split; [|split]]].
  - unfold nnz. apply map_size_ne_0_lookup_2 with (i := (0, 0)).
    apply (system_lookup_diagonal A N _ _ _ 0 He (grid_diagonal_nonzero D)). lia.
  - apply (nnz_reorder rcm A N Hrcm Hr Hc ltac:(lia) Hkeys).
  - apply (relabelled_factor_count n D (@Datatypes.id Z) (toarray A) L);
      [by rewrite list_fmap_id | | done].
    intros i j Hi' Hj'. fold N in Hi', Hj'. rewrite Hent by done.
    unfold sp_dense, Datatypes.id.
    rewrite Hg, decide_True by lia. done.
  - apply (relabelled_factor_count n D (order_map (rcm A)) (toarray (reorder rcm A)) L');
      [done | | done].
    intros i j Hi' Hj'. fold N in Hi', Hj'. rewrite Hent' by done. unfold sp_dense.
    rewrite Hget' by lia.
    destruct (order_map_range rcm Hrcm A N (Z.of_nat i) Hr ltac:(lia)) as [_ Hoi].
    destruct (order_map_range rcm Hrcm A N (Z.of_nat j) Hr ltac:(lia)) as [_ Hoj].
    rewrite Hg, decide_True by lia. done.
  - intros Hfd. split.
    + apply (nnz_fully_diagonal A N _ _ _ ltac:(lia) (grid_diagonal_nonzero D) He Hfd).
    + apply (diagonal_factor_count _ (toarray A) L HL).
      intros p q Hp Hq Hne. rewrite Hent by done. unfold sp_dense.
      rewrite Hfd by lia. done.
Qed.

(** * Construction with an unsupported dimension *)



(** * The value of the fill-in ratio *)

(** C1.  With [reorder=True] the numerator of [fill_in_ratio] is the number
    of stored entries of the reordered matrix, not the number of non-zeros
    of the factor computed from it.  For [n = 4], [dimension = 2] and every
    ordering routine that returns permutations: the object is constructed,
    the reordered matrix stores 24 entries, the factor of the reordered
    matrix has between 16 and 22 non-zeros, and [fill_in_ratio(True)]
    returns 24/24, which is not the quotient of these two counts. *)
Theorem fill_in_ratio_reordered_numerator (rcm : sparse -> list Z) :
  rcm_valid rcm ->
  exists self : @Problem R,
    Problem_init rcm 4 2 = ([], inr self) /\
    nnz (reordered_matrix self) = 24%nat /\
    (16 <= count_nonzero (cholesky_factor_reorderd self) <= 22)%nat /\
    fill_in_ratio self true = Some (24 # 24) /\
    ~ (24 # 24 == Z.of_nat (count_nonzero (cholesky_factor_reorderd self)) #
                  Pos.of_nat (nnz (reordered_matrix self)))%Q.
Proof.
  intros Hrcm.
  destruct (constructed_problem rcm 4 2 Hrcm ltac:(lia) ltac:(by left))
    as (self & Hi & Hb & _ & _ & Hnz & Hnnz' & _ & [Hlo Hhi] & _).
  pose proof (nnz_matrix_4x4 (F := R)) as H24. rewrite Hb in H24.
  injection H24 as H24. rewrite interior_count_4x4 in Hhi.
  change (Z.to_nat (num_points 4 2)) with 16%nat in Hlo, Hhi.
  exists self. split; [done|]. rewrite H24 in Hnnz'. split; [done|].
  split; [lia|]. split.
  - rewrite fill_in_ratio_true by (rewrite Hnnz'; lia). by rewrite Hnnz'.
  - rewrite Hnnz'. unfold Qeq. cbn. lia.
Qed.

(** The statement for the reversed natural order. *)
Lemma fill_in_ratio_reordered_numerator_witness :
  exists self : @Problem R,
    Problem_init reversed_order 4 2 = ([], inr self) /\
    nnz (reordered_matrix self) = 24%nat /\
    (16 <= count_nonzero (cholesky_factor_reorderd self) <= 22)%nat /\
    fill_in_ratio self true = Some (24 # 24) /\
    ~ (24 # 24 == Z.of_nat (count_nonzero (cholesky_factor_reorderd self)) #
                  Pos.of_nat (nnz (reordered_matrix self)))%Q.
Proof.
  apply (fill_in_ratio_reordered_numerator reversed_order). exact reversed_order_valid.
Defined.

(** For [n = 4], [dimension = 2] the object is constructed and
    [fill_in_ratio(False)] is below 1: the matrix stores 24 entries, both
    triangles of the 4 couplings of its interior points, and the lower
    triangular factor has at most 22 non-zeros. *)
Lemma fill_in_ratio_below_one :
  exists (self : @Problem R) (q : Q),
    Problem_init reversed_order 4 2 = ([], inr self) /\
    nnz (matrix self) = 24%nat /\
    (count_nonzero (cholesky_factor self) <= 22)%nat /\
    ~ fully_diagonal 16 (matrix self) /\
    fill_in_ratio self false = Some q /\ (q < 1)%Q /\ ~ (1 <= q)%Q.
Proof.
  destruct (constructed_problem reversed_order 4 2 reversed_order_valid
              ltac:(lia) ltac:(by left))
    as (self & Hi & Hb & He & _ & Hnz & _ & [Hlo Hhi] & _ & _).
  pose proof (nnz_matrix_4x4 (F := R)) as H24. rewrite Hb in H24.
  injection H24 as H24. rewrite interior_count_4x4 in Hhi.
  change (Z.to_nat (num_points 4 2)) with 16%nat in Hlo, Hhi.
  assert (Hq : (Z.of_nat (count_nonzero (cholesky_factor self)) # 24 < 1)%Q)
    by (unfold Qlt; cbn; lia).
  exists self, (Z.of_nat (count_nonzero (cholesky_factor self)) # 24).
  split; [done|]. split; [done|]. split; [lia|]. split; [|split; [|split]].
  - intros Hfd. specialize (Hfd 5 6 ltac:(lia) ltac:(lia) ltac:(lia)).
    unfold sp_get in Hfd. rewrite He in Hfd. vm_compute in Hfd. discriminate.
  - rewrite fill_in_ratio_false by done. by rewrite H24.
  - done.
  - by apply Qlt_not_le.
Qed.

(** * Further properties of the grid indexer, the assembler and the oracle *)

(** X1.  The neighbour relation of the two-dimensional grid is symmetric and
    irreflexive, the neighbours of a grid point are grid points, and a
    point none of whose coordinates is extreme has exactly 4 of them. *)
Theorem get_neighbors_2d_symmetric (n p q : Z) :
  1 <= n -> 0 <= p < n * n -> 0 <= q < n * n ->
  (q ∈ get_neighbors_2d p n <-> p ∈ get_neighbors_2d q n) /\
  (p ∉ get_neighbors_2d p n) /\
  (forall r, r ∈ get_neighbors_2d p n -> 0 <= r < n * n) /\
  (on_boundary_2d n p = false -> length (get_neighbors_2d p n) = 4%nat).
Proof.
  intros Hn Hp Hq.
  pose proof (grid_neighbors_sym n 2 p q Hn (or_introl eq_refl) Hp Hq) as H1.
  pose proof (grid_neighbors_sym n 2 q p Hn (or_introl eq_refl) Hq Hp) as H2.
  pose proof (grid_neighbors_irrefl n 2 p Hn (or_introl eq_refl) Hp) as H3.
  split; [split; [exact H1 | exact H2]|]. split; [exact H3|]. split.
  - intros r Hr. apply (grid_neighbors_range n 2 p r Hn (or_introl eq_refl) Hp Hr).
  - intros Hb.
    destruct (grid_neighbors_interior n 2 p Hn (or_introl eq_refl) Hp Hb) as [Hl _].
    change (grid_neighbors n 2 p) with (get_neighbors_2d p n) in Hl.
    change (grid_diagonal 2) with 4 in Hl. lia.
Qed.

(** The statement for the centre and a corner of the 3 x 3 grid. *)
Lemma get_neighbors_2d_symmetric_witness :
  (0 ∈ get_neighbors_2d 4 3 <-> 4 ∈ get_neighbors_2d 0 3) /\
  (4 ∉ get_neighbors_2d 4 3) /\
  (forall r, r ∈ get_neighbors_2d 4 3 -> 0 <= r < 3 * 3) /\
  (on_boundary_2d 3 4 = false -> length (get_neighbors_2d 4 3) = 4%nat).
Proof.
  apply (get_neighbors_2d_symmetric 3 4 0); lia.
Defined.

(** X2.  The neighbour relation of the three-dimensional grid is symmetric
    and irreflexive, the neighbours of a grid point are grid points, and a
    point none of whose coordinates is extreme has exactly 6 of them. *)
Theorem get_neighbors_3d_symmetric (n p q : Z) :
  1 <= n -> 0 <= p < n * n * n -> 0 <= q < n * n * n ->
  (q ∈ get_neighbors_3d p n <-> p ∈ get_neighbors_3d q n) /\
  (p ∉ get_neighbors_3d p n) /\
  (forall r, r ∈ get_neighbors_3d p n -> 0 <= r < n * n * n) /\
  (on_boundary_3d n p = false -> length (get_neighbors_3d p n) = 6%nat).
Proof.
  intros Hn Hp Hq.
  pose proof (grid_neighbors_sym n 3 p q Hn (or_intror eq_refl) Hp Hq) as H1.
  pose proof (grid_neighbors_sym n 3 q p Hn (or_intror eq_refl) Hq Hp) as H2.
  pose proof (grid_neighbors_irrefl n 3 p Hn (or_intror eq_refl) Hp) as H3.
  split; [split; [exact H1 | exact H2]|]. split; [exact H3|]. split.
  - intros r Hr. apply (grid_neighbors_range n 3 p r Hn (or_intror eq_refl) Hp Hr).
  - intros Hb.
    destruct (grid_neighbors_interior n 3 p Hn (or_intror eq_refl) Hp Hb) as [Hl _].
    change (grid_neighbors n 3 p) with (get_neighbors_3d p n) in Hl.
    change (grid_diagonal 3) with 6 in Hl. lia.
Qed.

(** The statement for the centre and a face point of the 3 x 3 x 3 grid. *)
Lemma get_neighbors_3d_symmetric_witness :
  (4 ∈ get_neighbors_3d 13 3 <-> 13 ∈ get_neighbors_3d 4 3) /\
  (13 ∉ get_neighbors_3d 13 3) /\
  (forall r, r ∈ get_neighbors_3d 13 3 -> 0 <= r < 3 * 3 * 3) /\
  (on_boundary_3d 3 13 = false -> length (get_neighbors_3d 13 3) = 6%nat).
Proof.
  apply (get_neighbors_3d_symmetric 3 13 4); lia.
Defined.

(** X3.  On a supported grid with [n >= 1], in any arithmetic, the assembler
    returns an [N x N] matrix and a vector of length [N] ([N = n^D]).  The
    matrix stores non-zero entries only, all inside its shape.  A boundary
    row and its column are those of the identity.  An interior row has
    [2 D] on the diagonal, [-1] at each interior neighbour and zero
    elsewhere, also at its boundary neighbours. *)
Theorem assembled_matrix_entries {F : Type} `{Num F} (n D : Z) :
  1 <= n -> D = 2 \/ D = 3 ->
  let N := num_points n D in
  exists A b,
    build_matrix_and_rhs (F := F) n D = ([], (Some A, Some b)) /\
    nrows A = N /\ ncols A = N /\ length b = Z.to_nat N /\
    (forall p q, is_Some (entries A !! (p, q)) ->
                 0 <= p < N /\ 0 <= q < N /\ sp_get A p q <> 0) /\
    (forall p, 0 <= p < N -> grid_boundary n D p = true ->
       sp_get A p p = 1 /\
       forall q, q <> p -> sp_get A p q = 0 /\ sp_get A q p = 0) /\
    (forall p, 0 <= p < N -> grid_boundary n D p = false ->
       sp_get A p p = 2 * D /\
       forall q, 0 <= q < N -> q <> p ->
         sp_get A p q =
         if grid_boundary n D q then 0
         else if bool_decide (q ∈ grid_neighbors n D p) then -1 else 0).
Proof.
  intros Hn HD N.
  destruct (build_matrix_grid_entry (F := F) n D Hn HD)
    as (A & b & Hb & Hr & Hc & Hl & He & Hg).
  fold N in Hr, Hc, Hl, He, Hg.
  exists A, b. do 4 (split; [done|]). split; [|split].
  - intros p q Hpq. unfold sp_get. rewrite He in *. unfold system_lookup in *.
    simpl in *. destruct (decide _) as [(? & ? & ?) | ?]; [done | by destruct Hpq].
  - intros p Hp Hbp. split.
    + rewrite Hg, decide_True by lia. unfold grid_entry, system_entry.
      by rewrite decide_True, Hbp.
    + intros q Hne. rewrite !Hg.
      destruct (grid_entry_boundary n D p q ltac:(congruence) Hbp) as [-> ->].
      split; by destruct (decide _).
  - intros p Hp Hbp. split.
    + rewrite Hg, decide_True by lia. unfold grid_entry, system_entry, grid_diagonal.
      rewrite decide_True, Hbp by done. destruct HD as [-> | ->]; reflexivity.
    + intros q Hq Hne. rewrite Hg, decide_True by lia.
      unfold grid_entry, system_entry. rewrite decide_False, Hbp by congruence.
      simpl. by destruct (grid_boundary n D q).
Qed.

(** The statement on the 4 x 4 grid, in exact arithmetic. *)
Lemma assembled_matrix_entries_witness :
  exists A b,
    build_matrix_and_rhs (F := R) 4 2 = ([], (Some A, Some b)) /\
    nrows A = 16 /\ ncols A = 16 /\ length b = 16%nat /\
    sp_get A 5 5 = 4 /\ sp_get A 5 6 = -1 /\ sp_get A 5 4 = 0 /\ sp_get A 4 4 = 1.
Proof.
  destruct (assembled_matrix_entries (F := R) 4 2 ltac:(lia) ltac:(by left))
    as (A & b & Hb & Hr & Hc & Hl & _ & Hbd & Hin).
  assert (HN : num_points 4 2 = 16) by reflexivity. rewrite HN in *.
  exists A, b. do 4 (split; [done|]).
  destruct (Hin 5 ltac:(lia) ltac:(vm_compute; reflexivity)) as [H55 Hrow].
  destruct (Hbd 4 ltac:(lia) ltac:(vm_compute; reflexivity)) as [H44 _].
  rewrite H55, H44, (Hrow 6), (Hrow 4) by lia.
  vm_compute. auto.
Defined.

(** X5.  On a supported grid with [n >= 0], in any arithmetic, the oracle
    prints nothing and returns a vector of length [N] whose entry at every
    linear index is the manufactured solution at the point of that index:
    the sine of the product of its physical coordinates. *)
Theorem exact_solution_values {F : Type} `{Num F} (n D : Z) :
  0 <= n -> D = 2 \/ D = 3 ->
  let N := num_points n D in
  exists u,
    exact_solution (F := F) D n = ([], Some u) /\
    length u = Z.to_nat N /\
    (forall p, 0 <= p < N -> u !! Z.to_nat p = Some (u0_grid n D p)) /\
    (forall p, D = 2 ->
       u0_grid (F := F) n D p =
       fsin (fmul (fmul (of_Z (p / n + 1)) (grid_spacing n))
                  (fmul (of_Z (p mod n + 1)) (grid_spacing n)))) /\
    (forall p, D = 3 ->
       u0_grid (F := F) n D p =
       fsin (fmul (fmul (fmul (of_Z (p / (n * n) + 1)) (grid_spacing n))
                        (fmul (of_Z (p mod (n * n) / n + 1)) (grid_spacing n)))
                  (fmul (of_Z (p mod n + 1)) (grid_spacing n)))).
Proof.
  intros Hn HD N.
  destruct (exact_solution_spec (F := F) n D Hn HD) as (u & Hu & Hl & Hv).
  fold N in Hl, Hv. exists u. split; [done|]. split; [done|]. split; [|split].
  - intros p Hp. specialize (Hv p Hp). unfold vget in Hv. rewrite nth_lookup in Hv.
    destruct (lookup_lt_is_Some_2 u (Z.to_nat p) ltac:(lia)) as [y Hy].
    rewrite Hy in Hv |- *. simpl in Hv. by subst.
  - intros p ->. reflexivity.
  - intros p ->. reflexivity.
Qed.

(** The statement on the 2 x 2 x 2 grid, in exact arithmetic. *)
Lemma exact_solution_values_witness :
  exists u,
    exact_solution (F := R) 3 2 = ([], Some u) /\
    length u = 8%nat /\
    (forall p, 0 <= p < 8 -> u !! Z.to_nat p = Some (u0_grid 2 3 p)).
Proof.
  destruct (exact_solution_values (F := R) 2 3 ltac:(lia) ltac:(by right))
    as (u & H1 & H2 & H3 & _).
  by exists u.
Defined.

(** * The elimination pass at the interior entries *)

Lemma filter_ext_in {A} (P Q : A -> Prop) `{forall a, Decision (P a)}
    `{forall a, Decision (Q a)} (l : list A) :
  (forall a, a ∈ l -> P a <-> Q a) -> filter P l = filter Q l.
Proof.
  induction l as [|a l IH]; intros HPQ; [done|].
  rewrite !filter_cons, IH by (intros b Hb; apply HPQ; by apply list_elem_of_further).
  pose proof (HPQ a (list_elem_of_here _ _)).
  destruct (decide (P a)), (decide (Q a)); tauto.
Qed.

Section EliminationPass.
Context {F : Type} `{Num F}.
Variables (A : sparse) (nbrs : Z -> list Z).

(** The inner loop of the pass for the boundary node [p], whose value
    [u] was read before the loop. *)
Let adjust (p : Z) (u : F) (fv : list F) (q : Z) : list F :=
  if sp_get A q p =? 0 then fv
  else vset fv q (fsub (vget fv q) (fmul (of_Z (sp_get A q p)) u)).

Lemma length_adjust_loop p u (l : list Z) fv :
  length (foldl (adjust p u) fv l) = length fv.
Proof.
  revert fv. induction l as [|q l IH]; intros fv; cbn [foldl]; [done|].
  rewrite IH. unfold adjust. destruct (sp_get A q p =? 0); [done | apply length_vset].
Qed.

Lemma adjust_loop_untouched p u (l : list Z) fv (q : Z) :
  (forall q', q' ∈ l -> 0 <= q') -> 0 <= q ->
  ~ (q ∈ l /\ sp_get A q p <> 0) ->
  vget (foldl (adjust p u) fv l) q = vget fv q.
Proof.
  revert fv. induction l as [|q' l IH]; intros fv Hpos Hq Hno; cbn [foldl]; [done|].
  rewrite IH; [| by (intros r Hr; apply Hpos; by apply list_elem_of_further) | done |
               by (intros [? ?]; apply Hno; split; [by apply list_elem_of_further | done])].
  unfold adjust. destruct (sp_get A q' p =? 0) eqn:Hz; [done|].
  apply vget_vset_ne; [apply Hpos; apply list_elem_of_here | done |].
  intros ->. apply Hno. split; [apply list_elem_of_here | lia].
Qed.

Lemma adjust_loop_at p u (l : list Z) fv (q : Z) :
  NoDup l -> (forall q', q' ∈ l -> 0 <= q') ->
  0 <= q -> (q ∈ l -> (Z.to_nat q < length fv)%nat) ->
  vget (foldl (adjust p u) fv l) q =
  if decide (q ∈ l /\ sp_get A q p <> 0)
  then fsub (vget fv q) (fmul (of_Z (sp_get A q p)) u) else vget fv q.
Proof.
  revert fv. induction l as [|q' l IH]; intros fv Hnd Hpos Hq Hlen; cbn [foldl].
  - rewrite decide_False; [done|]. intros [Hin _]. by apply elem_of_nil in Hin.
  - apply NoDup_cons in Hnd as [Hq' Hnd].
    assert (Hpos' : forall r, r ∈ l -> 0 <= r)
      by (intros r Hr; apply Hpos; by apply list_elem_of_further).
    pose proof (Hpos q' (list_elem_of_here _ _)) as Hq'0.
    assert (Hlen1 : length (adjust p u fv q') = length fv)
      by (unfold adjust; destruct (sp_get A q' p =? 0); [done | apply length_vset]).
    rewrite IH; [|done | done | done |
                 by (intros Hin; rewrite Hlen1; apply Hlen; by apply list_elem_of_further)].
    destruct (decide (q = q')) as [<- | Hne].
    + rewrite (decide_False (P := q ∈ l /\ _)) by tauto.
      unfold adjust. destruct (sp_get A q p =? 0) eqn:Hz.
      * rewrite decide_False; [done|]. intros [_ ?]. lia.
      * rewrite decide_True by (split; [apply list_elem_of_here | lia]).
        apply vget_vset_eq; [done|]. apply Hlen. apply list_elem_of_here.
    + assert (Hsame : vget (adjust p u fv q') q = vget fv q).
      { unfold adjust. destruct (sp_get A q' p =? 0); [done|].
        apply vget_vset_ne; [done | done | congruence]. }
      rewrite Hsame.
      destruct (decide (q ∈ l /\ sp_get A q p <> 0)) as [[Hin Hnz] | Hno].
      * rewrite decide_True; [done|]. split; [by apply list_elem_of_further | done].
      * rewrite decide_False; [done|]. intros [Hin Hnz]. apply Hno.
        apply elem_of_cons in Hin as [? | ?]; [congruence | done].
Qed.

(** The entry [q] after the whole pass: the values of the boundary nodes
    that have [q] as a neighbour with a non-zero matrix entry are
    subtracted, times that entry, in the order of the boundary list. *)
Lemma eliminate_boundary_at (bl : list Z) (fv : list F) (q : Z) :
  0 <= q -> (Z.to_nat q < length fv)%nat ->
  (forall p, p ∈ bl -> 0 <= p /\ NoDup (nbrs p) /\ forall q', q' ∈ nbrs p -> 0 <= q') ->
  (forall p q', p ∈ bl -> q' ∈ nbrs p -> sp_get A q' p <> 0 -> q' ∉ bl) ->
  vget (eliminate_boundary nbrs A fv bl) q =
  foldl (fun acc p => fsub acc (fmul (of_Z (sp_get A q p)) (vget fv p))) (vget fv q)
        (filter (fun p => q ∈ nbrs p /\ sp_get A q p <> 0) bl).
Proof.
  intros Hq. unfold eliminate_boundary. revert fv.
  induction bl as [|p bl IH]; intros fv Hlen Hbl Hw; cbn [foldl]; [done|].
  cbv zeta.
  change (foldl (fun fv0 q0 => if sp_get A q0 p =? 0 then fv0
                               else vset fv0 q0 (fsub (vget fv0 q0)
                                                     (fmul (of_Z (sp_get A q0 p)) (vget fv p))))
                fv (nbrs p))
    with (foldl (adjust p (vget fv p)) fv (nbrs p)).
  set (fv1 := foldl (adjust p (vget fv p)) fv (nbrs p)).
  destruct (Hbl p (list_elem_of_here _ _)) as (Hp0 & Hnd & Hpos).
  assert (Hl1 : length fv1 = length fv) by apply length_adjust_loop.
  rewrite IH; [|by rewrite Hl1 |
               by (intros p' Hp'; apply Hbl; by apply list_elem_of_further) |
               by (intros p' q' Hp' Hq' Hnz Hin;
                   apply (Hw p' q' (list_elem_of_further _ _ _ Hp') Hq' Hnz);
                   by apply list_elem_of_further)].
  assert (Hkeep : forall p', p' ∈ p :: bl -> vget fv1 p' = vget fv p').
  { intros p' Hp'. subst fv1. destruct (Hbl p' Hp') as (Hp'0 & _).
    destruct (decide (p' ∈ nbrs p /\ sp_get A p' p <> 0)) as [[Hin Hnz] | Hno].
    - exfalso. by apply (Hw p p' (list_elem_of_here _ _) Hin Hnz).
    - by apply adjust_loop_untouched. }
  rewrite (foldl_ext_in _ (fun acc p0 => fsub acc (fmul (of_Z (sp_get A q p0)) (vget fv p0)))
             (filter _ bl)).
  2:{ intros x p' Hp'. apply list_elem_of_filter in Hp' as [_ Hp'].
      rewrite Hkeep by (by apply list_elem_of_further). done. }
  rewrite filter_cons. subst fv1.
  rewrite adjust_loop_at by (done || (intros; lia)).
  destruct (decide (q ∈ nbrs p /\ sp_get A q p <> 0)); done.
Qed.

End EliminationPass.

(** The value the assembly loops store at a boundary point. *)
Lemma assembled_rhs_grid_boundary {F : Type} `{Num F} n D p :
  grid_boundary n D p = true -> assembled_rhs_grid (F := F) n D p = u0_grid n D p.
Proof.
  unfold assembled_rhs_grid, u0_grid, grid_boundary, assembled_rhs_2d, assembled_rhs_3d.
  destruct (D =? 2); by intros ->.
Qed.

(** The interior entries of the right-hand side the assembler returns. *)
Lemma build_rhs_interior {F : Type} `{Num F} (n D q : Z) :
  1 <= n -> D = 2 \/ D = 3 ->
  let N := num_points n D in
  0 <= q < N -> grid_boundary n D q = false ->
  exists A b,
    build_matrix_and_rhs (F := F) n D = ([], (Some A, Some b)) /\
    vget b q =
    foldl (fun acc p => fsub acc (fmul (of_Z (-1)) (u0_grid n D p)))
          (assembled_rhs_grid n D q)
          (filter (fun p => grid_boundary n D p = true /\ p ∈ grid_neighbors n D q)
                  (seqZ 0 N)).
Proof.
  intros Hn HD N Hq Hbq.
  pose proof (num_points_pos n D Hn) as HN. fold N in HN.
  rewrite build_matrix_and_rhs_passes by (done || lia). fold N.
  set (st := foldl _ _ (seqZ 0 N)).
  eexists _, _. split; [reflexivity|].
  destruct (assemble_prefix N (grid_boundary n D) (grid_diagonal D)
              (grid_neighbors n D) (assembled_rhs_grid n D) (grid_diagonal_nonzero D)
              (fun p Hp => grid_neighbors_irrefl n D p Hn HD Hp)
              (Z.to_nat N) ltac:(lia)) as (He & _ & _ & Hl & Hf & Hb).
  rewrite Z2Nat.id in He, Hl, Hf, Hb by lia. fold st in He, Hl, Hf, Hb.
  assert (Hget : forall a c, 0 <= a < N ->
            sp_get (asm_A st) a c =
            default 0 (row_lookup (grid_boundary n D) (grid_diagonal D)
                                  (grid_neighbors n D) a c))
    by (intros a c Ha; unfold sp_get; by rewrite He, decide_True).
  assert (Hbl : forall p, p ∈ asm_boundary st <-> 0 <= p < N /\ grid_boundary n D p = true)
    by (intros p; rewrite Hb, list_elem_of_filter, elem_of_seqZ; tauto).
  rewrite eliminate_boundary_at.
  - rewrite Hb, list_filter_filter, (Hf q Hq).
    rewrite (filter_ext_in _ (fun p => grid_boundary n D p = true /\
                                       p ∈ grid_neighbors n D q) (seqZ 0 N)).
    + apply foldl_ext_in. intros x p Hp.
      apply list_elem_of_filter in Hp as [[Hbp Hpq] Hp]. apply elem_of_seqZ in Hp.
      rewrite (Hf p) by lia. rewrite assembled_rhs_grid_boundary by done.
      rewrite Hget by done. unfold row_lookup. rewrite Hbq.
      by rewrite decide_True.
    + intros p Hp. apply elem_of_seqZ in Hp. rewrite Hget by done.
      unfold row_lookup. rewrite Hbq. split.
      * intros [[Hqp Hnz] Hbp]. split; [done|].
        destruct (decide (p ∈ grid_neighbors n D q)); [done|].
        destruct (decide (p = q)) as [-> | ?]; [congruence | done].
      * intros [Hbp Hpq]. split; [|done]. split.
        -- apply grid_neighbors_sym; (done || lia).
        -- by rewrite decide_True.
  - lia.
  - rewrite Hl. lia.
  - intros p Hp. apply Hbl in Hp as [Hp _]. split; [lia|]. split.
    + by apply grid_neighbors_NoDup.
    + intros q' Hq'. pose proof (grid_neighbors_range n D p q' Hn HD Hp Hq'). lia.
  - intros p q' Hp Hq' Hnz Hin. apply Hbl in Hp as [Hp _]. apply Hbl in Hin as [Hq'r Hbq'].
    apply Hnz. rewrite Hget by done. unfold row_lookup. rewrite Hbq'.
    rewrite decide_False; [done|]. intros ->.
    by apply (grid_neighbors_irrefl n D q' Hn HD Hq'r).
Qed.

(** In exact arithmetic the subtractions add up the boundary values. *)
Lemma foldl_subtract_Rsum (u : Z -> R) (l : list Z) (a : R) :
  foldl (fun acc p => fsub acc (fmul (of_Z (-1)) (u p))) a l = (a + Rsum u l)%R.
Proof.
  revert a. induction l as [|p l IH]; intros a; cbn [foldl].
  - simpl. lra.
  - rewrite IH, Rsum_cons. simpl. lra.
Qed.

Lemma build_rhs_interior_real (n D q : Z) :
  1 <= n -> D = 2 \/ D = 3 ->
  0 <= q < num_points n D -> grid_boundary n D q = false ->
  exists A b,
    build_matrix_and_rhs (F := R) n D = ([], (Some A, Some b)) /\
    vget b q =
    (assembled_rhs_grid n D q +
     Rsum (fun p => if grid_boundary n D p then u0_grid n D p else 0)
          (grid_neighbors n D q))%R.
Proof.
  intros Hn HD Hq Hbq.
  destruct (build_rhs_interior (F := R) n D q Hn HD Hq Hbq) as (A & b & Hb & Hv).
  exists A, b. split; [done|]. rewrite Hv, foldl_subtract_Rsum. f_equal.
  rewrite Rsum_filter.
  rewrite <- (Rsum_indicator (fun p => if grid_boundary n D p then u0_grid n D p else 0%R)
                (seqZ 0 (num_points n D)) (grid_neighbors n D q)).
  - apply Rsum_ext. intros p _.
    destruct (decide (p ∈ grid_neighbors n D q)), (grid_boundary n D p) eqn:E.
    + rewrite decide_True; done.
    + rewrite decide_False; [done|]. intros [? _]. congruence.
    + rewrite decide_False; [done | tauto].
    + rewrite decide_False; [done | tauto].
  - apply NoDup_seqZ.
  - by apply grid_neighbors_NoDup.
  - intros p Hp. apply elem_of_seqZ.
    pose proof (grid_neighbors_range n D q p Hn HD Hq Hp). lia.
Qed.

(** X4.  At an interior index [q] of a supported grid the right-hand side the
    assembler returns is, in any arithmetic, the value [f h^2] of the
    assembly loops from which [-1 * u0(p)] has been subtracted once for
    every boundary neighbour [p] of [q], in increasing order of [p]; in
    exact arithmetic it is [f h^2] plus the manufactured solution at the
    boundary neighbours of [q]. *)
Theorem assembled_rhs_interior (n D q : Z) :
  1 <= n -> D = 2 \/ D = 3 ->
  0 <= q < num_points n D -> grid_boundary n D q = false ->
  (forall (F : Type) (HF : Num F),
     exists A b,
       build_matrix_and_rhs (F := F) n D = ([], (Some A, Some b)) /\
       vget b q =
       foldl (fun acc p => fsub acc (fmul (of_Z (-1)) (u0_grid n D p)))
             (assembled_rhs_grid n D q)
             (filter (fun p => grid_boundary n D p = true /\ p ∈ grid_neighbors n D q)
                     (seqZ 0 (num_points n D)))) /\
  (exists A b,
     build_matrix_and_rhs (F := R) n D = ([], (Some A, Some b)) /\
     vget b q =
     (assembled_rhs_grid n D q +
      Rsum (fun p => if grid_boundary n D p then u0_grid n D p else 0)
           (grid_neighbors n D q))%R).
Proof.
  intros Hn HD Hq Hbq. split.
  - intros F HF. by apply build_rhs_interior.
  - by apply build_rhs_interior_real.
Qed.

(** The statement at the interior point 5 of the 4 x 4 grid, whose
    boundary neighbours are 4 and 1. *)
Lemma assembled_rhs_interior_witness :
  exists A b,
    build_matrix_and_rhs (F := R) 4 2 = ([], (Some A, Some b)) /\
    vget b 5 = (assembled_rhs_grid 4 2 5 + (u0_grid 4 2 4 + (0 + (u0_grid 4 2 1 + (0 + 0)))))%R.
Proof.
  destruct (assembled_rhs_interior 4 2 5 ltac:(lia) ltac:(by left) ltac:(done)
              ltac:(vm_compute; reflexivity)) as [_ (A & b & Hb & Hv)].
  exists A, b. split; [exact Hb | exact Hv].
Defined.

(** * Further properties of the triangular solves *)

Section SubstitutionReads.
Context {F : Type} `{Num F}.
Implicit Types (L U : list (list F)) (b y : list F).

Lemma length_forward_substitution L b : length (forward_substitution L b) = length b.
Proof.
  unfold forward_substitution. generalize (seq 0 (length b)). intros l.
  assert (Hg : forall y, length (foldl (fun y i =>
              <[i := fdiv (fsub (nth i b (of_Z 0)) (dot (take i (mrow L i)) (take i y)))
                          (mget L i i)]> y) y l) = length y).
  { induction l as [|i l IH]; intros y; cbn [foldl]; [done|].
    by rewrite IH, length_insert. }
  by rewrite Hg, length_np_zeros.
Qed.

(** The forward loop reads, of row [i], the entries before the diagonal
    and the diagonal entry. *)
Lemma forward_substitution_ext L L' b :
  (forall i, (i < length b)%nat ->
     take i (mrow L i) = take i (mrow L' i) /\ mget L i i = mget L' i i) ->
  forward_substitution L b = forward_substitution L' b.
Proof.
  intros HL. unfold forward_substitution. apply foldl_ext_in.
  intros y i Hi. apply elem_of_seq in Hi. destruct (HL i ltac:(lia)) as [-> ->]. done.
Qed.

(** The backward loop reads, of row [i], the diagonal entry and the
    entries after it. *)
Lemma backward_substitution_ext U U' y :
  (forall i, (i < length y)%nat ->
     drop (S i) (mrow U i) = drop (S i) (mrow U' i) /\ mget U i i = mget U' i i) ->
  backward_substitution U y = backward_substitution U' y.
Proof.
  intros HU. unfold backward_substitution. apply foldl_ext_in.
  intros x i Hi. apply list_elem_of_In in Hi. apply in_rev in Hi.
  apply list_elem_of_In in Hi.
  apply elem_of_seq in Hi. destruct (HU i ltac:(lia)) as [-> ->]. done.
Qed.

Lemma take_eq_nth (d : F) (r r' : list F) (i : nat) :
  (i <= length r)%nat -> (i <= length r')%nat ->
  (forall j, (j < i)%nat -> nth j r d = nth j r' d) -> take i r = take i r'.
Proof.
  intros Hr Hr' Hj. apply list_eq. intros j.
  destruct (decide (j < i)%nat) as [Hlt | Hge].
  - rewrite !lookup_take_lt by done. specialize (Hj j Hlt).
    rewrite !nth_lookup in Hj.
    destruct (lookup_lt_is_Some_2 r j ltac:(lia)) as [a Ha].
    destruct (lookup_lt_is_Some_2 r' j ltac:(lia)) as [a' Ha'].
    rewrite Ha, Ha' in *. simpl in Hj. by subst.
  - rewrite !lookup_take_ge by lia. done.
Qed.

Lemma mrow_transpose L (i : nat) :
  (i < length (mrow L 0))%nat ->
  mrow (transpose L) i = (fun r => nth i r (of_Z 0)) <$> L.
Proof.
  intros Hi. unfold transpose, mrow at 1.
  rewrite nth_lookup, list_lookup_fmap, lookup_seq_lt by done. done.
Qed.

Lemma nth_mrow L (k : nat) (r : list F) (i : nat) :
  L !! k = Some r -> nth i r (of_Z 0) = mget L k i.
Proof. intros Hk. unfold mget, mrow. by rewrite (nth_lookup L), Hk. Qed.

End SubstitutionReads.

(** X6.  In any arithmetic, [solve_cholesky] reads of the stored factor only
    the diagonal and the entries below it: two problem objects with the
    same right-hand side whose [n x n] factors agree there return the same
    vector, whatever stands above the diagonals. *)
Theorem solve_cholesky_reads_lower_triangle {F : Type} `{Num F}
    (self self' : @Problem F) (n : nat) :
  rhs self' = rhs self -> length (rhs self) = n ->
  length (cholesky_factor self) = n -> length (cholesky_factor self') = n ->
  (forall i, (i < n)%nat ->
     length (mrow (cholesky_factor self) i) = n /\
     length (mrow (cholesky_factor self') i) = n) ->
  (forall i j, (j <= i)%nat -> (i < n)%nat ->
     mget (cholesky_factor self') i j = mget (cholesky_factor self) i j) ->
  solve_cholesky self' = solve_cholesky self.
Proof.
  intros Hb Hn HL HL' Hrows Hlow. unfold solve_cholesky. rewrite Hb.
  set (L := cholesky_factor self) in *. set (L' := cholesky_factor self') in *.
  assert (Hf : forward_substitution L' (rhs self) = forward_substitution L (rhs self)).
  { apply forward_substitution_ext. intros i Hi. rewrite Hn in Hi.
    destruct (Hrows i Hi) as [Hr Hr']. split; [|by apply Hlow].
    apply (take_eq_nth (of_Z 0)); [lia | lia |].
    intros j Hj. apply Hlow; lia. }
  rewrite Hf. apply backward_substitution_ext.
  intros i Hi. rewrite length_forward_substitution, Hn in Hi.
  destruct (Hrows 0%nat ltac:(lia)) as [Hr0 Hr0'].
  rewrite !mrow_transpose by lia.
  destruct (lookup_lt_is_Some_2 L i ltac:(lia)) as [r Hr].
  destruct (lookup_lt_is_Some_2 L' i ltac:(lia)) as [r' Hr'].
  split.
  - rewrite <- !fmap_drop. apply list_eq. intros k.
    rewrite !list_lookup_fmap, !lookup_drop.
    destruct (decide (S i + k < n)%nat) as [Hk | Hk].
    + destruct (lookup_lt_is_Some_2 L (S i + k) ltac:(lia)) as [s Hs].
      destruct (lookup_lt_is_Some_2 L' (S i + k) ltac:(lia)) as [s' Hs'].
      rewrite Hs, Hs'. simpl. f_equal.
      rewrite (nth_mrow L' _ _ _ Hs'), (nth_mrow L _ _ _ Hs). apply Hlow; lia.
    + rewrite (lookup_ge_None_2 L), (lookup_ge_None_2 L') by lia. done.
  - unfold mget. rewrite !mrow_transpose by lia.
    rewrite !(nth_lookup (_ <$> _)), !list_lookup_fmap, Hr, Hr'. simpl.
    rewrite (nth_mrow L' _ _ _ Hr'), (nth_mrow L _ _ _ Hr). by apply Hlow.
Qed.

(** Two objects whose factors differ above the diagonal only. *)
Lemma solve_cholesky_reads_lower_triangle_witness :
  let self := {| n_elements := 1; dimension := 2; matrix := lil_matrix 2 2;
                 rhs := [2; 3]%R; reordered_matrix := lil_matrix 2 2;
                 cholesky_factor := [[2; 0]; [1; 1]]%R;
                 cholesky_factor_reorderd := [] |} in
  let self' := {| n_elements := 1; dimension := 2; matrix := lil_matrix 2 2;
                  rhs := [2; 3]%R; reordered_matrix := lil_matrix 2 2;
                  cholesky_factor := [[2; 7]; [1; 1]]%R;
                  cholesky_factor_reorderd := [] |} in
  solve_cholesky self' = solve_cholesky self.
Proof.
  intros self self'.
  apply (solve_cholesky_reads_lower_triangle (F := R) self self' 2).
  - reflexivity.
  - reflexivity.
  - reflexivity.
  - reflexivity.
  - intros [|[|i]] Hi; [split; reflexivity | split; reflexivity | lia].
  - intros [|[|i]] [|[|j]] Hj Hi; try lia; reflexivity.
Defined.

(** * Triangular systems have one solution; the factor reproduces the matrix *)

Section TriangularKernel.
Local Open Scope R_scope.
Variables (n : nat) (M : nat -> nat -> R) (d : nat -> R).
Hypothesis M_diag : forall i, (i < n)%nat -> M i i <> 0.
Hypothesis M_d : forall i, (i < n)%nat -> Rsum (fun k => M i k * d k) (seq 0 n) = 0.

Lemma lower_triangular_kernel :
  (forall i k, (i < k)%nat -> (k < n)%nat -> M i k = 0) ->
  forall i, (i < n)%nat -> d i = 0.
Proof.
  intros Hlow i. induction i as [i IH] using lt_wf_ind. intros Hi.
  pose proof (M_d i Hi) as Hs.
  rewrite (Rsum_seq_split _ n i Hi) in Hs.
  rewrite (Rsum_all_zero _ (seq 0 i)) in Hs
    by (intros k Hk; apply elem_of_seq in Hk; rewrite (IH k) by lia; lra).
  rewrite (Rsum_all_zero _ (seq (S i) _)) in Hs
    by (intros k Hk; apply elem_of_seq in Hk; rewrite (Hlow i k) by lia; lra).
  destruct (Rmult_integral (M i i) (d i) ltac:(lra)) as [H0 | H0]; [|done].
  by apply M_diag in H0.
Qed.

Lemma upper_triangular_kernel :
  (forall i k, (k < i)%nat -> (i < n)%nat -> M i k = 0) ->
  forall i, (i < n)%nat -> d i = 0.
Proof.
  intros Hup.
  assert (Hm : forall m i, (n - m <= i)%nat -> (i < n)%nat -> d i = 0).
  { induction m as [|m IH]; intros i Hlo Hi; [lia|].
    pose proof (M_d i Hi) as Hs.
    rewrite (Rsum_seq_split _ n i Hi) in Hs.
    rewrite (Rsum_all_zero _ (seq 0 i)) in Hs
      by (intros k Hk; apply elem_of_seq in Hk; rewrite (Hup i k) by lia; lra).
    rewrite (Rsum_all_zero _ (seq (S i) _)) in Hs
      by (intros k Hk; apply elem_of_seq in Hk; rewrite (IH k) by lia; lra).
    destruct (Rmult_integral (M i i) (d i) ltac:(lra)) as [H0 | H0]; [|done].
    by apply M_diag in H0. }
  intros i Hi. apply (Hm n); lia.
Qed.

End TriangularKernel.

Section RoundTrip.
Local Open Scope R_scope.

Lemma nth_fmap_seq (g : nat -> R) (n i : nat) :
  (i < n)%nat -> nth i (g <$> seq 0 n) 0 = g i.
Proof. intros Hi. by rewrite nth_lookup, list_lookup_fmap, lookup_seq_lt. Qed.

(** A vector that satisfies the lower triangular system is the one
    [forward_substitution] returns. *)
Lemma forward_substitution_unique (L : list (list R)) (b v : list R) (n : nat) :
  length b = n -> well_shaped n L -> lower_triangular n L ->
  (forall i, (i < n)%nat -> mget L i i <> 0) ->
  length v = n -> (forall i, (i < n)%nat -> mat_vec n (mget L) v i = nth i b 0) ->
  forward_substitution L b = v.
Proof.
  intros Hb HL Hlow Hd Hv Hsol.
  destruct (forward_substitution_solves L b n Hb HL Hlow Hd) as [Hl Hy].
  apply (nth_ext _ _ 0 0); [lia|]. intros i Hi. rewrite Hl in Hi.
  apply Rminus_diag_uniq.
  apply (lower_triangular_kernel n (mget L)
           (fun k => nth k (forward_substitution L b) 0 - nth k v 0) Hd); [|by apply Hlow|done].
  intros j Hj. specialize (Hy j Hj). specialize (Hsol j Hj). unfold mat_vec in *.
  rewrite (Rsum_ext _ (fun k => mget L j k * nth k (forward_substitution L b) 0 -
                                mget L j k * nth k v 0)) by (intros; ring).
  rewrite Rsum_minus. lra.
Qed.

Lemma backward_substitution_unique (U : list (list R)) (y v : list R) (n : nat) :
  length y = n -> well_shaped n U ->
  (forall i k, (k < i)%nat -> (i < n)%nat -> mget U i k = 0) ->
  (forall i, (i < n)%nat -> mget U i i <> 0) ->
  length v = n -> (forall i, (i < n)%nat -> mat_vec n (mget U) v i = nth i y 0) ->
  backward_substitution U y = v.
Proof.
  intros Hy HU Hup Hd Hv Hsol.
  destruct (backward_substitution_solves U y n Hy HU Hup Hd) as [Hl Hx].
  apply (nth_ext _ _ 0 0); [lia|]. intros i Hi. rewrite Hl in Hi.
  apply Rminus_diag_uniq.
  apply (upper_triangular_kernel n (mget U)
           (fun k => nth k (backward_substitution U y) 0 - nth k v 0) Hd); [|by apply Hup|done].
  intros j Hj. specialize (Hx j Hj). specialize (Hsol j Hj). unfold mat_vec in *.
  rewrite (Rsum_ext _ (fun k => mget U j k * nth k (backward_substitution U y) 0 -
                                mget U j k * nth k v 0)) by (intros; ring).
  rewrite Rsum_minus. lra.
Qed.

End RoundTrip.

(** X7.  In exact arithmetic, for an [n x n] lower triangular [L] with non-zero
    diagonal, the two solves undo the products: [forward_substitution]
    applied to [L v] returns [v], and [backward_substitution] applied to
    the transpose of [L] and to [L^T v] returns [v]. *)
Theorem substitution_undoes_product (L : list (list R)) (v : list R) (n : nat) :
  well_shaped n L -> lower_triangular n L ->
  (forall i, (i < n)%nat -> mget L i i <> 0%R) -> length v = n ->
  forward_substitution L (mat_vec n (mget L) v <$> seq 0 n) = v /\
  backward_substitution (transpose L)
    (mat_vec n (fun i k => mget L k i) v <$> seq 0 n) = v.
Proof.
  intros HL Hlow Hd Hv. split.
  - apply (forward_substitution_unique L _ v n); try done.
    + by rewrite length_fmap, length_seq.
    + intros i Hi. by rewrite nth_fmap_seq.
  - destruct (transpose_spec L n HL) as [HLt Ht].
    apply (backward_substitution_unique (transpose L) _ v n); try done.
    + by rewrite length_fmap, length_seq.
    + intros i k Hk Hi. rewrite Ht by lia. apply Hlow; lia.
    + intros i Hi. rewrite Ht by lia. by apply Hd.
    + intros i Hi. rewrite nth_fmap_seq by done. unfold mat_vec.
      apply Rsum_ext. intros k Hk. apply elem_of_seq in Hk. by rewrite Ht by lia.
Qed.

(** The statement for the factor [[2, 0], [1, 1]] and [v = [1, 2]]. *)
Lemma substitution_undoes_product_witness :
  let L := [[2; 0]; [1; 1]]%R in
  let v := [1; 2]%R in
  forward_substitution L (mat_vec 2 (mget L) v <$> seq 0 2) = v /\
  backward_substitution (transpose L) (mat_vec 2 (fun i k => mget L k i) v <$> seq 0 2) = v.
Proof.
  apply (substitution_undoes_product [[2; 0]; [1; 1]]%R [1; 2]%R 2).
  - split; [reflexivity|]. intros [|[|i]] Hi; [reflexivity | reflexivity | lia].
  - intros [|[|i]] [|[|j]] Hij Hj; try lia. reflexivity.
  - intros [|[|i]] Hi; [cbv [mget mrow nth]; lra | cbv [mget mrow nth]; lra | lia].
  - reflexivity.
Defined.

Section FactorProduct.
Local Open Scope R_scope.

(** A complete factor is lower triangular with positive diagonal, and the
    products of its rows are the entries of the matrix. *)
Lemma cholesky_factor_product (n : nat) (A L : list (list R)) :
  (forall i j, (i < n)%nat -> (j < n)%nat -> mget A i j = mget A j i) ->
  cholesky_factor_of n A L ->
  well_shaped n L /\ lower_triangular n L /\
  (forall i, (i < n)%nat -> 0 < mget L i i) /\
  (forall a b, (a < n)%nat -> (b < n)%nat -> L_Lt n L a b = mget A a b).
Proof.
  intros Hsym (HL & Hz & Hdiag & Hoff).
  assert (Hlow : forall a b, (b < a)%nat -> (a < n)%nat -> L_Lt n L a b = mget A a b).
  { intros a b Hba Ha. unfold L_Lt.
    rewrite (Rsum_seq_split _ n b) by lia.
    rewrite (Rsum_all_zero _ (seq (S b) _)).
    - pose proof (Hoff a b ltac:(lia) Hba Ha). lra.
    - intros k Hk. apply elem_of_seq in Hk. rewrite (Hz b k) by lia. lra. }
  split; [done|]. split; [|split].
  - intros i j Hij Hj. apply Hz; lia.
  - intros i Hi. by destruct (Hdiag i Hi).
  - intros a b Ha Hb. destruct (lt_eq_lt_dec a b) as [[Hlt | ->] | Hgt].
    + rewrite Hsym, <- (Hlow b a) by lia. unfold L_Lt. apply Rsum_ext. intros; lra.
    + unfold L_Lt. rewrite (Rsum_seq_split _ n b) by lia.
      rewrite (Rsum_all_zero _ (seq (S b) _)).
      * pose proof (Hdiag b Hb) as [_ Hd]. lra.
      * intros k Hk. apply elem_of_seq in Hk. rewrite (Hz b k) by lia. lra.
    + by apply Hlow.
Qed.

(** [cholesky] on a symmetric positive definite sparse matrix. *)
Lemma cholesky_spd (A : sparse) (N : Z) :
  nrows A = N -> ncols A = N ->
  (forall p q, sp_get A p q = sp_get A q p) ->
  pos_def (seqZ 0 N) (sp_real A) ->
  let n := Z.to_nat N in
  exists L,
    cholesky (F := R) A = Some L /\
    well_shaped n L /\ lower_triangular n L /\
    (forall i, (i < n)%nat -> 0 < mget L i i) /\
    (forall i j, (i < n)%nat -> (j < n)%nat -> L_Lt n L i j = sp_dense A i j).
Proof.
  intros Hr Hc Hsym Hpd n.
  destruct (toarray_spec A N Hr Hc) as [Hsh Hent]. fold n in Hsh, Hent.
  assert (Hs : forall i j, (i < n)%nat -> (j < n)%nat ->
            mget (toarray A) i j = mget (toarray A) j i).
  { intros i j Hi Hj. rewrite !Hent by done. unfold sp_dense. by rewrite Hsym. }
  destruct (np_linalg_cholesky_spd n (toarray A) Hsh Hs) as (L & HL & HLf).
  { by apply toarray_pos_def. }
  destruct (cholesky_factor_product n (toarray A) L Hs HLf) as (H1 & H2 & H3 & H4).
  exists L. split; [done|]. split; [done|]. split; [done|]. split; [done|].
  intros i j Hi Hj. rewrite H4, Hent by done. done.
Qed.

End FactorProduct.

(** X8.  In exact arithmetic, on a square sparse matrix that is symmetric and
    positive definite, [cholesky] does not fail: it returns a lower
    triangular array [L] with positive diagonal such that [L L^T] is the
    matrix, entry by entry. *)
Theorem cholesky_reconstructs_matrix (A : sparse) (N : Z) :
  nrows A = N -> ncols A = N ->
  (forall p q, sp_get A p q = sp_get A q p) ->
  pos_def (seqZ 0 N) (sp_real A) ->
  let n := Z.to_nat N in
  exists L,
    cholesky (F := R) A = Some L /\
    well_shaped n L /\ lower_triangular n L /\
    (forall i, (i < n)%nat -> (0 < mget L i i)%R) /\
    (forall i j, (i < n)%nat -> (j < n)%nat -> L_Lt n L i j = sp_dense A i j).
Proof. apply cholesky_spd. Qed.

(** The statement for the matrix assembled on the 4 x 4 grid. *)
Lemma cholesky_reconstructs_matrix_witness :
  exists A b L,
    build_matrix_and_rhs (F := R) 4 2 = ([], (Some A, Some b)) /\
    cholesky (F := R) A = Some L /\
    lower_triangular 16 L /\
    (forall i j, (i < 16)%nat -> (j < 16)%nat -> L_Lt 16 L i j = sp_dense A i j).
Proof.
  destruct (build_matrix_facts (F := R) 4 2 ltac:(lia) ltac:(by left))
    as (A & b & Hb & Hr & Hc & _ & _ & _ & Hsym & Hpd).
  destruct (cholesky_reconstructs_matrix A (num_points 4 2) Hr Hc Hsym Hpd)
    as (L & HL & _ & Hlow & _ & Hprod).
  exists A, b, L. split; [exact Hb|]. split; [exact HL|]. split; [exact Hlow | exact Hprod].
Defined.

(** * The vector [solve_cholesky] returns on a constructed problem *)

Section SolveFacts.
Local Open Scope R_scope.

(** [solve_cholesky] with a factor of the stored matrix. *)
Lemma solve_cholesky_solves (self : @Problem R) (n : nat) :
  let L := cholesky_factor self in
  length (rhs self) = n -> well_shaped n L -> lower_triangular n L ->
  (forall i, (i < n)%nat -> mget L i i <> 0) ->
  (forall i j, (i < n)%nat -> (j < n)%nat -> L_Lt n L i j = sp_dense (matrix self) i j) ->
  length (solve_cholesky self) = n /\
  forall i, (i < n)%nat ->
    mat_vec n (sp_dense (matrix self)) (solve_cholesky self) i = nth i (rhs self) 0.
Proof.
  intros L Hb HL Hlow Hd HA. unfold solve_cholesky. fold L.
  destruct (forward_substitution_solves L (rhs self) n Hb HL Hlow Hd) as [Hly Hy].
  set (y := forward_substitution L (rhs self)) in *.
  destruct (transpose_spec L n HL) as [HLt Ht].
  destruct (backward_substitution_solves (transpose L) y n Hly HLt) as [Hlx Hx].
  { intros i k Hk Hi. rewrite Ht by lia. apply Hlow; lia. }
  { intros i Hi. rewrite Ht by lia. by apply Hd. }
  set (x := backward_substitution (transpose L) y) in *.
  split; [done|]. intros i Hi. rewrite <- (Hy i Hi). unfold mat_vec.
  rewrite (Rsum_ext _ (fun j => Rsum (fun k => mget L i k * (mget L j k * nth j x 0))
                                     (seq 0 n))).
  2:{ intros j Hj. apply elem_of_seq in Hj. rewrite <- HA by lia. unfold L_Lt.
      rewrite <- Rsum_scal_r. apply Rsum_ext. intros; lra. }
  rewrite Rsum_swap. apply Rsum_ext. intros k Hk. apply elem_of_seq in Hk.
  rewrite Rsum_scal. f_equal. rewrite <- (Hx k) by lia. unfold mat_vec.
  apply Rsum_ext. intros j Hj. apply elem_of_seq in Hj. by rewrite Ht by lia.
Qed.

(** A product of the matrix with a vector, over Python indices. *)
Lemma mat_vec_seqZ (A : sparse) (N : Z) (x : list R) (i : nat) :
  mat_vec (Z.to_nat N) (sp_dense A) x i =
  Rsum (fun q => IZR (sp_get A (Z.of_nat i) q) * vget x q) (seqZ 0 N).
Proof.
  unfold mat_vec. rewrite <- (seqZ_of_nat N), Rsum_fmap.
  apply Rsum_ext. intros k _. unfold sp_dense, vget. by rewrite Nat2Z.id.
Qed.

(** A positive definite matrix maps no other vector to zero. *)
Lemma pos_def_kernel {I} (idx : list I) (M : I -> I -> R) (z : I -> R) :
  pos_def idx M ->
  (forall i, i ∈ idx -> Rsum (fun j => M i j * z j) idx = 0) ->
  forall i, i ∈ idx -> z i = 0.
Proof.
  intros Hpd Hz i Hi. destruct (Req_dec_T (z i) 0) as [? | Hne]; [done|].
  exfalso. pose proof (Hpd z (ex_intro _ i (conj Hi Hne))) as Hq.
  unfold quad_form in Hq.
  rewrite (Rsum_all_zero _ idx) in Hq; [lra|].
  intros a Ha.
  rewrite (Rsum_ext _ (fun j => z a * (M a j * z j))) by (intros; ring).
  rewrite Rsum_scal, (Hz a Ha). ring.
Qed.

(** The rows of the assembled matrix applied to a vector. *)
Lemma grid_row_sum (n D : Z) (x : Z -> R) (p : Z) :
  (1 <= n)%Z -> (D = 2 \/ D = 3)%Z ->
  let N := num_points n D in
  (0 <= p < N)%Z ->
  Rsum (fun q => IZR (grid_entry n D p q) * x q) (seqZ 0 N) =
  if grid_boundary n D p then x p
  else IZR (2 * D) * x p -
       Rsum (fun r => if grid_boundary n D r then 0 else x r) (grid_neighbors n D p).
Proof.
  intros Hn HD N Hp.
  assert (Hin : p ∈ seqZ 0 N) by (apply elem_of_seqZ; lia).
  assert (Hdiag : grid_diagonal D = (2 * D)%Z)
    by (destruct HD as [-> | ->]; reflexivity).
  unfold grid_entry, system_entry. destruct (grid_boundary n D p) eqn:Hbp; simpl.
  - rewrite (Rsum_ext _ (fun q => if decide (p = q) then x q else 0)).
    + rewrite Rsum_delta; [done | apply NoDup_seqZ | done].
    + intros q _. destruct (decide (p = q)); lra.
  - rewrite (Rsum_ext _ (fun q => (if decide (p = q) then IZR (2 * D) * x q else 0) -
                                  (if decide (q ∈ grid_neighbors n D p)
                                   then (if grid_boundary n D q then 0 else x q) else 0))).
    + rewrite Rsum_minus, Rsum_delta; [|apply NoDup_seqZ | done]. f_equal.
      apply Rsum_indicator; [apply NoDup_seqZ | by apply grid_neighbors_NoDup |].
      intros q Hq. apply elem_of_seqZ.
      pose proof (grid_neighbors_range n D p q Hn HD Hp Hq). lia.
    + intros q _. destruct (decide (p = q)) as [<- | Hpq].
      * rewrite (decide_False (P := p ∈ _))
          by (by apply grid_neighbors_irrefl). rewrite Hdiag. lra.
      * destruct (decide (q ∈ grid_neighbors n D p)) as [Hq | Hq].
        -- rewrite (bool_decide_eq_true_2 _ Hq). destruct (grid_boundary n D q); simpl; lra.
        -- rewrite (bool_decide_eq_false_2 _ Hq), andb_false_r. lra.
Qed.

End SolveFacts.

(** X9.  In exact arithmetic, for every supported grid with [n >= 1] and every
    ordering routine that returns permutations, [Problem(n, D)] is
    constructed and [solve_cholesky] returns the one solution [x] of the
    assembled system [A x = rhs].  That vector takes the manufactured
    solution at the boundary points, and at each interior point [q] it
    satisfies the difference equation
    [2 D x[q] - sum of x over the neighbours of q = f(q) h^2]. *)
Theorem solve_cholesky_solves_poisson (rcm : sparse -> list Z) (n D : Z) :
  rcm_valid rcm -> 1 <= n -> D = 2 \/ D = 3 ->
  let N := num_points n D in
  exists self : @Problem R,
    Problem_init rcm n D = ([], inr self) /\
    let x := solve_cholesky self in
    length x = Z.to_nat N /\
    (forall p, 0 <= p < N ->
       Rsum (fun q => IZR (sp_get (matrix self) p q) * vget x q)%R (seqZ 0 N) =
       vget (rhs self) p) /\
    (forall z : Z -> R,
       (forall p, 0 <= p < N ->
          Rsum (fun q => IZR (sp_get (matrix self) p q) * z q)%R (seqZ 0 N) =
          vget (rhs self) p) ->
       forall p, 0 <= p < N -> z p = vget x p) /\
    (forall p, 0 <= p < N -> grid_boundary n D p = true -> vget x p = u0_grid n D p) /\
    (forall q, 0 <= q < N -> grid_boundary n D q = false ->
       (IZR (2 * D) * vget x q - Rsum (vget x) (grid_neighbors n D q))%R =
       assembled_rhs_grid n D q).
Proof.
  intros Hrcm Hn HD N.
  destruct (Problem_init_constructs rcm Hrcm n D Hn HD)
    as (A & b & L & L' & Hb & Hi & HL & _).
  destruct (build_matrix_facts (F := R) n D Hn HD)
    as (A0 & b0 & Hb0 & Hr & Hc & Hlb & _ & Hg & Hsym & Hpd).
  rewrite Hb in Hb0. injection Hb0 as <- <-. fold N in Hr, Hc, Hlb, Hg, Hpd, HL.
  pose proof (num_points_pos n D Hn) as HN. fold N in HN.
  destruct (toarray_spec A N Hr Hc) as [_ Hent].
  destruct (cholesky_factor_product (Z.to_nat N) (toarray A) L) as (H1 & H2 & H3 & H4);
    [|done|].
  { intros i j Hi' Hj'. rewrite !Hent by done. unfold sp_dense. by rewrite Hsym. }
  eexists. split; [exact Hi|]. cbv zeta.
  set (self := {| n_elements := n; dimension := D; matrix := A; rhs := b;
                  reordered_matrix := reorder rcm A; cholesky_factor := L;
                  cholesky_factor_reorderd := L' |}).
  destruct (solve_cholesky_solves self (Z.to_nat N)) as [Hlx Hx]; try done.
  { intros i Hi'. apply Rgt_not_eq. by apply H3. }
  { intros i j Hi' Hj'. rewrite H4, Hent by done. done. }
  set (x := solve_cholesky self) in *.
  change (matrix self) with A. change (rhs self) with b.
  assert (HAx : forall p, 0 <= p < N ->
            Rsum (fun q => IZR (sp_get A p q) * vget x q)%R (seqZ 0 N) = vget b p).
  { intros p Hp. specialize (Hx (Z.to_nat p) ltac:(lia)).
    rewrite mat_vec_seqZ, Z2Nat.id in Hx by lia. exact Hx. }
  assert (Hrow : forall (z : Z -> R) p, 0 <= p < N ->
            Rsum (fun q => IZR (sp_get A p q) * z q)%R (seqZ 0 N) =
            Rsum (fun q => IZR (grid_entry n D p q) * z q)%R (seqZ 0 N)).
  { intros z p Hp. apply Rsum_ext. intros q Hq. apply elem_of_seqZ in Hq.
    by rewrite Hg, decide_True by lia. }
  assert (Hbx : forall p, 0 <= p < N -> grid_boundary n D p = true ->
            vget x p = u0_grid n D p).
  { intros p Hp Hbp. pose proof (HAx p Hp) as Hxp.
    rewrite Hrow, (grid_row_sum n D (vget x) p Hn HD Hp), Hbp in Hxp by done.
    rewrite Hxp.
    destruct (build_matrix_and_rhs_spec (F := R) n D Hn HD)
      as (A1 & b1 & Hb1 & _ & _ & _ & _ & Hv).
    rewrite Hb in Hb1. injection Hb1 as <- <-. by apply Hv. }
  split; [done|]. split; [done|]. split; [|split; [done|]].
  - intros z Hz p Hp. apply Rminus_diag_uniq.
    apply (pos_def_kernel (seqZ 0 N) (sp_real A) (fun q => z q - vget x q)%R Hpd);
      [|apply elem_of_seqZ; lia].
    intros a Ha. apply elem_of_seqZ in Ha. unfold sp_real.
    rewrite (Rsum_ext _ (fun q => IZR (sp_get A a q) * z q -
                                  IZR (sp_get A a q) * vget x q)%R) by (intros; ring).
    rewrite Rsum_minus, Hz, HAx by lia. ring.
  - intros q Hq Hbq. pose proof (HAx q Hq) as Hxq.
    rewrite Hrow, (grid_row_sum n D (vget x) q Hn HD Hq), Hbq in Hxq by done.
    destruct (build_rhs_interior_real n D q Hn HD Hq Hbq) as (A1 & b1 & Hb1 & Hv).
    rewrite Hb in Hb1. injection Hb1 as <- <-. rewrite Hv in Hxq.
    rewrite (Rsum_ext (vget x)
               (fun r => (if grid_boundary n D r then u0_grid n D r else 0) +
                         (if grid_boundary n D r then 0 else vget x r))%R).
    + rewrite Rsum_plus. lra.
    + intros r Hr'. pose proof (grid_neighbors_range n D q r Hn HD Hq Hr') as Hrr.
      destruct (grid_boundary n D r) eqn:Hbr; [|lra]. rewrite (Hbx r Hrr Hbr). lra.
Qed.

(** The statement on the 4 x 4 grid with the reversed natural order. *)
Lemma solve_cholesky_solves_poisson_witness :
  exists self : @Problem R,
    Problem_init reversed_order 4 2 = ([], inr self) /\
    length (solve_cholesky self) = 16%nat /\
    vget (solve_cholesky self) 0 = u0_grid 4 2 0 /\
    (4 * vget (solve_cholesky self) 5 -
     Rsum (vget (solve_cholesky self)) (grid_neighbors 4 2 5))%R =
    assembled_rhs_grid 4 2 5.
Proof.
  destruct (solve_cholesky_solves_poisson reversed_order 4 2 reversed_order_valid
              ltac:(lia) ltac:(by left)) as (self & Hi & Hl & _ & _ & Hb & Hq).
  exists self. split; [exact Hi|]. split; [exact Hl|]. split.
  - apply Hb; [done | vm_compute; reflexivity].
  - apply (Hq 5); [done | vm_compute; reflexivity].
Defined.

(** * Further properties of the stored matrices *)

(** X10.  For an ordering routine that returns permutations and a square matrix
    whose stored entries lie inside its shape, [reorder()] returns a matrix
    with as many stored entries as the matrix it reads: relabelling moves
    entries, it neither drops nor adds one. *)
Theorem reorder_keeps_nnz (rcm : sparse -> list Z) (A : sparse) (N : Z) :
  rcm_valid rcm -> nrows A = N -> ncols A = N -> 0 <= N ->
  (forall a b, is_Some (entries A !! (a, b)) -> 0 <= a < N /\ 0 <= b < N) ->
  nnz (reorder rcm A) = nnz A.
Proof. apply nnz_reorder. Qed.

(** The statement for the matrix assembled on the 4 x 4 grid and the
    reversed natural order. *)
Lemma reorder_keeps_nnz_witness :
  exists A b,
    build_matrix_and_rhs (F := R) 4 2 = ([], (Some A, Some b)) /\
    nnz (reorder reversed_order A) = nnz A.
Proof.
  destruct (build_matrix_facts (F := R) 4 2 ltac:(lia) ltac:(by left))
    as (A & b & Hb & Hr & Hc & _ & He & _).
  exists A, b. split; [exact Hb|].
  apply (reorder_keeps_nnz reversed_order A (num_points 4 2) reversed_order_valid Hr Hc).
  - done.
  - apply (system_lookup_keys A _ _ _ _ He).
Defined.

Section Dominance.
Local Open Scope R_scope.

(** The absolute values off the diagonal of a row of the assembled
    matrix add up to the number of interior neighbours of an interior
    point, and to nothing on a boundary row. *)
Lemma grid_row_abs_sum (n D : Z) (p : Z) :
  (1 <= n)%Z -> (D = 2 \/ D = 3)%Z -> (0 <= p < num_points n D)%Z ->
  Rsum (fun q => if decide (p = q) then 0 else Rabs (IZR (grid_entry n D p q)))
       (seqZ 0 (num_points n D)) =
  if grid_boundary n D p then 0
  else Rsum (fun r => if grid_boundary n D r then 0 else 1) (grid_neighbors n D p).
Proof.
  intros Hn HD Hp. unfold grid_entry, system_entry.
  destruct (grid_boundary n D p) eqn:Hbp; simpl.
  - apply Rsum_all_zero. intros q _. destruct (decide (p = q)); [done|].
    by rewrite Rabs_R0.
  - rewrite <- (Rsum_indicator (fun r => if grid_boundary n D r then 0 else 1)
                  (seqZ 0 (num_points n D)) (grid_neighbors n D p)).
    + apply Rsum_ext. intros q _. destruct (decide (p = q)) as [<- | Hpq].
      * by rewrite (decide_False (P := p ∈ _)) by (by apply grid_neighbors_irrefl).
      * destruct (decide (q ∈ grid_neighbors n D p)) as [Hq | Hq].
        -- rewrite (bool_decide_eq_true_2 _ Hq).
           destruct (grid_boundary n D q); simpl; [apply Rabs_R0|].
           rewrite Rabs_left; lra.
        -- rewrite (bool_decide_eq_false_2 _ Hq), andb_false_r. apply Rabs_R0.
    + apply NoDup_seqZ.
    + by apply grid_neighbors_NoDup.
    + intros q Hq. apply elem_of_seqZ.
      pose proof (grid_neighbors_range n D p q Hn HD Hp Hq). lia.
Qed.

End Dominance.

(** X11.  On a supported grid with [n >= 1], in any arithmetic, the matrix the
    assembler returns has a positive diagonal and is diagonally dominant
    by rows: in every row the absolute values of the entries off the
    diagonal add up to at most the diagonal entry, and to less on a
    boundary row. *)
Theorem assembled_matrix_diagonally_dominant {F : Type} `{Num F} (n D : Z) :
  1 <= n -> D = 2 \/ D = 3 ->
  let N := num_points n D in
  exists A b,
    build_matrix_and_rhs (F := F) n D = ([], (Some A, Some b)) /\
    forall p, 0 <= p < N ->
      0 < sp_get A p p /\
      (Rsum (fun q => if decide (p = q) then 0 else Rabs (IZR (sp_get A p q)))
            (seqZ 0 N) <= IZR (sp_get A p p))%R /\
      (grid_boundary n D p = true ->
       (Rsum (fun q => if decide (p = q) then 0 else Rabs (IZR (sp_get A p q)))
             (seqZ 0 N) < IZR (sp_get A p p))%R).
Proof.
  intros Hn HD N.
  destruct (build_matrix_grid_entry (F := F) n D Hn HD)
    as (A & b & Hb & Hr & Hc & Hl & He & Hg).
  fold N in Hg. exists A, b. split; [done|]. intros p Hp.
  assert (Hpp : sp_get A p p = if grid_boundary n D p then 1 else grid_diagonal D).
  { rewrite Hg, decide_True by lia. unfold grid_entry, system_entry.
    by rewrite decide_True. }
  assert (Hsum : Rsum (fun q => if decide (p = q) then 0%R
                                else Rabs (IZR (sp_get A p q))) (seqZ 0 N) =
                 Rsum (fun q => if decide (p = q) then 0%R
                                else Rabs (IZR (grid_entry n D p q))) (seqZ 0 N)).
  { apply Rsum_ext. intros q Hq. apply elem_of_seqZ in Hq.
    destruct (decide (p = q)); [done|]. by rewrite Hg, decide_True by lia. }
  pose proof (grid_row_abs_sum n D p Hn HD Hp) as Habs. fold N in Habs.
  rewrite Hsum, Habs, Hpp.
  destruct (grid_boundary n D p) eqn:Hbp; cbv iota.
  - split; [lia|]. split; [lra | intros _; lra].
  - destruct (grid_neighbors_interior n D p Hn HD Hp Hbp) as [Hlen _].
    split; [unfold grid_diagonal; destruct (D =? 2); lia|].
    split; [|done]. rewrite <- Hlen, <- INR_IZR_INZ.
    transitivity (Rsum (fun _ : Z => 1%R) (grid_neighbors n D p)).
    + assert (Hle : forall l : list Z,
                (Rsum (fun r => if grid_boundary n D r then 0 else 1) l <=
                 Rsum (fun _ : Z => 1) l)%R).
      { induction l as [|r l IH]; simpl; [lra|].
        destruct (grid_boundary n D r); lra. }
      apply Hle.
    + rewrite Rsum_const. lra.
Qed.

(** The statement on the 4 x 4 grid, in exact arithmetic. *)
Lemma assembled_matrix_diagonally_dominant_witness :
  exists A b,
    build_matrix_and_rhs (F := R) 4 2 = ([], (Some A, Some b)) /\
    0 < sp_get A 5 5 /\
    (Rsum (fun q : Z => if decide (5%Z = q) then 0 else Rabs (IZR (sp_get A 5 q)))
          (seqZ 0 16) <= IZR (sp_get A 5 5))%R.
Proof.
  destruct (assembled_matrix_diagonally_dominant (F := R) 4 2 ltac:(lia) ltac:(by left))
    as (A & b & Hb & Hrow).
  exists A, b. split; [exact Hb|].
  destruct (Hrow 5 ltac:(done)) as (H1 & H2 & _). split; [exact H1 | exact H2].
Defined.

(** * The number of stored entries of the assembled matrix *)

Section CountEntries.
Local Open Scope R_scope.

(** A sum over the linear indices as a sum over the coordinates. *)
Lemma Rsum_grid_2d (G : Z -> R) (f : Z -> Z -> R) (n : Z) :
  (0 <= n)%Z ->
  (forall i j, (0 <= i < n)%Z -> (0 <= j < n)%Z -> f i j = G (i * n + j)%Z) ->
  Rsum G (seqZ 0 (n * n)) = Rsum (fun i => Rsum (f i) (seqZ 0 n)) (seqZ 0 n).
Proof.
  intros Hn Hf.
  pose proof (foldl_loops_2d (fun s i j => s + f i j) (fun s p => s + G p) n 0 Hn) as Hl.
  rewrite (foldl_Rplus G) in Hl.
  rewrite (foldl_ext_in _ (fun s i => s + Rsum (f i) (seqZ 0 n))) in Hl
    by (intros s i _; apply (foldl_Rplus (f i))).
  rewrite (foldl_Rplus (fun i => Rsum (f i) (seqZ 0 n))) in Hl.
  assert (forall a b : R, 0 + a = 0 + b -> b = a) as Hab by (intros; lra).
  apply Hab, Hl. intros s i j Hi Hj. by rewrite Hf.
Qed.

Lemma Rsum_grid_3d (G : Z -> R) (f : Z -> Z -> Z -> R) (n : Z) :
  (0 <= n)%Z ->
  (forall i j k, (0 <= i < n)%Z -> (0 <= j < n)%Z -> (0 <= k < n)%Z ->
                 f i j k = G (i * n * n + j * n + k)%Z) ->
  Rsum G (seqZ 0 (n * n * n)) =
  Rsum (fun i => Rsum (fun j => Rsum (f i j) (seqZ 0 n)) (seqZ 0 n)) (seqZ 0 n).
Proof.
  intros Hn Hf.
  pose proof (foldl_loops_3d (fun s i j k => s + f i j k) (fun s p => s + G p) n 0 Hn) as Hl.
  rewrite (foldl_Rplus G) in Hl.
  rewrite (foldl_ext_in _ (fun s i => s + Rsum (fun j => Rsum (f i j) (seqZ 0 n)) (seqZ 0 n)))
    in Hl.
  2:{ intros s i _.
      rewrite (foldl_ext_in _ (fun s j => s + Rsum (f i j) (seqZ 0 n)))
        by (intros s' j _; apply (foldl_Rplus (f i j))).
      apply (foldl_Rplus (fun j => Rsum (f i j) (seqZ 0 n))). }
  rewrite (foldl_Rplus (fun i => Rsum (fun j => Rsum (f i j) (seqZ 0 n)) (seqZ 0 n))) in Hl.
  assert (forall a b : R, 0 + a = 0 + b -> b = a) as Hab by (intros; lra).
  apply Hab, Hl. intros s i j k Hi Hj Hk. by rewrite Hf.
Qed.

Lemma Rsum_product {A B} (a : A -> R) (b : B -> R) (l : list A) (k : list B) :
  Rsum (fun i => Rsum (fun j => a i * b j) k) l = Rsum a l * Rsum b k.
Proof.
  rewrite (Rsum_ext _ (fun i => a i * Rsum b k)) by (intros; apply Rsum_scal).
  apply Rsum_scal_r.
Qed.

(** A boundary row stores its diagonal entry; an interior row stores its
    diagonal entry and one entry for each interior neighbour. *)
Lemma grid_row_count (n D p : Z) :
  (1 <= n)%Z -> (D = 2 \/ D = 3)%Z -> (0 <= p < num_points n D)%Z ->
  Rsum (fun q => match system_lookup (num_points n D) (grid_boundary n D) (grid_diagonal D)
                                     (grid_neighbors n D) (p, q) with
                 | Some _ => 1 | None => 0 end) (seqZ 0 (num_points n D)) =
  1 + interior_degree n D p.
Proof.
  intros Hn HD Hp.
  rewrite (Rsum_ext _ (fun q => (if decide (p = q) then 1 else 0) +
                                (if decide (p = q) then 0
                                 else Rabs (IZR (grid_entry n D p q))))).
  - rewrite Rsum_plus, (Rsum_delta (fun _ => 1)), (grid_row_abs_sum n D p Hn HD Hp)
      by (apply NoDup_seqZ || (apply elem_of_seqZ; lia)).
    reflexivity.
  - intros q Hq. apply elem_of_seqZ in Hq.
    unfold system_lookup, grid_entry, system_entry. simpl.
    pose proof (grid_diagonal_nonzero D) as Hdiag.
    destruct (decide (p = q)) as [<- | Hpq].
    + rewrite decide_True; [cbv iota; lra|]. split; [lia|]. split; [lia|].
      by destruct (grid_boundary n D p).
    + destruct (negb (grid_boundary n D p) && negb (grid_boundary n D q) &&
                bool_decide (q ∈ grid_neighbors n D p)).
      * rewrite decide_True by lia. cbv iota. rewrite Rabs_left; lra.
      * rewrite decide_False by tauto. cbv iota. rewrite Rabs_R0. lra.
Qed.

(** The stored entries: one for each unknown and one for each ordered
    pair of neighbouring interior points. *)
Lemma nnz_interior_degrees (A : sparse) (n D : Z) :
  (1 <= n)%Z -> (D = 2 \/ D = 3)%Z ->
  (forall k, entries A !! k =
             system_lookup (num_points n D) (grid_boundary n D) (grid_diagonal D)
                           (grid_neighbors n D) k) ->
  INR (nnz A) =
  IZR (num_points n D) + Rsum (interior_degree n D) (seqZ 0 (num_points n D)).
Proof.
  intros Hn HD He. pose proof (num_points_pos n D Hn) as HN. unfold nnz.
  rewrite (size_as_Rsum _ (seqZ 0 (num_points n D))).
  - rewrite (Rsum_ext _ (fun p => 1 + interior_degree n D p)).
    + rewrite Rsum_plus, Rsum_const, length_seqZ, INR_IZR_INZ, Z2Nat.id by lia. lra.
    + intros p Hp. apply elem_of_seqZ in Hp.
      rewrite <- (grid_row_count n D p Hn HD) by lia.
      apply Rsum_ext. intros q _. by rewrite He.
  - apply NoDup_seqZ.
  - intros a b Hab. rewrite !elem_of_seqZ.
    apply (system_lookup_keys A _ _ _ _ He) in Hab. lia.
Qed.

(** ** In coordinates *)

Variable n : Z.

(** 1 on the interior values of a coordinate, 0 on the two extreme ones. *)
Let inside (c : Z) : R := if extreme n c then 0 else 1.

(** An interior value of a coordinate, times the number of its interior
    neighbours on the axis. *)
Let inside_degree (c : Z) : R := inside c * (inside (c - 1) + inside (c + 1)).

Lemma Rsum_inside : (2 <= n)%Z -> Rsum inside (seqZ 0 n) = IZR (n - 2).
Proof.
  intros Hn.
  rewrite (Rsum_ext _ (fun c => 1 - (if decide (0%Z = c) then 1 else 0) -
                                (if decide ((n - 1)%Z = c) then 1 else 0))).
  - rewrite !Rsum_minus, Rsum_const, length_seqZ, INR_IZR_INZ, Z2Nat.id by lia.
    rewrite (Rsum_delta (fun _ => 1)), (Rsum_delta (fun _ => 1))
      by (apply NoDup_seqZ || (apply elem_of_seqZ; lia)).
    rewrite minus_IZR. lra.
  - intros c Hc. apply elem_of_seqZ in Hc. unfold inside, extreme.
    destruct (Z.eqb_spec c 0), (Z.eqb_spec c (n - 1)),
      (decide (0%Z = c)), (decide ((n - 1)%Z = c)); simpl; try lia; lra.
Qed.

Lemma inside_small c : (n <= 2)%Z -> (0 <= c < n)%Z -> inside c = 0.
Proof.
  intros Hn Hc. unfold inside, extreme.
  destruct (Z.eqb_spec c 0), (Z.eqb_spec c (n - 1)); simpl; try lia; lra.
Qed.

Lemma Rsum_inside_degree : (3 <= n)%Z -> Rsum inside_degree (seqZ 0 n) = IZR (2 * (n - 3)).
Proof.
  intros Hn.
  rewrite (Rsum_ext _ (fun c => (inside c + inside c) -
                                (if decide (1%Z = c) then 1 else 0) -
                                (if decide ((n - 2)%Z = c) then 1 else 0))).
  - rewrite !Rsum_minus, Rsum_plus, Rsum_inside by lia.
    rewrite (Rsum_delta (fun _ => 1)), (Rsum_delta (fun _ => 1))
      by (apply NoDup_seqZ || (apply elem_of_seqZ; lia)).
    rewrite mult_IZR, !minus_IZR. lra.
  - intros c Hc. apply elem_of_seqZ in Hc. unfold inside_degree, inside, extreme.
    destruct (Z.eqb_spec c 0), (Z.eqb_spec c (n - 1)),
      (Z.eqb_spec (c - 1) 0), (Z.eqb_spec (c - 1) (n - 1)),
      (Z.eqb_spec (c + 1) 0), (Z.eqb_spec (c + 1) (n - 1)),
      (decide (1%Z = c)), (decide ((n - 2)%Z = c)); simpl; try lia; lra.
Qed.

(** The two sums together, also for [n = 2], where no value is inside. *)
Lemma Rsum_inside_product (m : nat) :
  (2 <= n)%Z ->
  Rsum inside (seqZ 0 n) ^ m * Rsum inside (seqZ 0 n) * Rsum inside_degree (seqZ 0 n) =
  IZR (n - 2) ^ m * IZR (n - 2) * IZR (2 * (n - 3)).
Proof.
  intros Hn. rewrite Rsum_inside by done.
  destruct (decide (n = 2)%Z) as [Heq | Hne].
  - replace (n - 2)%Z with 0%Z by lia. ring.
  - by rewrite Rsum_inside_degree by lia.
Qed.

Lemma interior_degree_2d (i j : Z) :
  (1 <= n)%Z -> (0 <= i < n)%Z -> (0 <= j < n)%Z ->
  interior_degree n 2 (i * n + j) =
  inside i * inside_degree j + inside_degree i * inside j.
Proof.
  intros Hn Hi Hj. unfold interior_degree, grid_boundary, grid_neighbors.
  change (2 =? 2)%Z with true. cbv iota.
  rewrite on_boundary_2d_coords by lia.
  unfold inside_degree, inside, extreme.
  destruct (Z.eqb_spec i 0); [simpl; lra|].
  destruct (Z.eqb_spec i (n - 1)); [simpl; lra|].
  destruct (Z.eqb_spec j 0); [simpl; lra|].
  destruct (Z.eqb_spec j (n - 1)); [simpl; lra|]. cbn [orb].
  unfold get_neighbors_2d. destruct (coords_2d n i j ltac:(lia) Hj) as [-> ->].
  assert ((0 <? j)%Z = true) as -> by lia. assert ((j <? n - 1)%Z = true) as -> by lia.
  assert ((0 <? i)%Z = true) as -> by lia. assert ((i <? n - 1)%Z = true) as -> by lia.
  cbn [app Rsum foldr].
  replace (i * n + j - 1)%Z with (i * n + (j - 1))%Z by lia.
  replace (i * n + j + 1)%Z with (i * n + (j + 1))%Z by lia.
  replace (i * n + j - n)%Z with ((i - 1) * n + j)%Z by lia.
  replace (i * n + j + n)%Z with ((i + 1) * n + j)%Z by lia.
  rewrite !on_boundary_2d_coords by lia.
  destruct (Z.eqb_spec i 0), (Z.eqb_spec i (n - 1)),
    (Z.eqb_spec j 0), (Z.eqb_spec j (n - 1)); try lia. cbn [orb].
  destruct (Z.eqb_spec (j - 1) 0), (Z.eqb_spec (j - 1) (n - 1)),
    (Z.eqb_spec (j + 1) 0), (Z.eqb_spec (j + 1) (n - 1)),
    (Z.eqb_spec (i - 1) 0), (Z.eqb_spec (i - 1) (n - 1)),
    (Z.eqb_spec (i + 1) 0), (Z.eqb_spec (i + 1) (n - 1)); try lia; simpl; lra.
Qed.

Lemma Rsum_interior_degree_2d :
  (2 <= n)%Z ->
  Rsum (interior_degree n 2) (seqZ 0 (num_points n 2)) = IZR (4 * (n - 2) * (n - 3)).
Proof.
  intros Hn. change (num_points n 2) with (n * n)%Z.
  rewrite (Rsum_grid_2d _ (fun i j => inside i * inside_degree j + inside_degree i * inside j))
    by (lia || (intros; symmetry; apply interior_degree_2d; lia)).
  rewrite (Rsum_ext _ (fun i => Rsum (fun j => inside i * inside_degree j) (seqZ 0 n) +
                                Rsum (fun j => inside_degree i * inside j) (seqZ 0 n)))
    by (intros; apply Rsum_plus).
  rewrite Rsum_plus, !Rsum_product.
  pose proof (Rsum_inside_product 0 Hn) as Hp. simpl in Hp.
  rewrite !mult_IZR. rewrite mult_IZR in Hp. lra.
Qed.

Lemma Rsum_product3 (a b c : Z -> R) (l : list Z) :
  Rsum (fun i => Rsum (fun j => Rsum (fun k => a i * b j * c k) l) l) l =
  Rsum a l * Rsum b l * Rsum c l.
Proof.
  rewrite (Rsum_ext _ (fun i => Rsum (fun j => a i * (b j * Rsum c l)) l)).
  - rewrite Rsum_product, Rsum_scal_r. ring.
  - intros i _. apply Rsum_ext. intros j _. rewrite Rsum_scal. ring.
Qed.

Lemma interior_degree_3d (i j k : Z) :
  (1 <= n)%Z -> (0 <= i < n)%Z -> (0 <= j < n)%Z -> (0 <= k < n)%Z ->
  interior_degree n 3 (i * n * n + j * n + k) =
  inside i * inside j * inside_degree k + inside i * inside_degree j * inside k +
  inside_degree i * inside j * inside k.
Proof.
  intros Hn Hi Hj Hk. unfold interior_degree, grid_boundary, grid_neighbors.
  change (3 =? 2)%Z with false. cbv iota.
  rewrite on_boundary_3d_coords by lia.
  unfold inside_degree, inside, extreme.
  destruct (Z.eqb_spec i 0); [simpl; lra|].
  destruct (Z.eqb_spec i (n - 1)); [simpl; lra|].
  destruct (Z.eqb_spec j 0); [simpl; lra|].
  destruct (Z.eqb_spec j (n - 1)); [simpl; lra|].
  destruct (Z.eqb_spec k 0); [simpl; lra|].
  destruct (Z.eqb_spec k (n - 1)); [simpl; lra|]. cbn [orb].
  unfold get_neighbors_3d. cbv zeta.
  destruct (coords_3d n i j k ltac:(lia) Hj Hk) as (-> & -> & ->).
  assert ((0 <? k)%Z = true) as -> by lia. assert ((k <? n - 1)%Z = true) as -> by lia.
  assert ((0 <? j)%Z = true) as -> by lia. assert ((j <? n - 1)%Z = true) as -> by lia.
  assert ((0 <? i)%Z = true) as -> by lia. assert ((i <? n - 1)%Z = true) as -> by lia.
  cbn [app Rsum foldr].
  replace (i * n * n + j * n + k - 1)%Z with (i * n * n + j * n + (k - 1))%Z by lia.
  replace (i * n * n + j * n + k + 1)%Z with (i * n * n + j * n + (k + 1))%Z by lia.
  replace (i * n * n + j * n + k - n)%Z with (i * n * n + (j - 1) * n + k)%Z by lia.
  replace (i * n * n + j * n + k + n)%Z with (i * n * n + (j + 1) * n + k)%Z by lia.
  replace (i * n * n + j * n + k - n * n)%Z with ((i - 1) * n * n + j * n + k)%Z by lia.
  replace (i * n * n + j * n + k + n * n)%Z with ((i + 1) * n * n + j * n + k)%Z by lia.
  rewrite !on_boundary_3d_coords by lia.
  destruct (Z.eqb_spec i 0), (Z.eqb_spec i (n - 1)),
    (Z.eqb_spec j 0), (Z.eqb_spec j (n - 1)),
    (Z.eqb_spec k 0), (Z.eqb_spec k (n - 1)); try lia. cbn [orb].
  assert ((k - 1 =? n - 1)%Z = false) as -> by lia.
  assert ((k + 1 =? 0)%Z = false) as -> by lia.
  assert ((j - 1 =? n - 1)%Z = false) as -> by lia.
  assert ((j + 1 =? 0)%Z = false) as -> by lia.
  assert ((i - 1 =? n - 1)%Z = false) as -> by lia.
  assert ((i + 1 =? 0)%Z = false) as -> by lia.
  destruct (k - 1 =? 0)%Z, (k + 1 =? n - 1)%Z, (j - 1 =? 0)%Z, (j + 1 =? n - 1)%Z,
    (i - 1 =? 0)%Z, (i + 1 =? n - 1)%Z; simpl; lra.
Qed.

Lemma Rsum_interior_degree_3d :
  (2 <= n)%Z ->
  Rsum (interior_degree n 3) (seqZ 0 (num_points n 3)) =
  IZR (6 * (n - 2) * (n - 2) * (n - 3)).
Proof.
  intros Hn. change (num_points n 3) with (n * n * n)%Z.
  rewrite (Rsum_grid_3d _ (fun i j k =>
             inside i * inside j * inside_degree k + inside i * inside_degree j * inside k +
             inside_degree i * inside j * inside k))
    by (lia || (intros; symmetry; apply interior_degree_3d; lia)).
  rewrite (Rsum_ext _ (fun i =>
             Rsum (fun j => Rsum (fun k => inside i * inside j * inside_degree k) (seqZ 0 n))
                  (seqZ 0 n) +
             Rsum (fun j => Rsum (fun k => inside i * inside_degree j * inside k) (seqZ 0 n))
                  (seqZ 0 n) +
             Rsum (fun j => Rsum (fun k => inside_degree i * inside j * inside k) (seqZ 0 n))
                  (seqZ 0 n))).
  - rewrite !Rsum_plus, !Rsum_product3.
    pose proof (Rsum_inside_product 1 Hn) as Hp. simpl in Hp.
    rewrite !mult_IZR. rewrite mult_IZR in Hp. lra.
  - intros i _. rewrite <- !Rsum_plus. apply Rsum_ext. intros j _.
    by rewrite <- !Rsum_plus.
Qed.

End CountEntries.

(** X12.  On a grid with [n >= 2] unknowns per axis, in any arithmetic, the
    matrix the assembler returns stores one entry for each unknown and one
    for each ordered pair of neighbouring interior points:
    [n^2 + 4 (n - 2) (n - 3)] entries in two dimensions and
    [n^3 + 6 (n - 2)^2 (n - 3)] in three. *)
Theorem assembled_matrix_nnz {F : Type} `{Num F} (n : Z) :
  2 <= n ->
  (exists A b,
     build_matrix_and_rhs (F := F) n 2 = ([], (Some A, Some b)) /\
     Z.of_nat (nnz A) = n * n + 4 * (n - 2) * (n - 3)) /\
  (exists A b,
     build_matrix_and_rhs (F := F) n 3 = ([], (Some A, Some b)) /\
     Z.of_nat (nnz A) = n * n * n + 6 * (n - 2) * (n - 2) * (n - 3)).
Proof.
  intros Hn. split.
  - destruct (build_matrix_grid_entry (F := F) n 2 ltac:(lia) ltac:(by left))
      as (A & b & Hb & _ & _ & _ & He & _).
    exists A, b. split; [done|]. apply eq_IZR.
    rewrite <- INR_IZR_INZ, (nnz_interior_degrees A n 2) by (done || lia || by left).
    rewrite Rsum_interior_degree_2d by done.
    change (num_points n 2) with (n * n). by rewrite <- plus_IZR.
  - destruct (build_matrix_grid_entry (F := F) n 3 ltac:(lia) ltac:(by right))
      as (A & b & Hb & _ & _ & _ & He & _).
    exists A, b. split; [done|]. apply eq_IZR.
    rewrite <- INR_IZR_INZ, (nnz_interior_degrees A n 3) by (done || lia || by right).
    rewrite Rsum_interior_degree_3d by done.
    change (num_points n 3) with (n * n * n). by rewrite <- plus_IZR.
Qed.

(** The statement for [n = 4]: 24 and 88 stored entries. *)
Lemma assembled_matrix_nnz_witness :
  (exists A b,
     build_matrix_and_rhs (F := R) 4 2 = ([], (Some A, Some b)) /\
     Z.of_nat (nnz A) = 24) /\
  (exists A b,
     build_matrix_and_rhs (F := R) 4 3 = ([], (Some A, Some b)) /\
     Z.of_nat (nnz A) = 88).
Proof.
  apply (assembled_matrix_nnz (F := R) 4). lia.
Defined.

(** * What the constructor leaves in the object *)

(** X13.  In exact arithmetic, for every supported grid with [n >= 1] and
    every ordering routine that returns permutations, [Problem(n, D)]
    prints nothing, raises nothing and returns an object that holds: the
    two arguments; the matrix and the right-hand side as the assembler
    returns them; the matrix [reorder()] computes from that matrix; and two
    lower triangular arrays with positive diagonals whose products with
    their transposes are the matrix and the reordered matrix. *)
Theorem Problem_init_postconditions (rcm : sparse -> list Z) (n D : Z) :
  rcm_valid rcm -> 1 <= n -> D = 2 \/ D = 3 ->
  let m := Z.to_nat (num_points n D) in
  exists A b (self : @Problem R),
    build_matrix_and_rhs (F := R) n D = ([], (Some A, Some b)) /\
    Problem_init rcm n D = ([], inr self) /\
    n_elements self = n /\ dimension self = D /\
    matrix self = A /\ rhs self = b /\ reordered_matrix self = reorder rcm A /\
    (well_shaped m (cholesky_factor self) /\
     lower_triangular m (cholesky_factor self) /\
     (forall i, (i < m)%nat -> (0 < mget (cholesky_factor self) i i)%R) /\
     (forall i j, (i < m)%nat -> (j < m)%nat ->
        L_Lt m (cholesky_factor self) i j = sp_dense A i j)) /\
    (well_shaped m (cholesky_factor_reorderd self) /\
     lower_triangular m (cholesky_factor_reorderd self) /\
     (forall i, (i < m)%nat -> (0 < mget (cholesky_factor_reorderd self) i i)%R) /\
     (forall i j, (i < m)%nat -> (j < m)%nat ->
        L_Lt m (cholesky_factor_reorderd self) i j = sp_dense (reorder rcm A) i j)).
Proof.
  intros Hrcm Hn HD m.
  destruct (Problem_init_constructs rcm Hrcm n D Hn HD)
    as (A & b & L & L' & Hb & Hi & HL & HL').
  destruct (build_matrix_facts (F := R) n D Hn HD)
    as (A0 & b0 & Hb0 & Hr & Hc & _ & _ & _ & Hsym & _).
  rewrite Hb in Hb0. injection Hb0 as <- <-.
  pose proof (num_points_pos n D Hn) as HN.
  destruct (reorder_facts rcm A _ Hrcm Hr Hc ltac:(lia)) as (Hr' & Hc' & _ & Hget' & _).
  destruct (toarray_spec A _ Hr Hc) as [_ Hent].
  destruct (toarray_spec (reorder rcm A) _ Hr' Hc') as [_ Hent'].
  fold m in HL, HL', Hent, Hent'.
  destruct (cholesky_factor_product m (toarray A) L) as (H1 & H2 & H3 & H4); [|done|].
  { intros i j Hi' Hj'. rewrite !Hent by done. unfold sp_dense. by rewrite Hsym. }
  destruct (cholesky_factor_product m (toarray (reorder rcm A)) L')
    as (H1' & H2' & H3' & H4'); [|done|].
  { intros i j Hi' Hj'. rewrite !Hent' by done. unfold sp_dense.
    rewrite !Hget' by lia. by rewrite Hsym. }
  eexists A, b, _. split; [done|]. split; [exact Hi|].
  cbn [n_elements dimension matrix rhs reordered_matrix cholesky_factor
       cholesky_factor_reorderd].
  do 5 (split; [done|]). split.
  - do 3 (split; [done|]). intros i j Hi' Hj'. by rewrite H4, Hent.
  - do 3 (split; [done|]). intros i j Hi' Hj'. by rewrite H4', Hent'.
Qed.

(** The statement on the 4 x 4 grid with the reversed natural order. *)
Lemma Problem_init_postconditions_witness :
  exists A b (self : @Problem R),
    build_matrix_and_rhs (F := R) 4 2 = ([], (Some A, Some b)) /\
    Problem_init reversed_order 4 2 = ([], inr self) /\
    matrix self = A /\ rhs self = b /\
    reordered_matrix self = reorder reversed_order A /\
    (forall i j, (i < 16)%nat -> (j < 16)%nat ->
       L_Lt 16 (cholesky_factor self) i j = sp_dense A i j) /\
    (forall i j, (i < 16)%nat -> (j < 16)%nat ->
       L_Lt 16 (cholesky_factor_reorderd self) i j =
       sp_dense (reorder reversed_order A) i j).
Proof.
  destruct (Problem_init_postconditions reversed_order 4 2 reversed_order_valid
              ltac:(lia) ltac:(by left))
    as (A & b & self & Hb & Hi & _ & _ & HA & Hrhs & Hre & (_ & _ & _ & HL) &
        (_ & _ & _ & HL')).
  exists A, b, self. split; [exact Hb|]. split; [exact Hi|]. split; [exact HA|].
  split; [exact Hrhs|]. split; [exact Hre|]. split; [exact HL | exact HL'].
Defined.
(** * The signs of a factor *)

Section FactorSigns.
Local Open Scope R_scope.

Lemma Rsum_ge_term {I : Type} (f : I -> R) (l : list I) (k : I) :
  (forall a, a ∈ l -> 0 <= f a) -> k ∈ l -> f k <= Rsum f l.
Proof.
  induction l as [|a l IH]; intros Hf Hk; [by apply elem_of_nil in Hk|].
  rewrite Rsum_cons.
  pose proof (Hf a (list_elem_of_here _ _)) as Ha.
  assert (Hl : forall b, b ∈ l -> 0 <= f b)
    by (intros b Hb; apply Hf; by apply list_elem_of_further).
  apply elem_of_cons in Hk as [-> | Hk].
  - pose proof (Rsum_nonneg f l Hl). lra.
  - specialize (IH Hl Hk). lra.
Qed.

Variables (n : nat) (A L : list (list R)).
Hypothesis HL : cholesky_factor_of n A L.

(** A band of [A] is a band of its factor. *)
Lemma factor_band (w : nat) :
  (forall i j, (i < n)%nat -> (j + w < i)%nat -> mget A i j = 0) ->
  forall j i, (j + w < i)%nat -> (i < n)%nat -> mget L i j = 0.
Proof.
  destruct HL as (_ & _ & Hdiag & Hcol). intros HA.
  induction j as [j IH] using lt_wf_ind. intros i Hji Hi.
  pose proof (Hcol i j ltac:(lia) ltac:(lia) Hi) as He.
  rewrite HA in He by lia.
  rewrite Rsum_all_zero in He.
  - pose proof (Hdiag j ltac:(lia)) as [Hpos _].
    assert (mget L i j * mget L j j = 0) as Hm by lra.
    destruct (Rmult_integral _ _ Hm); lra.
  - intros k Hk. apply elem_of_seq in Hk. rewrite (IH k) by lia. lra.
Qed.

Hypothesis Hoff : forall i j, (i < n)%nat -> (j < n)%nat -> i <> j -> mget A i j <= 0.

(** The factor of a matrix without positive entries off the diagonal has
    no positive entry below the diagonal. *)
Lemma factor_nonpos j : forall i, (j < i)%nat -> (i < n)%nat -> mget L i j <= 0.
Proof.
  destruct HL as (_ & _ & Hdiag & Hcol).
  induction j as [j IH] using lt_wf_ind. intros i Hji Hi.
  pose proof (Hcol i j ltac:(lia) Hji Hi) as He.
  pose proof (Hdiag j ltac:(lia)) as [Hpos _].
  pose proof (Hoff i j Hi ltac:(lia) ltac:(lia)) as Ha.
  assert (Hs : 0 <= Rsum (fun k => mget L i k * mget L j k) (seq 0 j)).
  { apply Rsum_nonneg. intros k Hk. apply elem_of_seq in Hk.
    pose proof (IH k ltac:(lia) i ltac:(lia) Hi).
    pose proof (IH k ltac:(lia) j ltac:(lia) ltac:(lia)). nra. }
  nra.
Qed.

(** A coupling of [A] is a non-zero of the factor. *)
Lemma factor_edge c q :
  (c < q)%nat -> (q < n)%nat -> mget A q c < 0 -> mget L q c < 0.
Proof.
  intros Hcq Hq Ha. destruct HL as (_ & _ & Hdiag & Hcol).
  pose proof (Hcol q c ltac:(lia) Hcq Hq) as He.
  pose proof (Hdiag c ltac:(lia)) as [Hpos _].
  assert (Hs : 0 <= Rsum (fun k => mget L q k * mget L c k) (seq 0 c)).
  { apply Rsum_nonneg. intros k Hk. apply elem_of_seq in Hk.
    pose proof (factor_nonpos k q ltac:(lia) Hq).
    pose proof (factor_nonpos k c ltac:(lia) ltac:(lia)). nra. }
  nra.
Qed.

(** Two rows that are non-zero in an earlier column are coupled by the
    elimination of that column. *)
Lemma factor_fill_step k c q :
  (k < c)%nat -> (c < q)%nat -> (q < n)%nat ->
  mget L q k < 0 -> mget L c k < 0 -> mget L q c < 0.
Proof.
  intros Hkc Hcq Hq Hqk Hck. destruct HL as (_ & _ & Hdiag & Hcol).
  pose proof (Hcol q c ltac:(lia) Hcq Hq) as He.
  pose proof (Hdiag c ltac:(lia)) as [Hpos _].
  pose proof (Hoff q c Hq ltac:(lia) ltac:(lia)) as Ha.
  assert (Hs : mget L q k * mget L c k <=
               Rsum (fun k => mget L q k * mget L c k) (seq 0 c)).
  { apply (Rsum_ge_term (fun k => mget L q k * mget L c k)).
    - intros k' Hk. apply elem_of_seq in Hk.
      pose proof (factor_nonpos k' q ltac:(lia) Hq).
      pose proof (factor_nonpos k' c ltac:(lia) ltac:(lia)). nra.
    - apply elem_of_seq. lia. }
  nra.
Qed.

End FactorSigns.
(** * Couplings in the factor of a grid matrix *)

Section Couplings.
Variables (N : Z) (entry : Z -> Z -> Z) (M L : list (list R)).
Hypothesis HM : forall p q, 0 <= p < N -> 0 <= q < N ->
  mget M (Z.to_nat p) (Z.to_nat q) = IZR (entry p q).
Hypothesis Hentry : forall p q, p <> q -> entry p q <= 0.
Hypothesis HL : cholesky_factor_of (Z.to_nat N) M L.

Lemma dense_off_diagonal (i j : nat) :
  (i < Z.to_nat N)%nat -> (j < Z.to_nat N)%nat -> i <> j -> (mget M i j <= 0)%R.
Proof.
  intros Hi Hj Hne.
  rewrite <- (Nat2Z.id i), <- (Nat2Z.id j), HM by lia.
  apply IZR_le, Hentry. lia.
Qed.

Lemma coupled_edge (q c : Z) :
  0 <= c -> c < q -> q < N -> entry q c < 0 -> coupled L q c.
Proof.
  intros Hc Hcq Hq He. unfold coupled.
  apply (factor_edge _ M L HL dense_off_diagonal); [lia | lia |].
  rewrite HM by lia. by apply IZR_lt.
Qed.

Lemma coupled_step (k c q : Z) :
  0 <= k -> k < c -> c < q -> q < N ->
  coupled L q k -> coupled L c k -> coupled L q c.
Proof.
  intros Hk Hkc Hcq Hq Hqk Hck. unfold coupled in *.
  apply (factor_fill_step _ M L HL dense_off_diagonal (Z.to_nat k)); (lia || done).
Qed.

End Couplings.

(** ** The couplings of the assembled matrix *)

Lemma grid_entry_nonpos (n D p q : Z) : p <> q -> grid_entry n D p q <= 0.
Proof.
  intros Hne. unfold grid_entry, system_entry. rewrite decide_False by done.
  destruct (_ && _); lia.
Qed.

Lemma grid_entry_coupling (n D p q : Z) :
  p <> q -> grid_boundary n D p = false -> grid_boundary n D q = false ->
  q ∈ grid_neighbors n D p -> grid_entry n D p q = -1.
Proof.
  intros Hne Hp Hq Hin. unfold grid_entry, system_entry.
  rewrite decide_False by done. rewrite Hp, Hq. simpl.
  by rewrite bool_decide_eq_true_2.
Qed.

Lemma interior_2d (n i j : Z) :
  1 <= i <= n - 2 -> 1 <= j <= n - 2 -> grid_boundary n 2 (i * n + j) = false.
Proof.
  intros Hi Hj. change (grid_boundary n 2) with (on_boundary_2d n).
  rewrite on_boundary_2d_coords by lia.
  destruct (Z.eqb_spec i 0), (Z.eqb_spec i (n - 1)), (Z.eqb_spec j 0),
    (Z.eqb_spec j (n - 1)); simpl; lia.
Qed.

Lemma interior_3d (n i j k : Z) :
  1 <= i <= n - 2 -> 1 <= j <= n - 2 -> 1 <= k <= n - 2 ->
  grid_boundary n 3 (i * n * n + j * n + k) = false.
Proof.
  intros Hi Hj Hk. change (grid_boundary n 3) with (on_boundary_3d n).
  rewrite on_boundary_3d_coords by lia.
  destruct (Z.eqb_spec i 0), (Z.eqb_spec i (n - 1)), (Z.eqb_spec j 0),
    (Z.eqb_spec j (n - 1)), (Z.eqb_spec k 0), (Z.eqb_spec k (n - 1)); simpl; lia.
Qed.

Lemma plane_index_range (n j k : Z) :
  0 <= j < n -> 0 <= k < n -> 0 <= j * n + k < n * n.
Proof. intros Hj Hk. nia. Qed.

Lemma space_index_range (n i j k : Z) :
  0 <= i < n -> 0 <= j < n -> 0 <= k < n -> 0 <= i * n * n + j * n + k < n * n * n.
Proof. intros Hi Hj Hk. pose proof (plane_index_range n j k Hj Hk). nia. Qed.

(** *** Two dimensions *)

Section Couplings2d.
Variables (n : Z) (M L : list (list R)).
Hypothesis HM : forall p q, 0 <= p < n * n -> 0 <= q < n * n ->
  mget M (Z.to_nat p) (Z.to_nat q) = IZR (grid_entry n 2 p q).
Hypothesis HL : cholesky_factor_of (Z.to_nat (n * n)) M L.

(** An interior point is coupled to its interior neighbour on the left. *)
Lemma coupled_left_2d (i j : Z) :
  1 <= i <= n - 2 -> 1 <= j -> j + 1 <= n - 2 ->
  coupled L (i * n + (j + 1)) (i * n + j).
Proof.
  intros Hi Hj Hj'.
  pose proof (plane_index_range n i j ltac:(lia) ltac:(lia)).
  pose proof (plane_index_range n i (j + 1) ltac:(lia) ltac:(lia)).
  apply (coupled_edge (n * n) (grid_entry n 2) M L HM (grid_entry_nonpos n 2) HL);
    [lia | lia | lia |].
  rewrite grid_entry_coupling; [lia | lia | | |].
  - apply interior_2d; lia.
  - apply interior_2d; lia.
  - change (grid_neighbors n 2 (i * n + (j + 1))) with (get_neighbors_2d (i * n + (j + 1)) n).
    apply elem_of_get_neighbors_2d; [lia | lia |]. left. lia.
Qed.

(** An interior point is coupled to its interior neighbour below. *)
Lemma coupled_below_2d (i j : Z) :
  1 <= i -> i + 1 <= n - 2 -> 1 <= j <= n - 2 ->
  coupled L ((i + 1) * n + j) (i * n + j).
Proof.
  intros Hi Hi' Hj.
  pose proof (plane_index_range n i j ltac:(lia) ltac:(lia)).
  pose proof (plane_index_range n (i + 1) j ltac:(lia) ltac:(lia)).
  apply (coupled_edge (n * n) (grid_entry n 2) M L HM (grid_entry_nonpos n 2) HL);
    [lia | lia | lia |].
  rewrite grid_entry_coupling; [lia | lia | | |].
  - apply interior_2d; lia.
  - apply interior_2d; lia.
  - change (grid_neighbors n 2 ((i + 1) * n + j)) with (get_neighbors_2d ((i + 1) * n + j) n).
    apply elem_of_get_neighbors_2d; [lia | lia |]. right. right. left. lia.
Qed.

(** The elimination of row [i] couples a point of row [i + 1] to the
    points of row [i] from the one below it on. *)
Lemma reach_up_2d (i jq j : Z) :
  1 <= i -> i + 1 <= n - 2 -> 1 <= jq -> jq <= j -> j <= n - 2 ->
  coupled L ((i + 1) * n + jq) (i * n + j).
Proof.
  intros Hi Hi' Hjq Hle Hj.
  assert (Hd : exists d : nat, j = jq + Z.of_nat d) by (exists (Z.to_nat (j - jq)); lia).
  destruct Hd as [d ->]. induction d as [|d IH].
  - replace (jq + Z.of_nat 0) with jq by lia. apply coupled_below_2d; lia.
  - pose proof (plane_index_range n i (jq + Z.of_nat (S d)) ltac:(lia) ltac:(lia)).
    pose proof (plane_index_range n (i + 1) jq ltac:(lia) ltac:(lia)).
    apply (coupled_step (n * n) (grid_entry n 2) M L HM (grid_entry_nonpos n 2) HL
             (i * n + (jq + Z.of_nat d))); [nia | nia | nia | nia | |].
    + apply IH; lia.
    + replace (jq + Z.of_nat (S d)) with (jq + Z.of_nat d + 1) by lia.
      apply coupled_left_2d; lia.
Qed.

End Couplings2d.

(** *** Three dimensions *)

Lemma row_step (n j j' : Z) : 0 <= n -> j < j' -> j * n + n <= j' * n.
Proof. intros Hn Hj. nia. Qed.

Section Couplings3d.
Variables (n : Z) (M L : list (list R)).
Hypothesis HM : forall p q, 0 <= p < n * n * n -> 0 <= q < n * n * n ->
  mget M (Z.to_nat p) (Z.to_nat q) = IZR (grid_entry n 3 p q).
Hypothesis HL : cholesky_factor_of (Z.to_nat (n * n * n)) M L.

Lemma coupled_edge_3d (i j k i' j' k' : Z) :
  1 <= i <= n - 2 -> 1 <= j <= n - 2 -> 1 <= k <= n - 2 ->
  1 <= i' <= n - 2 -> 1 <= j' <= n - 2 -> 1 <= k' <= n - 2 ->
  i' * n * n + j' * n + k' < i * n * n + j * n + k ->
  i' * n * n + j' * n + k' ∈ get_neighbors_3d (i * n * n + j * n + k) n ->
  coupled L (i * n * n + j * n + k) (i' * n * n + j' * n + k').
Proof.
  intros Hi Hj Hk Hi' Hj' Hk' Hlt Hin.
  pose proof (space_index_range n i j k ltac:(lia) ltac:(lia) ltac:(lia)).
  pose proof (space_index_range n i' j' k' ltac:(lia) ltac:(lia) ltac:(lia)).
  apply (coupled_edge (n * n * n) (grid_entry n 3) M L HM (grid_entry_nonpos n 3) HL);
    [lia | lia | lia |].
  rewrite grid_entry_coupling; [lia | lia | | | done].
  - apply interior_3d; lia.
  - apply interior_3d; lia.
Qed.

(** An interior point is coupled to its interior neighbours that come
    before it: along the row, along the column and in the plane below. *)
Lemma coupled_k_3d (a j k : Z) :
  1 <= a <= n - 2 -> 1 <= j <= n - 2 -> 1 <= k -> k + 1 <= n - 2 ->
  coupled L (a * n * n + j * n + (k + 1)) (a * n * n + j * n + k).
Proof.
  intros Ha Hj Hk Hk'. apply coupled_edge_3d; try lia.
  apply elem_of_get_neighbors_3d; [lia | lia | lia |]. left. lia.
Qed.

Lemma coupled_j_3d (a j k : Z) :
  1 <= a <= n - 2 -> 1 <= j -> j + 1 <= n - 2 -> 1 <= k <= n - 2 ->
  coupled L (a * n * n + (j + 1) * n + k) (a * n * n + j * n + k).
Proof.
  intros Ha Hj Hj' Hk. apply coupled_edge_3d; try lia.
  apply elem_of_get_neighbors_3d; [lia | lia | lia |]. right. right. left. lia.
Qed.

Lemma coupled_i_3d (a j k : Z) :
  1 <= a -> a + 1 <= n - 2 -> 1 <= j <= n - 2 -> 1 <= k <= n - 2 ->
  coupled L ((a + 1) * n * n + j * n + k) (a * n * n + j * n + k).
Proof.
  intros Ha Ha' Hj Hk.
  pose proof (plane_index_range n j k ltac:(lia) ltac:(lia)).
  apply coupled_edge_3d; try lia.
  apply elem_of_get_neighbors_3d; [lia | lia | lia |]. do 4 right. left. lia.
Qed.

(** Inside a plane, the elimination of row [j] couples a point of row
    [j + 1] to the points of row [j] from the one beside it on. *)
Lemma reach_row_3d (a j k' k'' : Z) :
  1 <= a <= n - 2 -> 1 <= j -> j + 1 <= n - 2 -> 1 <= k' -> k' <= k'' -> k'' <= n - 2 ->
  coupled L (a * n * n + (j + 1) * n + k') (a * n * n + j * n + k'').
Proof.
  intros Ha Hj Hj' Hk' Hle Hk''.
  assert (Hd : exists d : nat, k'' = k' + Z.of_nat d) by (exists (Z.to_nat (k'' - k')); lia).
  destruct Hd as [d ->]. induction d as [|d IH].
  - replace (k' + Z.of_nat 0) with k' by lia. apply coupled_j_3d; lia.
  - pose proof (space_index_range n a j (k' + Z.of_nat (S d)) ltac:(lia) ltac:(lia) ltac:(lia)).
    pose proof (space_index_range n a (j + 1) k' ltac:(lia) ltac:(lia) ltac:(lia)).
    apply (coupled_step (n * n * n) (grid_entry n 3) M L HM (grid_entry_nonpos n 3) HL
             (a * n * n + j * n + (k' + Z.of_nat d))); [nia | nia | nia | nia | |].
    + apply IH; lia.
    + replace (k' + Z.of_nat (S d)) with (k' + Z.of_nat d + 1) by lia.
      apply coupled_k_3d; lia.
Qed.

(** The elimination of plane [a] couples a point of plane [a + 1] to the
    points of the row below it, from the one below it on. *)
Lemma reach_up_row_3d (a j k k'' : Z) :
  1 <= a -> a + 1 <= n - 2 -> 1 <= j <= n - 2 -> 1 <= k -> k <= k'' -> k'' <= n - 2 ->
  coupled L ((a + 1) * n * n + j * n + k) (a * n * n + j * n + k'').
Proof.
  intros Ha Ha' Hj Hk Hle Hk''.
  assert (Hd : exists d : nat, k'' = k + Z.of_nat d) by (exists (Z.to_nat (k'' - k)); lia).
  destruct Hd as [d ->]. induction d as [|d IH].
  - replace (k + Z.of_nat 0) with k by lia. apply coupled_i_3d; lia.
  - pose proof (space_index_range n a j (k + Z.of_nat (S d)) ltac:(lia) ltac:(lia) ltac:(lia)).
    pose proof (space_index_range n (a + 1) j k ltac:(lia) ltac:(lia) ltac:(lia)).
    pose proof (plane_index_range n j (k + Z.of_nat (S d)) ltac:(lia) ltac:(lia)).
    apply (coupled_step (n * n * n) (grid_entry n 3) M L HM (grid_entry_nonpos n 3) HL
             (a * n * n + j * n + (k + Z.of_nat d))); [nia | nia | nia | nia | |].
    + apply IH; lia.
    + replace (k + Z.of_nat (S d)) with (k + Z.of_nat d + 1) by lia.
      apply coupled_k_3d; lia.
Qed.

(** It couples the point to every point of plane [a] from the one below
    it on. *)
Lemma reach_up_3d (a j k j' k' : Z) :
  1 <= a -> a + 1 <= n - 2 -> 1 <= j -> 1 <= k <= n - 2 ->
  j' <= n - 2 -> 1 <= k' <= n - 2 ->
  j < j' \/ (j = j' /\ k <= k') ->
  coupled L ((a + 1) * n * n + j * n + k) (a * n * n + j' * n + k').
Proof.
  intros Ha Ha' Hj Hk Hj' Hk' Hord.
  assert (Hd : exists d : nat, j' = j + Z.of_nat d) by (exists (Z.to_nat (j' - j)); lia).
  destruct Hd as [d ->]. revert k' Hk' Hord Hj'. induction d as [|d IH]; intros k' Hk' Hord Hj'.
  - replace (j + Z.of_nat 0) with j by lia. apply reach_up_row_3d; lia.
  - pose proof (space_index_range n a (j + Z.of_nat (S d)) k' ltac:(lia) ltac:(lia) ltac:(lia)).
    pose proof (space_index_range n (a + 1) j k ltac:(lia) ltac:(lia) ltac:(lia)).
    pose proof (plane_index_range n (j + Z.of_nat (S d)) k' ltac:(lia) ltac:(lia)).
    pose proof (plane_index_range n j k ltac:(lia) ltac:(lia)).
    destruct (decide (d = 0%nat /\ k' < k)) as [[-> Hlt] | Hgen].
    + apply (coupled_step (n * n * n) (grid_entry n 3) M L HM (grid_entry_nonpos n 3) HL
               (a * n * n + j * n + k)); [nia | nia | nia | nia | |].
      * apply coupled_i_3d; lia.
      * replace (j + Z.of_nat 1) with (j + 1) by lia. apply reach_row_3d; lia.
    + apply (coupled_step (n * n * n) (grid_entry n 3) M L HM (grid_entry_nonpos n 3) HL
               (a * n * n + (j + Z.of_nat d) * n + k')); [nia | nia | nia | nia | |].
      * apply IH; lia.
      * replace (j + Z.of_nat (S d)) with (j + Z.of_nat d + 1) by lia.
        apply coupled_j_3d; lia.
Qed.

End Couplings3d.
(** * Counting the couplings of a factor *)

Lemma sum_list_fmap_le {I : Type} (f g : I -> nat) (l : list I) :
  (forall i, i ∈ l -> (f i <= g i)%nat) -> (sum_list (f <$> l) <= sum_list (g <$> l))%nat.
Proof.
  induction l as [|i l IH]; intros Hfg; [done|].
  pose proof (Hfg i (list_elem_of_here _ _)).
  assert (sum_list (f <$> l) <= sum_list (g <$> l))%nat
    by (apply IH; intros; apply Hfg; by apply list_elem_of_further).
  change (f i + sum_list (f <$> l) <= g i + sum_list (g <$> l))%nat. lia.
Qed.

Lemma INR_sum_list {I : Type} (f : I -> nat) (l : list I) :
  INR (sum_list (f <$> l)) = Rsum (fun i => INR (f i)) l.
Proof.
  induction l as [|i l IH]; [done|].
  change (INR (f i + sum_list (f <$> l)) = (INR (f i) + Rsum (fun i => INR (f i)) l)%R).
  by rewrite plus_INR, IH.
Qed.

(** A lower bound from a list of non-zero positions in each row. *)
Lemma count_nonzero_ge_cols (n : nat) (M : list (list R)) (cols : nat -> list nat) :
  well_shaped n M ->
  (forall i, (i < n)%nat ->
     NoDup (cols i) /\ forall c, c ∈ cols i -> (c < n)%nat /\ mget M i c <> 0%R) ->
  (sum_list ((fun i => length (cols i)) <$> seq 0 n) <= count_nonzero M)%nat.
Proof.
  intros HM Hcols. rewrite (count_nonzero_positions n M HM).
  apply sum_list_fmap_le. intros i Hi. apply elem_of_seq in Hi.
  destruct (Hcols i ltac:(lia)) as [Hnd Hc].
  apply submseteq_length, NoDup_submseteq; [done|].
  intros c Hin. destruct (Hc c Hin) as [Hlt Hne].
  apply list_elem_of_filter. split; [done | apply elem_of_seq; lia].
Qed.

Section Sums.
Local Open Scope R_scope.

(** A sum over [n] layers of [w] indices. *)
Lemma Rsum_layers (G : Z -> R) (n : nat) (w : Z) :
  (0 <= w)%Z ->
  Rsum G (seqZ 0 (Z.of_nat n * w)) =
  Rsum (fun i => Rsum (fun r => G (i * w + r)%Z) (seqZ 0 w)) (seqZ 0 (Z.of_nat n)).
Proof.
  intros Hw. induction n as [|n IH]; [done|].
  replace (Z.of_nat (S n) * w)%Z with (Z.of_nat n * w + w)%Z by lia.
  replace (Z.of_nat (S n)) with (Z.of_nat n + 1)%Z by lia.
  rewrite !seqZ_app by nia. rewrite !Rsum_app, IH. f_equal.
  change (seqZ (0 + Z.of_nat n) 1) with [(0 + Z.of_nat n)%Z].
  rewrite Rsum_cons, Rsum_nil, Rplus_0_r.
  replace (0 + Z.of_nat n * w)%Z with (Z.of_nat n * w + 0)%Z by lia.
  rewrite <- (fmap_add_seqZ (Z.of_nat n * w) 0 w), Rsum_fmap.
  apply Rsum_ext. intros r _. f_equal; lia.
Qed.

(** The number of integers of an interval. *)
Lemma Rsum_interval (a b n : Z) :
  (0 <= a)%Z -> (a <= b + 1)%Z -> (b < n)%Z ->
  Rsum (fun c => if decide (a <= c <= b)%Z then 1 else 0) (seqZ 0 n) = IZR (b - a + 1).
Proof.
  intros Ha Hab Hb.
  rewrite (Rsum_ext _ (fun c => if decide (c ∈ seqZ a (b - a + 1)) then 1 else 0)).
  - rewrite (Rsum_indicator (fun _ => 1)).
    + rewrite Rsum_const, length_seqZ, INR_IZR_INZ, Z2Nat.id by lia. lra.
    + apply NoDup_seqZ.
    + apply NoDup_seqZ.
    + intros c Hc. apply elem_of_seqZ in Hc. apply elem_of_seqZ. lia.
  - intros c Hc.
    destruct (decide (a <= c <= b)%Z) as [H1 | H1],
      (decide (c ∈ seqZ a (b - a + 1))) as [H2 | H2]; try done.
    + exfalso. apply H2. apply elem_of_seqZ. lia.
    + exfalso. apply elem_of_seqZ in H2. lia.
Qed.

(** The length of a filtered list as a sum. *)
Lemma length_filter_Rsum {I : Type} (P : I -> Prop) `{forall a, Decision (P a)} (l : list I) :
  INR (length (filter P l)) = Rsum (fun a => if decide (P a) then 1 else 0) l.
Proof.
  rewrite <- (Rsum_filter P (fun _ => 1)), Rsum_const. lra.
Qed.

End Sums.
(** * The couplings of a grid in layers *)

(** The grid as [n] layers of [w] points, index [i * w + r]: a row of
    points in two dimensions, a plane in three.  [inner] marks the points
    of a layer that are not on its border. *)
Section Layers.
Variables (n w : Z) (inner : Z -> bool) (L : list (list R)) (cols1 : Z -> list Z).
Hypothesis Hn : 3 <= n.
Hypothesis Hw : 0 <= w.
Hypothesis Hshape : well_shaped (Z.to_nat (n * w)) L.
Hypothesis Hdiag : forall p, 0 <= p < n * w -> mget L (Z.to_nat p) (Z.to_nat p) <> 0%R.
Hypothesis Hstep : forall k c q, 0 <= k -> k < c -> c < q -> q < n * w ->
  coupled L q k -> coupled L c k -> coupled L q c.
Hypothesis Hup : forall i rq r,
  1 <= i -> i + 1 <= n - 2 -> 0 <= rq -> rq <= r -> r < w ->
  inner rq = true -> inner r = true -> coupled L ((i + 1) * w + rq) (i * w + r).
Hypothesis Hcols1 : forall r, 0 <= r < w ->
  NoDup (cols1 r) /\ forall c, c ∈ cols1 r -> 0 <= c < w + r /\ coupled L (w + r) c.

(** A point is coupled to the points of its own layer that come before
    it, by the elimination of the point below it. *)
Lemma reach_left (i rq r : Z) :
  1 <= i -> i + 1 <= n - 2 -> 0 <= r -> r < rq -> rq < w ->
  inner rq = true -> inner r = true ->
  coupled L ((i + 1) * w + rq) ((i + 1) * w + r).
Proof.
  intros Hi Hi' Hr Hlt Hrq Hin Hin'.
  apply (Hstep (i * w + rq)); [nia | nia | nia | nia | |].
  - apply Hup; (lia || done).
  - apply Hup; (lia || done).
Qed.

(** The columns coupled to the point [rq] of layer [i + 1]: one for each
    inner point [r] of a layer, in layer [i + 1] before [rq] and in layer
    [i] from [rq] on. *)
Let row_cols (i rq : Z) : list Z :=
  (fun r => (if r <? rq then (i + 1) * w else i * w) + r) <$>
  filter (fun r => inner r = true) (seqZ 0 w).

Lemma row_cols_spec (i rq : Z) :
  1 <= i -> i + 1 <= n - 2 -> 0 <= rq < w -> inner rq = true ->
  NoDup (row_cols i rq) /\
  forall c, c ∈ row_cols i rq ->
    0 <= c < (i + 1) * w + rq /\ coupled L ((i + 1) * w + rq) c.
Proof.
  intros Hi Hi' Hrq Hin. split.
  - apply NoDup_fmap_2_strong; [|apply NoDup_filter, NoDup_seqZ].
    intros x y Hx Hy Heq.
    apply list_elem_of_filter in Hx as [_ Hx]. apply list_elem_of_filter in Hy as [_ Hy].
    apply elem_of_seqZ in Hx, Hy.
    destruct (Z.ltb_spec x rq), (Z.ltb_spec y rq); lia.
  - intros c Hc. apply list_elem_of_fmap in Hc as (r & -> & Hr).
    apply list_elem_of_filter in Hr as [Hinr Hr]. apply elem_of_seqZ in Hr.
    destruct (Z.ltb_spec r rq).
    + split; [nia|]. apply reach_left; (lia || done).
    + split; [nia|]. apply Hup; (lia || done).
Qed.

(** The columns coupled to the point of index [q]. *)
Let cols (q : Z) : list Z :=
  if (2 <=? q / w) && (q / w <=? n - 2) && inner (q mod w) then row_cols (q / w - 1) (q mod w)
  else if q / w =? 1 then cols1 (q mod w) else [].

Lemma cols_spec (q : Z) :
  0 <= q < n * w ->
  NoDup (cols q) /\ forall c, c ∈ cols q -> 0 <= c < q /\ coupled L q c.
Proof.
  intros Hq. assert (Hw' : 0 < w) by nia.
  pose proof (Z.div_mod q w ltac:(lia)) as Hdm.
  pose proof (Z.mod_pos_bound q w Hw') as Hm.
  unfold cols. destruct (_ && _) eqn:Hc.
  - apply andb_true_iff in Hc as [Hc Hin]. apply andb_true_iff in Hc as [H2 Hn2].
    apply Z.leb_le in H2, Hn2.
    destruct (row_cols_spec (q / w - 1) (q mod w) ltac:(lia) ltac:(lia) Hm Hin) as [Hnd Hall].
    replace ((q / w - 1 + 1) * w + q mod w) with q in Hall by lia. done.
  - destruct (Z.eqb_spec (q / w) 1) as [H1 | H1].
    + destruct (Hcols1 (q mod w) Hm) as [Hnd Hall].
      replace (w + q mod w) with q in Hall by lia. done.
    + split; [apply NoDup_nil_2 | intros c Hc'; by apply elem_of_nil in Hc'].
Qed.

(** The number of inner points of a layer. *)
Let C : nat := length (filter (fun r => inner r = true) (seqZ 0 w)).

Lemma length_cols (i r : Z) :
  0 <= i -> 0 <= r < w ->
  INR (length (cols (i * w + r))) =
  ((if decide (2 <= i <= n - 2)%Z then 1 else 0) *
     ((if decide (inner r = true) then 1 else 0) * INR C) +
   (if decide (1 = i)%Z then INR (length (cols1 r)) else 0))%R.
Proof.
  intros Hi Hr. unfold cols.
  destruct (coords_2d w i r Hi Hr) as [-> ->].
  destruct (Z.leb_spec 2 i), (Z.leb_spec i (n - 2)), (inner r) eqn:Hin,
    (Z.eqb_spec i 1), (decide (2 <= i <= n - 2)), (decide (1 = i)),
    (decide (true = true)), (decide (false = true)); simpl andb; cbv iota; try lia;
    try done; unfold row_cols; rewrite ?length_fmap; fold C;
    change (INR (@length Z [])) with 0%R; lra.
Qed.

(** The diagonal and the coupled columns: a lower bound on the number of
    non-zeros. *)
Lemma layers_count :
  (IZR (n * w) + IZR (n - 3) * (INR C * INR C) +
   Rsum (fun r => INR (length (cols1 r))) (seqZ 0 w) <= INR (count_nonzero L))%R.
Proof.
  pose proof (count_nonzero_ge_cols (Z.to_nat (n * w)) L
                (fun i => i :: (Z.to_nat <$> cols (Z.of_nat i))) Hshape) as Hge.
  assert (Hcols : forall i, (i < Z.to_nat (n * w))%nat ->
            NoDup (i :: (Z.to_nat <$> cols (Z.of_nat i))) /\
            forall c, c ∈ i :: (Z.to_nat <$> cols (Z.of_nat i)) ->
                      (c < Z.to_nat (n * w))%nat /\ mget L i c <> 0%R).
  { intros i Hi. destruct (cols_spec (Z.of_nat i) ltac:(lia)) as [Hnd Hall]. split.
    - apply NoDup_cons. split.
      + intros Hin. apply list_elem_of_fmap in Hin as (c & Hc & Hin).
        destruct (Hall c Hin) as [Hlt _]. lia.
      + apply NoDup_fmap_2_strong; [|done].
        intros x y Hx Hy Heq. destruct (Hall x Hx) as [? _], (Hall y Hy) as [? _]. lia.
    - intros c Hc. apply elem_of_cons in Hc as [-> | Hc].
      + split; [done|]. rewrite <- (Nat2Z.id i). apply Hdiag. lia.
      + apply list_elem_of_fmap in Hc as (c' & -> & Hc).
        destruct (Hall c' Hc) as [Hlt Hcp]. split; [lia|].
        unfold coupled in Hcp. rewrite Nat2Z.id in Hcp. lra. }
  specialize (Hge Hcols). apply le_INR in Hge. rewrite INR_sum_list in Hge.
  eapply Rle_trans; [|exact Hge]. apply Req_le.
  rewrite (Rsum_ext _ (fun i => 1 + INR (length (cols (Z.of_nat i)))))%R.
  2:{ intros i _. cbn [length]. rewrite S_INR, length_fmap. lra. }
  rewrite <- (Rsum_fmap Z.of_nat (fun q => 1 + INR (length (cols q)))%R), seqZ_of_nat.
  rewrite Rsum_plus, Rsum_const, length_seqZ, (INR_IZR_INZ (Z.to_nat (n * w))), Z2Nat.id by nia.
  rewrite Rmult_1_r, Rplus_assoc. f_equal.
  replace (n * w) with (Z.of_nat (Z.to_nat n) * w) by lia.
  rewrite Rsum_layers by done. rewrite Z2Nat.id by lia.
  symmetry.
  transitivity
    (Rsum (fun i => (if decide (2 <= i <= n - 2)%Z then 1 else 0) * (INR C * INR C) +
                    (if decide (1 = i)%Z
                     then Rsum (fun r => INR (length (cols1 r))) (seqZ 0 w) else 0))%R
          (seqZ 0 n)).
  { apply Rsum_ext. intros i Hi. apply elem_of_seqZ in Hi. etrans.
    { apply Rsum_ext. intros r Hr. apply elem_of_seqZ in Hr. apply length_cols; lia. }
    rewrite Rsum_plus, Rsum_scal, Rsum_scal_r.
    rewrite <- (length_filter_Rsum (fun r => inner r = true)). fold C.
    apply (f_equal (Rplus _)).
    destruct (decide (1 = i)); [done | apply Rsum_zero]. }
  rewrite Rsum_plus, Rsum_scal_r.
  rewrite (Rsum_interval 2 (n - 2) n) by lia.
  rewrite (Rsum_delta (fun _ => Rsum (fun r => INR (length (cols1 r))) (seqZ 0 w)))
    by (apply NoDup_seqZ || (apply elem_of_seqZ; lia)).
  replace (n - 2 - 2 + 1) with (n - 3) by lia. reflexivity.
Qed.

End Layers.
(** * The number of non-zeros of the factor of the assembled matrix *)

Section LowerBounds.
Local Open Scope R_scope.

(** The number of interior values of a coordinate. *)
Lemma length_inner_axis (n : Z) :
  (2 <= n)%Z ->
  INR (length (filter (fun r => negb (extreme n r) = true) (seqZ 0 n))) = IZR (n - 2).
Proof.
  intros Hn. rewrite length_filter_Rsum, <- (Rsum_inside n Hn).
  apply Rsum_ext. intros r _. by destruct (extreme n r).
Qed.

(** The number of interior points of a plane. *)
Lemma length_inner_plane (n : Z) :
  (2 <= n)%Z ->
  INR (length (filter (fun r => negb (on_boundary_2d n r) = true) (seqZ 0 (n * n)))) =
  IZR (n - 2) * IZR (n - 2).
Proof.
  intros Hn. rewrite length_filter_Rsum.
  rewrite (Rsum_grid_2d _ (fun i j => (if extreme n i then 0 else 1) *
                                      (if extreme n j then 0 else 1))); [| lia |].
  - by rewrite Rsum_product, !Rsum_inside.
  - intros i j Hi Hj. rewrite on_boundary_2d_coords by lia. unfold extreme.
    destruct (Z.eqb_spec i 0), (Z.eqb_spec i (n - 1)), (Z.eqb_spec j 0),
      (Z.eqb_spec j (n - 1)); simpl; lra.
Qed.

(** In two dimensions, from [n = 3] on, the factor has at least
    [n^2 + (n - 3) (n - 2)^2 + (n - 3)] non-zeros: its diagonal; in each
    interior row of the grid but the first, one for each interior point of
    a row; in the first, one for each point but the first. *)
Lemma factor_count_2d (n : Z) (M L : list (list R)) :
  (3 <= n)%Z ->
  (forall p q, (0 <= p < n * n)%Z -> (0 <= q < n * n)%Z ->
     mget M (Z.to_nat p) (Z.to_nat q) = IZR (grid_entry n 2 p q)) ->
  cholesky_factor_of (Z.to_nat (n * n)) M L ->
  IZR (n * n) + IZR (n - 3) * (IZR (n - 2) * IZR (n - 2)) + IZR (n - 3) <=
  INR (count_nonzero L).
Proof.
  intros Hn HM HL. pose proof HL as (Hshape & _ & Hdiag & _).
  assert (Hc := layers_count n n (fun r => negb (extreme n r)) L
                  (fun r => if decide (2 <= r <= n - 2)%Z then [(n + r - 1)%Z] else [])
                  Hn ltac:(lia) Hshape).
  cbv beta zeta in Hc.
  rewrite length_inner_axis in Hc by lia.
  rewrite (Rsum_ext _ (fun r => if decide (2 <= r <= n - 2)%Z then 1 else 0)) in Hc
    by (intros r _; by destruct (decide _)).
  rewrite (Rsum_interval 2 (n - 2) n) in Hc by lia.
  replace (n - 2 - 2 + 1)%Z with (n - 3)%Z in Hc by lia.
  apply Hc.
  - intros p Hp. destruct (Hdiag (Z.to_nat p) ltac:(lia)) as [Hpos _]. lra.
  - apply (coupled_step (n * n) (grid_entry n 2) M L HM (grid_entry_nonpos n 2) HL).
  - intros i rq r Hi Hi' Hrq Hle Hr Hin Hin'.
    apply negb_true_iff in Hin, Hin'. unfold extreme in Hin, Hin'.
    apply (reach_up_2d n M L HM HL); lia.
  - intros r Hr. destruct (decide (2 <= r <= n - 2)%Z) as [Hr2 | Hr2].
    + split; [apply NoDup_singleton|]. intros c Hc'. apply list_elem_of_singleton in Hc' as ->.
      split; [lia|].
      replace (n + r)%Z with (1 * n + (r - 1 + 1))%Z by lia.
      replace (1 * n + (r - 1 + 1) - 1)%Z with (1 * n + (r - 1))%Z by lia.
      apply (coupled_left_2d n M L HM HL); lia.
    + split; [apply NoDup_nil_2 | intros c Hc'; by apply elem_of_nil in Hc'].
Qed.

(** In three dimensions, from [n = 3] on, the factor has at least
    [n^3 + (n - 3) (n - 2)^4] non-zeros: its diagonal and, in each
    interior plane of the grid but the first, one for each pair of
    interior points of a plane. *)
Lemma factor_count_3d (n : Z) (M L : list (list R)) :
  (3 <= n)%Z ->
  (forall p q, (0 <= p < n * n * n)%Z -> (0 <= q < n * n * n)%Z ->
     mget M (Z.to_nat p) (Z.to_nat q) = IZR (grid_entry n 3 p q)) ->
  cholesky_factor_of (Z.to_nat (n * n * n)) M L ->
  IZR (n * n * n) +
  IZR (n - 3) * (IZR (n - 2) * IZR (n - 2) * (IZR (n - 2) * IZR (n - 2))) <=
  INR (count_nonzero L).
Proof.
  intros Hn HM HL. pose proof HL as (Hshape & _ & Hdiag & _).
  assert (HN : (n * (n * n))%Z = (n * n * n)%Z) by ring.
  assert (Hc := layers_count n (n * n) (fun r => negb (on_boundary_2d n r)) L (fun _ => [])
                  Hn ltac:(nia)).
  cbv beta zeta in Hc.
  rewrite HN, length_inner_plane in Hc by lia.
  rewrite Rsum_all_zero, Rplus_0_r in Hc by done.
  apply Hc; [done | | | |].
  - intros p Hp. destruct (Hdiag (Z.to_nat p) ltac:(lia)) as [Hpos _]. lra.
  - apply (coupled_step (n * n * n) (grid_entry n 3) M L HM (grid_entry_nonpos n 3) HL).
  - intros i rq r Hi Hi' Hrq Hle Hr Hin Hin'.
    destruct (index_has_coords_2d n rq ltac:(lia) ltac:(lia)) as (jq & kq & Hjq & Hkq & ->).
    destruct (index_has_coords_2d n r ltac:(lia) ltac:(lia)) as (j & k & Hj & Hk & ->).
    apply negb_true_iff in Hin, Hin'.
    rewrite on_boundary_2d_coords in Hin, Hin' by lia.
    replace ((i + 1) * (n * n) + (jq * n + kq))%Z
      with ((i + 1) * n * n + jq * n + kq)%Z by ring.
    replace (i * (n * n) + (j * n + k))%Z with (i * n * n + j * n + k)%Z by ring.
    apply (reach_up_3d n M L HM HL);
      destruct (Z.eqb_spec jq 0), (Z.eqb_spec jq (n - 1)), (Z.eqb_spec kq 0),
        (Z.eqb_spec kq (n - 1)), (Z.eqb_spec j 0), (Z.eqb_spec j (n - 1)),
        (Z.eqb_spec k 0), (Z.eqb_spec k (n - 1)); try done; try lia.
    destruct (Z_lt_le_dec jq j) as [Hlt | Hge]; [by left | right].
    assert (jq = j) by nia. lia.
  - intros r Hr. split; [apply NoDup_nil_2 | intros c Hc'; by apply elem_of_nil in Hc'].
Qed.

End LowerBounds.

(** ** An upper bound from the band *)

(** A neighbour is at most a band width away. *)
Lemma grid_neighbors_band (n D p q : Z) :
  1 <= n -> D = 2 \/ D = 3 -> q ∈ grid_neighbors n D p ->
  p - grid_band_width n D <= q <= p + grid_band_width n D.
Proof.
  intros Hn [-> | ->] Hq; cbn in Hq |- *.
  - unfold get_neighbors_2d in Hq.
    rewrite !elem_of_app, !elem_of_if_singleton in Hq. lia.
  - unfold get_neighbors_3d in Hq.
    rewrite !elem_of_app, !elem_of_if_singleton in Hq. nia.
Qed.

Lemma grid_entry_band (n D p q : Z) :
  1 <= n -> D = 2 \/ D = 3 -> q + grid_band_width n D < p -> grid_entry n D p q = 0.
Proof.
  intros Hn HD Hlt. unfold grid_entry, system_entry.
  assert (0 <= grid_band_width n D) by (destruct HD as [-> | ->]; cbn; nia).
  rewrite decide_False by lia.
  destruct (bool_decide (q ∈ grid_neighbors n D p)) eqn:Hq.
  - apply bool_decide_eq_true in Hq.
    pose proof (grid_neighbors_band n D p q Hn HD Hq). lia.
  - by rewrite andb_false_r.
Qed.

(** The factor of a band matrix has its non-zeros in the band, on the
    diagonal and between indices that the matrix couples. *)
Lemma factor_band_count (n : nat) (M L : list (list R)) (inner : nat -> bool) (w : nat) :
  cholesky_factor_of n M L ->
  (forall p q, (p < n)%nat -> (q < n)%nat -> p <> q -> inner p = false ->
               mget M p q = 0%R /\ mget M q p = 0%R) ->
  (forall i j, (i < n)%nat -> (j + w < i)%nat -> mget M i j = 0%R) ->
  (count_nonzero L <=
   sum_list ((fun i => length (filter (fun j => band_allowed inner w i j = true) (seq 0 n)))
             <$> seq 0 n))%nat.
Proof.
  intros HL HM Hband. pose proof HL as (Hsh & Hz & _).
  apply count_nonzero_le; [done|].
  intros i j Hi Hj Hal. unfold band_allowed in Hal.
  apply andb_false_iff in Hal as [Hal | Hal].
  - unfold allowed_by in Hal.
    apply orb_false_iff in Hal as [Hne Hal]. apply Nat.eqb_neq in Hne.
    destruct (inner i) eqn:Hii; [destruct (inner j) eqn:Hij|]; simpl in Hal.
    + apply Nat.ltb_ge in Hal. apply Hz; lia.
    + apply (cholesky_isolated_index n M L j HL Hj); [|done | done].
      intros q Hq Hqj. apply HM; done.
    + apply (cholesky_isolated_index n M L i HL Hi); [|done | congruence].
      intros q Hq Hqi. apply HM; done.
  - apply Nat.leb_gt in Hal. apply (factor_band n M L HL w Hband); lia.
Qed.

(** The factor of the assembled matrix has at most [grid_band_count]
    non-zeros. *)
Lemma grid_factor_band_count (n D : Z) (M L : list (list R)) :
  1 <= n -> D = 2 \/ D = 3 ->
  (forall p q, 0 <= p < num_points n D -> 0 <= q < num_points n D ->
     mget M (Z.to_nat p) (Z.to_nat q) = IZR (grid_entry n D p q)) ->
  cholesky_factor_of (Z.to_nat (num_points n D)) M L ->
  (count_nonzero L <= grid_band_count n D)%nat.
Proof.
  intros Hn HD HM HL. unfold grid_band_count. cbv zeta.
  assert (HM' : forall i j, (i < Z.to_nat (num_points n D))%nat ->
            (j < Z.to_nat (num_points n D))%nat ->
            mget M i j = IZR (grid_entry n D (Z.of_nat i) (Z.of_nat j))).
  { intros i j Hi Hj. rewrite <- (Nat2Z.id i), <- (Nat2Z.id j) at 1. apply HM; lia. }
  assert (0 <= grid_band_width n D) by (destruct HD as [-> | ->]; cbn; nia).
  apply (factor_band_count _ M); [done | |].
  - intros p q Hp Hq Hne Hin. apply negb_false_iff in Hin.
    destruct (grid_entry_boundary n D (Z.of_nat p) (Z.of_nat q) ltac:(lia) Hin) as [H1 H2].
    by rewrite !HM', H1, H2 by done.
  - intros i j Hi Hj. rewrite HM' by lia. by rewrite grid_entry_band by lia.
Qed.

Lemma grid_band_count_small :
  grid_band_count 4 2 = 21%nat /\ grid_band_count 5 2 = 46%nat /\
  grid_band_count 4 3 = 86%nat.
Proof. vm_compute. done. Qed.

(** ** The smallest grids *)

(** With at most three points per direction no two points are coupled. *)
Lemma small_grid_diagonal (n D p q : Z) :
  1 <= n <= 3 -> D = 2 \/ D = 3 ->
  0 <= p < num_points n D -> 0 <= q < num_points n D -> p <> q ->
  grid_entry n D p q = 0.
Proof.
  intros Hn HD Hp Hq Hne. unfold grid_entry, system_entry.
  rewrite decide_False by done.
  destruct (grid_boundary n D p) eqn:Hbp; [done|].
  destruct (grid_boundary n D q) eqn:Hbq; [done|]. exfalso. apply Hne.
  destruct HD as [-> | ->]; cbn in Hp, Hq, Hbp, Hbq.
  - destruct (index_has_coords_2d n p ltac:(lia) Hp) as (i & j & Hi & Hj & ->).
    destruct (index_has_coords_2d n q ltac:(lia) Hq) as (i' & j' & Hi' & Hj' & ->).
    rewrite on_boundary_2d_coords in Hbp, Hbq by lia.
    assert (i = 1 /\ j = 1 /\ i' = 1 /\ j' = 1) as (-> & -> & -> & ->) by lia. done.
  - destruct (index_has_coords_3d n p ltac:(lia) Hp) as (i & j & k & Hi & Hj & Hk & ->).
    destruct (index_has_coords_3d n q ltac:(lia) Hq) as (i' & j' & k' & Hi' & Hj' & Hk' & ->).
    rewrite on_boundary_3d_coords in Hbp, Hbq by lia.
    assert (i = 1 /\ j = 1 /\ k = 1 /\ i' = 1 /\ j' = 1 /\ k' = 1)
      as (-> & -> & -> & -> & -> & ->) by lia. done.
Qed.
(** * The fill-in ratio of the unreordered factor *)

(** The matrix and the factor of a constructed problem. *)
Lemma constructed_factor (rcm : sparse -> list Z) (n D : Z) (self : @Problem R) :
  rcm_valid rcm -> 1 <= n -> D = 2 \/ D = 3 ->
  Problem_init rcm n D = ([], inr self) ->
  let N := num_points n D in
  (forall k, entries (matrix self) !! k =
             system_lookup N (grid_boundary n D) (grid_diagonal D) (grid_neighbors n D) k) /\
  (forall p q, 0 <= p < N -> 0 <= q < N -> sp_get (matrix self) p q = grid_entry n D p q) /\
  (forall p q, 0 <= p < N -> 0 <= q < N ->
     mget (toarray (matrix self)) (Z.to_nat p) (Z.to_nat q) = IZR (grid_entry n D p q)) /\
  cholesky_factor_of (Z.to_nat N) (toarray (matrix self)) (cholesky_factor self).
Proof.
  intros Hrcm Hn HD Hi N.
  destruct (Problem_init_constructs rcm Hrcm n D Hn HD)
    as (A & b & L & L' & Hb & Hi' & HL & _).
  rewrite Hi in Hi'. injection Hi' as ->. cbn [matrix cholesky_factor].
  destruct (build_matrix_facts (F := R) n D Hn HD)
    as (A0 & b0 & Hb0 & Hr & Hc & _ & He & Hg & _).
  rewrite Hb in Hb0. injection Hb0 as <- <-. fold N in Hr, Hc, He, Hg, HL.
  destruct (toarray_spec A N Hr Hc) as [_ Hent].
  split; [done|]. split; [|split; [|done]].
  - intros p q Hp Hq. by rewrite Hg, decide_True by lia.
  - intros p q Hp Hq. rewrite Hent by lia. unfold sp_dense.
    rewrite !Z2Nat.id by lia. by rewrite Hg, decide_True by lia.
Qed.

(** The number of stored entries of the assembled matrix against the
    number of non-zeros of its factor: no coupling with at most three
    points per direction; more entries than non-zeros on the next grids,
    where only the lower triangle of the band fills; fewer from [n = 6] in
    two dimensions and [n = 5] in three on, where the factor fills the
    band of each interior point. *)
Lemma fill_in_counts (rcm : sparse -> list Z) (n D : Z) (self : @Problem R) :
  rcm_valid rcm -> 1 <= n -> D = 2 \/ D = 3 ->
  Problem_init rcm n D = ([], inr self) ->
  (n <= 3 -> fully_diagonal (num_points n D) (matrix self)) /\
  ((D = 2 /\ 4 <= n <= 5) \/ (D = 3 /\ n = 4) ->
   (count_nonzero (cholesky_factor self) < nnz (matrix self))%nat) /\
  ((D = 2 /\ 6 <= n) \/ (D = 3 /\ 5 <= n) ->
   (nnz (matrix self) < count_nonzero (cholesky_factor self))%nat).
Proof.
  intros Hrcm Hn HD Hi.
  destruct (constructed_factor rcm n D self Hrcm Hn HD Hi) as (He & Hg & HM & HL).
  split; [|split].
  - intros H3 p q Hp Hq Hne. rewrite Hg by done.
    apply small_grid_diagonal; (lia || done).
  - intros Hsmall.
    pose proof (grid_factor_band_count n D _ _ Hn HD HM HL) as Hub.
    pose proof (nnz_interior_degrees (matrix self) n D Hn HD He) as Hnnz.
    destruct grid_band_count_small as (H42 & H52 & H43).
    assert (Hcases : (n = 4 /\ D = 2) \/ (n = 5 /\ D = 2) \/ (n = 4 /\ D = 3)) by lia.
    destruct Hcases as [[-> ->] | [[-> ->] | [-> ->]]].
    + rewrite Rsum_interior_degree_2d in Hnnz by lia.
      rewrite <- plus_IZR, INR_IZR_INZ in Hnnz. apply eq_IZR in Hnnz.
      cbn in Hnnz. lia.
    + rewrite Rsum_interior_degree_2d in Hnnz by lia.
      rewrite <- plus_IZR, INR_IZR_INZ in Hnnz. apply eq_IZR in Hnnz.
      cbn in Hnnz. lia.
    + rewrite Rsum_interior_degree_3d in Hnnz by lia.
      rewrite <- plus_IZR, INR_IZR_INZ in Hnnz. apply eq_IZR in Hnnz.
      cbn in Hnnz. lia.
  - intros Hlarge.
    pose proof (nnz_interior_degrees (matrix self) n D Hn HD He) as Hnnz.
    destruct Hlarge as [[-> H6] | [-> H5]].
    + pose proof (factor_count_2d n _ _ ltac:(lia) HM HL) as Hlb.
      rewrite Rsum_interior_degree_2d in Hnnz by lia.
      rewrite <- plus_IZR, INR_IZR_INZ in Hnnz. apply eq_IZR in Hnnz.
      rewrite <- !mult_IZR, <- !plus_IZR, INR_IZR_INZ in Hlb. apply le_IZR in Hlb.
      change (num_points n 2) with (n * n) in Hnnz.
      assert (4 * (n - 2) < (n - 2) * (n - 2) + 1) by nia.
      assert (0 < n - 3) by lia. nia.
    + pose proof (factor_count_3d n _ _ ltac:(lia) HM HL) as Hlb.
      rewrite Rsum_interior_degree_3d in Hnnz by lia.
      rewrite <- plus_IZR, INR_IZR_INZ in Hnnz. apply eq_IZR in Hnnz.
      rewrite <- !mult_IZR, <- !plus_IZR, INR_IZR_INZ in Hlb. apply le_IZR in Hlb.
      change (num_points n 3) with (n * n * n) in Hnnz.
      assert (6 < (n - 2) * (n - 2)) by nia.
      assert (0 < (n - 3) * ((n - 2) * (n - 2))) by nia.
      nia.
Qed.
(** * The fill-in ratio against 1 *)

(** C8.  For every supported grid and every ordering routine that
    returns permutations the object is constructed, and
    [fill_in_ratio(False)] returns the number of non-zeros of the factor
    over the number of stored entries of the matrix: a positive scalar,
    which equals 1 only when the matrix is fully diagonal. *)
Theorem fill_in_ratio_unreordered (rcm : sparse -> list Z) (n D : Z) :
  rcm_valid rcm -> 1 <= n -> D = 2 \/ D = 3 ->
  exists (self : @Problem R) (q : Q),
    Problem_init rcm n D = ([], inr self) /\
    fill_in_ratio self false = Some q /\
    q = Z.of_nat (count_nonzero (cholesky_factor self)) # Pos.of_nat (nnz (matrix self)) /\
    (0 < q)%Q /\
    ((q == 1)%Q -> fully_diagonal (num_points n D) (matrix self)).
Proof.
  intros Hrcm Hn HD.
  destruct (constructed_problem rcm n D Hrcm Hn HD)
    as (self & Hi & _ & _ & _ & Hnz & _ & [Hlo _] & _ & _).
  destruct (fill_in_counts rcm n D self Hrcm Hn HD Hi) as (Hsmall & Hlt & Hgt).
  pose proof (num_points_pos n D Hn) as HN.
  exists self. eexists. split; [done|].
  split; [by apply fill_in_ratio_false|]. split; [done|]. split.
  - unfold Qlt. cbn. lia.
  - intros Hq. unfold Qeq in Hq. cbn in Hq. rewrite pos_of_nat_Z in Hq by done.
    destruct (decide (n <= 3)) as [H3 | H3]; [by apply Hsmall|]. exfalso.
    destruct (decide ((D = 2 /\ 4 <= n <= 5) \/ (D = 3 /\ n = 4))) as [Hs | Hs].
    + specialize (Hlt Hs). lia.
    + assert (Hl : (D = 2 /\ 6 <= n) \/ (D = 3 /\ 5 <= n)) by lia.
      specialize (Hgt Hl). lia.
Qed.

(** The statement for [n = 4], [dimension = 2] and the reversed natural
    order: a matrix with couplings, and a ratio other than 1. *)
Lemma fill_in_ratio_unreordered_witness :
  exists (self : @Problem R) (q : Q),
    Problem_init reversed_order 4 2 = ([], inr self) /\
    fill_in_ratio self false = Some q /\
    q = Z.of_nat (count_nonzero (cholesky_factor self)) # Pos.of_nat (nnz (matrix self)) /\
    (0 < q)%Q /\
    ((q == 1)%Q -> fully_diagonal (num_points 4 2) (matrix self)).
Proof.
  apply (fill_in_ratio_unreordered reversed_order 4 2 reversed_order_valid);
    [lia | by left].
Defined.

(** X14.  [fill_in_ratio(False)] against 1, for every supported grid and
    every ordering routine that returns permutations: it is 1 with at most
    three points per direction, where the matrix is diagonal; below 1 for
    [n = 4] and [n = 5] in two dimensions and for [n = 4] in three, where
    the matrix stores both triangles of its couplings and the factor one;
    above 1 from [n = 6] in two dimensions and from [n = 5] in three on,
    where the elimination fills the band of the factor. *)
Theorem fill_in_ratio_regimes (rcm : sparse -> list Z) (n D : Z) :
  rcm_valid rcm -> 1 <= n -> D = 2 \/ D = 3 ->
  exists (self : @Problem R) (q : Q),
    Problem_init rcm n D = ([], inr self) /\
    fill_in_ratio self false = Some q /\
    (n <= 3 -> (q == 1)%Q) /\
    ((D = 2 /\ 4 <= n <= 5) \/ (D = 3 /\ n = 4) -> (q < 1)%Q) /\
    ((D = 2 /\ 6 <= n) \/ (D = 3 /\ 5 <= n) -> (1 < q)%Q).
Proof.
  intros Hrcm Hn HD.
  destruct (constructed_problem rcm n D Hrcm Hn HD)
    as (self & Hi & _ & _ & _ & Hnz & _ & _ & _ & Hdiag).
  destruct (fill_in_counts rcm n D self Hrcm Hn HD Hi) as (Hsmall & Hlt & Hgt).
  exists self. eexists. split; [done|].
  split; [by apply fill_in_ratio_false|]. split; [|split].
  - intros H3. destruct (Hdiag (Hsmall H3)) as [H1 H2].
    unfold Qeq. cbn. rewrite pos_of_nat_Z by done. lia.
  - intros Hs. specialize (Hlt Hs).
    unfold Qlt. cbn. rewrite pos_of_nat_Z by done. lia.
  - intros Hl. specialize (Hgt Hl).
    unfold Qlt. cbn. rewrite pos_of_nat_Z by done. lia.
Qed.

(** The statement for [n = 6], [dimension = 2] and the reversed natural
    order: the factor has more non-zeros than the matrix stores entries. *)
Lemma fill_in_ratio_regimes_witness :
  exists (self : @Problem R) (q : Q),
    Problem_init reversed_order 6 2 = ([], inr self) /\
    fill_in_ratio self false = Some q /\ (1 < q)%Q.
Proof.
  destruct (fill_in_ratio_regimes reversed_order 6 2 reversed_order_valid
              ltac:(lia) ltac:(by left)) as (self & q & H1 & H2 & _ & _ & H3).
  exists self, q. split; [done|]. split; [done|]. apply H3. left. lia.
Defined.
